(** * prelude-js: the lazy, memoizing sequence [Seq] (src/seq.ts)

    A shallow embedding of the sequence engine [create], of the combinators
    built on it and of the two monads it returns ([Option] from
    src/monads/option.ts, [Result] from src/monads/safe.ts).

    Conventions
    - a JavaScript [number] used as an index, a size or a cap is a [Z]
      (negative values matter); an optional bound that defaults to
      [Infinity] is an [option Z];
    - an array is a [list]; reading [arr[i]] gives [option T], where [None]
      is the [undefined] of an out-of-range read;
    - an element type comes with [isNil], the test [v === null || v ===
      undefined] of src/err.ts;
    - mutable state is passed explicitly: a computation over a store [W] is a
      function [W -> option (A * W)], where [None] is a loop that ran out of
      fuel (the model of a JavaScript loop that does not return). *)

From Stdlib Require Import List ZArith Lia Bool String.
Import ListNotations.

Set Implicit Arguments.

(** ** Values *)

(** [isNil] of src/err.ts, per element type. *)
Class Nilable (T : Type) := isNil : T -> bool.

(** A small universe of JavaScript values for elements that may be
    [null] or [undefined]. *)
Inductive JsValue : Type :=
| Undefined
| Null
| Num (n : Z).

#[export] Instance JsValue_Nilable : Nilable JsValue :=
  fun v => match v with Undefined | Null => true | Num _ => false end.

(** Numbers, tuples (arrays) and objects are never nil. *)
#[export] Instance Z_Nilable : Nilable Z := fun _ => false.
#[export] Instance pair_Nilable (A B : Type) : Nilable (A * B) := fun _ => false.
#[export] Instance list_Nilable (A : Type) : Nilable (list A) := fun _ => false.

(** [arr[i]] for a JavaScript number [i]. *)
Definition index {T : Type} (arr : list T) (i : Z) : option T :=
  if (i <? 0)%Z then None else nth_error arr (Z.to_nat i).

(** A thrown [Error]. *)
Inductive Error : Type := mkError (message : string).

(** The completion of a call that may throw. *)
Inductive Completion (A : Type) : Type :=
| Normal (value : A)
| Throws (e : Error).
Arguments Throws {A} e.

(** ** Stateful computations *)

Definition M (W A : Type) : Type := W -> option (A * W).

Definition ret {W A : Type} (a : A) : M W A := fun w => Some (a, w).

Definition bind {W A B : Type} (m : M W A) (k : A -> M W B) : M W B :=
  fun w => match m w with
           | Some (a, w') => k a w'
           | None => None
           end.

(** A loop that never returns. *)
Definition diverge {W A : Type} : M W A := fun _ => None.

Declare Scope seq_scope.
Delimit Scope seq_scope with seq.
Notation "x <- m ;; k" := (bind m (fun x => k))
  (at level 61, m at next level, right associativity) : seq_scope.
Notation "' pat <- m ;; k" := (bind m (fun x => match x with pat => k end))
  (at level 61, pat pattern, m at next level, right associativity) : seq_scope.
Open Scope seq_scope.

(** Run a computation of a component on the first (second) half of a store. *)
Definition onFst {W1 W2 A : Type} (m : M W1 A) : M (W1 * W2) A :=
  fun '(w1, w2) => match m w1 with
                   | Some (a, w1') => Some (a, (w1', w2))
                   | None => None
                   end.

Definition onSnd {W1 W2 A : Type} (m : M W2 A) : M (W1 * W2) A :=
  fun '(w1, w2) => match m w2 with
                   | Some (a, w2') => Some (a, (w1, w2'))
                   | None => None
                   end.

(** ** src/monads/option.ts *)

Module Option.

Inductive Option (T : Type) : Type :=
| SOME (value : T)
| NONE.
Arguments NONE {T}.

(** The shared singleton. *)
Definition none {T : Type} : Option T := NONE.

(** [some] refuses [null] and [undefined]. *)
Definition some {T : Type} `{Nilable T} (value : T) : Completion (Option T) :=
  if isNil value
  then Throws (mkError "Cannot create Some with null or undefined")
  else Normal (SOME value).

(** [optional(value)]: [value === undefined || value === null ? none :
    some(value)].  The argument has type [T | undefined | null]; the
    [undefined] of an out-of-range array read is [None]. *)
Definition optional {T : Type} `{Nilable T} (value : option T) : Option T :=
  match value with
  | None => none
  | Some v => if isNil v then none else SOME v
  end.

Definition isNone {T : Type} (option : Option T) : bool :=
  match option with NONE => true | SOME _ => false end.

Definition isSome {T : Type} (option : Option T) : bool :=
  match option with NONE => false | SOME _ => true end.

Definition fold {T U : Type} (onSome : T -> U) (onNone : U) (option : Option T) : U :=
  if isNone option then onNone
  else match option with SOME v => onSome v | NONE => onNone end.

End Option.
Import Option.

(** ** src/monads/safe.ts *)

Module Safe.

Inductive Result (T : Type) : Type :=
| SUCCESS (value : T)
| FAILURE (cause : Error).
Arguments FAILURE {T} cause.

Definition success {T : Type} (value : T) : Result T := SUCCESS value.
Definition failure {T : Type} (cause : Error) : Result T := FAILURE cause.

(** [try { return success(fn()) } catch (error) { return failure(error) }],
    on the completion of [fn()]. *)
Definition attempt {T : Type} (fn : Completion T) : Result T :=
  match fn with
  | Normal v => success v
  | Throws error => failure error
  end.

End Safe.
Import Safe.

(** ** src/seq.ts *)

(** [IteratorResult<T>]: [{ done: false, value }] or [{ done: true }]. *)
Inductive IteratorResult (T : Type) : Type :=
| Yield (value : T)
| Done.
Arguments Done {T}.

(** A source factory [() => Iterator<T>] over a store [W]: [fresh] is the
    call of the factory, which returns the state [C] of a new cursor, and
    [next] is the cursor's [next()]. *)
Record Source (W C T : Type) : Type := mkSource {
  fresh : M W C;
  next : C -> M W (IteratorResult T * C)
}.

(** A sequence object over a store [W], which holds its cache and the
    stores of the sequences its source closes over.  Every other method is
    written in terms of [get] and the iterator. *)
Record Seq (W T : Type) : Type := mkSeq {
  get : Z -> M W (Option T)
}.

Module Seq.

(** [[Symbol.iterator]()] and [values()]: an index [i] that starts at 0;
    [next()] is [fold(v => yield v, () => done)(iterable.get(i++))]. *)
Definition iterator {W T : Type} (iterable : Seq W T) : Source W Z T :=
  {| fresh := ret 0%Z;
     next := fun i =>
       o <- get iterable i ;;
       ret (fold (fun v => Yield v) Done o, (i + 1)%Z) |}.

Section Create.
Context {W C T : Type} `{Nilable T}.
Variable source : Source W C T.

(** [for (let i = 0; i < cache.length; i++) it.next();] *)
Fixpoint fastForward (n : nat) (it : C) : M W C :=
  match n with
  | O => ret it
  | S n' => '(_, it') <- next source it ;; fastForward n' it'
  end.

(** [while (cache.length <= idx) { const n = it.next(); if (n.done)
    return none; cache.push(n.value); } return optional(cache[idx]);]
    Every turn makes the cache one longer, so [idx + 1 - cache.length]
    turns are enough fuel. *)
Fixpoint fill (fuel : nat) (idx : Z) (it : C) (cache : list T)
  : M W (Option T * list T) :=
  if (Z.of_nat (List.length cache) <=? idx)%Z then
    match fuel with
    | O => diverge
    | S fuel' =>
        '(n, it') <- next source it ;;
        match n with
        | Done => ret (none, cache)
        | Yield v => fill fuel' idx it' (cache ++ [v])
        end
    end
  else ret (optional (index cache idx), cache).

(** [get(idx)] of the object [create] returns; its store is the cache
    and the store of the source. *)
Definition create_get (idx : Z) : M (list T * W) (Option T) :=
  fun '(cache, w) =>
    if (idx <? Z.of_nat (List.length cache))%Z
    then Some (optional (index cache idx), (cache, w))
    else
      match (it <- fresh source ;;
             it1 <- fastForward (List.length cache) it ;;
             fill (Z.to_nat (idx + 1 - Z.of_nat (List.length cache))) idx it1 cache) w with
      | Some ((o, cache'), w') => Some (o, (cache', w'))
      | None => None
      end.

Definition create : Seq (list T * W) T := {| get := create_get |}.

End Create.

(** The store of a sequence that was just created. *)
Definition init {W T : Type} (w : W) : list T * W := ([], w).

Definition head {W T : Type} (s : Seq W T) : M W (Option T) := get s 0%Z.

(** [fromArray]: the cursor is [index] over the copy [cloned]. *)
Definition fromArray_source {T : Type} (cloned : list T) : Source unit nat T :=
  {| fresh := ret 0;
     next := fun index =>
       match nth_error cloned index with
       | Some v => ret (Yield v, S index)
       | None => ret (Done, index)
       end |}.

Definition fromArray {T : Type} `{Nilable T} (arr : list T) : Seq (list T * unit) T :=
  create (fromArray_source arr).

(** [[...seq]]: pull the iterator until it is done. *)
Fixpoint spread {W C T : Type} (fuel : nat) (src : Source W C T) (it : C) (arr : list T)
  : M W (list T) :=
  match fuel with
  | O => diverge
  | S fuel' =>
      '(n, it') <- next src it ;;
      match n with
      | Done => ret arr
      | Yield v => spread fuel' src it' (arr ++ [v])
      end
  end.

Definition toArrayUnsafe {W T : Type} (fuel : nat) (seq : Seq W T) : M W (list T) :=
  it <- fresh (iterator seq) ;;
  spread fuel (iterator seq) it [].

(** A source instrumented as a counting cursor: every [next()] appends to
    a log the position it evaluates, that is the number of earlier calls
    of [next()] on the same cursor. *)
Definition counted {W C T : Type} (src : Source W C T) : Source (list nat * W) (nat * C) T :=
  {| fresh := c <- onSnd (fresh src) ;; ret (0, c);
     next := fun '(p, c) =>
       '(n, c') <- (fun '(log, w) =>
                      match next src c w with
                      | Some (x, w') => Some (x, (log ++ [p], w'))
                      | None => None
                      end) ;;
       ret (n, (S p, c')) |}.

(** *** Structural combinators *)

Section Combinators.
Context {W T : Type} `{Nilable T}.
Variable iterable : Seq W T.

(** [take(n)]: [m = Math.max(0, n)]; the cursor is an index [i] from 0. *)
Definition take_source (m : Z) : Source W Z T :=
  {| fresh := ret 0%Z;
     next := fun i =>
       if (i >=? m)%Z then ret (Done, i)
       else
         o <- get iterable i ;;
         ret (fold (fun v => Yield v) Done o, (i + 1)%Z) |}.

Definition take (n : Z) : Seq (list T * W) T :=
  let m := Z.max 0 n in
  create (take_source m).

(** [drop(n)]: the cursor is an index [i] that starts at [n]. *)
Definition drop_source (n : Z) : Source W Z T :=
  {| fresh := ret n;
     next := fun i =>
       o <- get iterable i ;;
       ret (fold (fun v => Yield v) Done o, (i + 1)%Z) |}.

Definition drop (n : Z) : Seq (list T * W) T :=
  create (drop_source n).

Definition tail : Seq (list T * W) T := drop 1%Z.

End Combinators.

(** The store of [slice(start, end)]: that of [drop(start).take(...)] for a
    finite [end], that of [drop(start)] when [end] is [Infinity]. *)
Definition sliceStore (W T : Type) (end_ : option Z) : Type :=
  match end_ with
  | Some _ => (list T * (list T * W))%type
  | None => (list T * W)%type
  end.

(** [slice(start, end = Infinity)].  With [end] infinite, [e] is infinite
    and the result is [dropped]; with [end] finite so is [e]. *)
Definition slice {W T : Type} `{Nilable T} (this : Seq W T) (start : Z) (end_ : option Z)
  : Seq (sliceStore W T end_) T :=
  let dropped := drop this start in
  let s := Z.max 0 start in
  match end_ return Seq (sliceStore W T end_) T with
  | None => dropped
  | Some end' =>
      let e := if (end' <=? s)%Z then s else end' in
      take dropped (e - s)
  end.

(** [zip(other)]: a fresh pair of iterators [la], [lb]; [next()] pulls both
    and only then tests [a.done || b.done]. *)
Definition zip_source {Wa Wb T U : Type} (iterable : Seq Wa T) (other : Seq Wb U)
  : Source (Wa * Wb) (Z * Z) (T * U) :=
  {| fresh :=
       la <- onFst (fresh (iterator iterable)) ;;
       lb <- onSnd (fresh (iterator other)) ;;
       ret (la, lb);
     next := fun '(la, lb) =>
       '(a, la') <- onFst (next (iterator iterable) la) ;;
       '(b, lb') <- onSnd (next (iterator other) lb) ;;
       ret (match a, b with
            | Yield x, Yield y => Yield (x, y)
            | _, _ => Done
            end, (la', lb')) |}.

Definition zip {Wa Wb T U : Type} (iterable : Seq Wa T) (other : Seq Wb U)
  : Seq (list (T * U) * (Wa * Wb)) (T * U) :=
  create (zip_source iterable other).

(** *** Sequence objects as values

    A sequence that is itself a value (an element of a sequence of
    sequences, the result of [fn] in [flatMap], the result of [reverse])
    is the object with its own private store. *)
Record SeqObj (T : Type) : Type := mkObj {
  store : Type;
  handle : Seq store T;
  state : store
}.

#[export] Instance SeqObj_Nilable (T : Type) : Nilable (SeqObj T) := fun _ => false.

Definition fromArrayObj {T : Type} `{Nilable T} (arr : list T) : SeqObj T :=
  {| handle := fromArray arr; state := init tt |}.

(** [o.get(idx)], with the object in its new state. *)
Definition obj_get {T : Type} (o : SeqObj T) (idx : Z) : option (Option T * SeqObj T) :=
  match get (handle o) idx (state o) with
  | Some (r, st) => Some (r, {| handle := handle o; state := st |})
  | None => None
  end.

(** [next()] of an iterator [(o, i)] over a sequence object. *)
Definition obj_next {T : Type} (it : SeqObj T * Z) : option (IteratorResult T * (SeqObj T * Z)) :=
  let '(o, i) := it in
  match obj_get o i with
  | Some (r, o') => Some (fold (fun v => Yield v) Done r, (o', (i + 1)%Z))
  | None => None
  end.

(** [[...s]] for a sequence object. *)
Definition materialize {T : Type} (fuel : nat) (o : SeqObj T) : option (list T) :=
  match toArrayUnsafe fuel (handle o) (state o) with
  | Some (arr, _) => Some arr
  | None => None
  end.

Definition liftOpt {W A : Type} (x : option A) : M W A :=
  fun w => match x with Some a => Some (a, w) | None => None end.

Section FlatMap.
Context {W T U : Type}.
Variable iterable : Seq W T.
Variable fn : T -> SeqObj U.

(** The [while (true)] of [flatMap]'s [next()]; the cursor is the outer
    iterator and [inner], an iterator over [fn(o.value)] or [null]. *)
Fixpoint flatMap_next (fuel : nat) (outer : Z) (inner : option (SeqObj U * Z))
  : M W (IteratorResult U * (Z * option (SeqObj U * Z))) :=
  match fuel with
  | O => diverge
  | S fuel' =>
      r <- match inner with
           | Some it =>
               '(n, it') <- liftOpt (obj_next it) ;;
               ret (match n with
                    | Yield v => Some (v, it')
                    | Done => None
                    end)
           | None => ret None
           end ;;
      match r with
      | Some (v, it') => ret (Yield v, (outer, Some it'))
      | None =>
          '(o, outer') <- next (iterator iterable) outer ;;
          match o with
          | Done => ret (Done, (outer', None))
          | Yield v => flatMap_next fuel' outer' (Some (fn v, 0%Z))
          end
      end
  end.

Definition flatMap_source (fuel : nat) : Source W (Z * option (SeqObj U * Z)) U :=
  {| fresh := outer <- fresh (iterator iterable) ;; ret (outer, None);
     next := fun '(outer, inner) => flatMap_next fuel outer inner |}.

Definition flatMap `{Nilable U} (fuel : nat) : Seq (list U * W) U :=
  create (flatMap_source fuel).

End FlatMap.

(** *** Aggregate operations *)

Section Aggregates.
Context {W T : Type} `{Nilable T}.
Variable iterable : Seq W T.

(** The [while (chunk.length < size)] of [chunk]'s [next()]: at most
    [size - chunk.length] turns.  The result is [None] for
    [{ done: true }] and the chunk otherwise. *)
Fixpoint chunk_next (turns : nat) (it : Z) (chunk : list T)
  : M W (option (list T) * Z) :=
  match turns with
  | O => ret (Some chunk, it)
  | S turns' =>
      '(n, it') <- next (iterator iterable) it ;;
      match n with
      | Done => if (List.length chunk =? 0)%nat then ret (None, it')
                else ret (Some chunk, it')
      | Yield v => chunk_next turns' it' (chunk ++ [v])
      end
  end.

Definition chunk_source (size : Z) : Source W (Z * list T) (SeqObj T) :=
  {| fresh := it <- fresh (iterator iterable) ;; ret (it, []);
     next := fun '(it, chunk) =>
       '(r, it') <- chunk_next (Z.to_nat (size - Z.of_nat (List.length chunk))) it chunk ;;
       match r with
       | None => ret (Done, (it', chunk))
       | Some c => ret (Yield (fromArrayObj c), (it', []))
       end |}.

Definition chunk (size : Z) : Completion (Seq (list (SeqObj T) * W) (SeqObj T)) :=
  if (size <=? 0)%Z
  then Throws (mkError "Chunk size must be greater than 0")
  else Normal (create (chunk_source size)).

(** The [while (buffer.length < size)] of [window]'s [next()]: whether the
    source ended, the buffer and the iterator. *)
Fixpoint window_next (turns : nat) (it : Z) (buffer : list T)
  : M W (bool * list T * Z) :=
  match turns with
  | O => ret (false, buffer, it)
  | S turns' =>
      '(n, it') <- next (iterator iterable) it ;;
      match n with
      | Done => ret (true, buffer, it')
      | Yield v => window_next turns' it' (buffer ++ [v])
      end
  end.

(** [window(size)]: [fromArray([...buffer])], then [buffer.shift()]. *)
Definition window_source (size : Z) : Source W (Z * list T) (SeqObj T) :=
  {| fresh := it <- fresh (iterator iterable) ;; ret (it, []);
     next := fun '(it, buffer) =>
       '(done, buffer', it') <-
         window_next (Z.to_nat (size - Z.of_nat (List.length buffer))) it buffer ;;
       if (done : bool) then ret (Done, (it', buffer'))
       else ret (Yield (fromArrayObj buffer'), (it', List.tl buffer')) |}.

Definition window (size : Z) : Completion (Seq (list (SeqObj T) * W) (SeqObj T)) :=
  if (size <=? 0)%Z
  then Throws (mkError "Window size must be greater than 0")
  else Normal (create (window_source size)).

(** The [while (true)] of [sliceBy]'s [next()]: the result is the flag
    [done], the iterator and the bucket. *)
Fixpoint sliceBy_next (fuel : nat) (fn : T -> bool) (it : Z) (bucket : list T)
  : M W (bool * Z * list T) :=
  match fuel with
  | O => diverge
  | S fuel' =>
      '(n, it') <- next (iterator iterable) it ;;
      match n with
      | Done => ret (true, it', bucket)
      | Yield value =>
          if fn value then ret (false, it', bucket)
          else sliceBy_next fuel' fn it' (bucket ++ [value])
      end
  end.

Definition sliceBy_source (fuel : nat) (fn : T -> bool) : Source W (Z * bool) (SeqObj T) :=
  {| fresh := it <- fresh (iterator iterable) ;; ret (it, false);
     next := fun '(it, done) =>
       if done then ret (Done, (it, done))
       else
         '(done', it', bucket) <- sliceBy_next fuel fn it [] ;;
         if done' && (List.length bucket =? 0)%nat
         then ret (Done, (it', done'))
         else ret (Yield (fromArrayObj bucket), (it', done')) |}.

Definition sliceBy (fuel : nat) (fn : T -> bool) : Seq (list (SeqObj T) * W) (SeqObj T) :=
  create (sliceBy_source fuel fn).

(** [for (const v of iterable) body], where the body may throw; [acc] holds
    the variables the body updates. *)
Fixpoint forOf {A : Type} (fuel : nat) (body : A -> T -> Completion A) (it : Z) (acc : A)
  : M W (Completion A) :=
  match fuel with
  | O => diverge
  | S fuel' =>
      '(n, it') <- next (iterator iterable) it ;;
      match n with
      | Done => ret (Normal acc)
      | Yield v =>
          match body acc v with
          | Normal acc' => forOf fuel' body it' acc'
          | Throws e => ret (Throws e)
          end
      end
  end.

Definition default_max : Z := 10000%Z.

(** [length(max = 10_000)]: [if (++c > max) throw new Error("Too large")]. *)
Definition length (fuel : nat) (max : option Z) : M W (Result Z) :=
  let max := match max with Some m => m | None => default_max end in
  it <- fresh (iterator iterable) ;;
  r <- forOf fuel
         (fun c _ => let c := (c + 1)%Z in
                     if (c >? max)%Z then Throws (mkError "Too large") else Normal c)
         it 0%Z ;;
  ret (attempt r).

(** [reverse(max = 10_000)]: [arr.push(val); count++; if (count > max)
    throw ...]; the result is [fromArray(arr.reverse())]. *)
Definition reverse (fuel : nat) (max : option Z) : M W (Result (SeqObj T)) :=
  let max := match max with Some m => m | None => default_max end in
  it <- fresh (iterator iterable) ;;
  r <- forOf fuel
         (fun '(arr, count) val =>
            let arr := arr ++ [val] in
            let count := (count + 1)%Z in
            if (count >? max)%Z
            then Throws (mkError "Cannot reverse an unbounded or very large sequence")
            else Normal (arr, count))
         it ([], 0%Z) ;;
  ret (attempt (match r with
                | Normal (arr, _) => Normal (fromArrayObj (rev arr))
                | Throws e => Throws e
                end)).

(** Module-level [toArray(seq, max?)], with [max ?? 10_000]. *)
Definition toArray (fuel : nat) (max : option Z) : M W (Result (list T)) :=
  it <- fresh (iterator iterable) ;;
  r <- forOf fuel
         (fun '(arr, count) value =>
            let arr := arr ++ [value] in
            let count := (count + 1)%Z in
            if (count >? match max with Some m => m | None => default_max end)%Z
            then Throws (mkError "Cannot convert an unbounded or very large sequence")
            else Normal (arr, count))
         it ([], 0%Z) ;;
  ret (attempt (match r with
                | Normal (arr, _) => Normal arr
                | Throws e => Throws e
                end)).

End Aggregates.

End Seq.
Import Seq.

(** ** src/monads/option.ts: the combinators *)

Module OptionFns.

(** [flatMap(fn)(option)]: [isSome(option) ? fn(option.value) : none];
    [fn] is any callback, so its call is a completion. *)
Definition flatMap {T U : Type} (fn : T -> Completion (Option U)) (option : Option T)
  : Completion (Option U) :=
  match option with
  | SOME value => fn value
  | NONE => Normal none
  end.

(** [map(fn)]: [flatMap(value => optional(fn(value)))]. *)
Definition map {T U : Type} `{Nilable U} (fn : T -> U) : Option T -> Completion (Option U) :=
  flatMap (fun value => Normal (optional (Some (fn value)))).

(** [getOrElse(defaultValue)(option)]. *)
Definition getOrElse {T : Type} (defaultValue : T) (option : Option T) : T :=
  if isNone option then defaultValue
  else match option with SOME v => v | NONE => defaultValue end.

(** [unwrap(option, message?)]: throws on [none]. *)
Definition unwrap {T : Type} (option : Option T) (message : Datatypes.option string)
  : Completion T :=
  match option with
  | NONE => Throws (mkError (match message with
                             | Some m => m
                             | None => "Cannot unwrap None"
                             end))
  | SOME v => Normal v
  end.

(** [filter(predicate)]: [flatMap(s => predicate(s) ? some(s) : none)]. *)
Definition filter {T : Type} `{Nilable T} (predicate : T -> bool)
  : Option T -> Completion (Option T) :=
  flatMap (fun s => if predicate s then some s else Normal none).

(** [flatten(option)]: [flatMap(id)(option)]. *)
Definition flatten {T : Type} (option : Option (Option T)) : Completion (Option T) :=
  flatMap (fun o => Normal o) option.

(** [options.filter(isSome).map(option => unwrap(option))]: the first
    [unwrap] that throws ends the [map]. *)
Fixpoint compact_map {T : Type} (options : list (Option T)) : Completion (list T) :=
  match options with
  | [] => Normal []
  | option :: rest =>
      match unwrap option None with
      | Throws e => Throws e
      | Normal v =>
          match compact_map rest with
          | Throws e => Throws e
          | Normal vs => Normal (v :: vs)
          end
      end
  end.

Definition compact {T : Type} (options : list (Option T)) : Completion (list T) :=
  compact_map (List.filter isSome options).

End OptionFns.

(** ** src/seq.ts: the other methods and generators *)

Module SeqFns.

(** [for (const v of seq) body], where the body updates [acc] or returns
    from the enclosing method: the result is [inl acc] at the end of the
    sequence and [inr r] after [return r]. *)
Fixpoint forOfReturn {W T A R : Type} (seq : Seq W T) (fuel : nat) (body : A -> T -> A + R)
  (it : Z) (acc : A) : M W (A + R) :=
  match fuel with
  | O => diverge
  | S fuel' =>
      '(n, it') <- next (iterator seq) it ;;
      match n with
      | Done => ret (inl acc)
      | Yield v =>
          match body acc v with
          | inl acc' => forOfReturn seq fuel' body it' acc'
          | inr r => ret (inr r)
          end
      end
  end.

(** A loop whose body never returns. *)
Definition forEachAcc {W T A : Type} (seq : Seq W T) (fuel : nat) (body : A -> T -> A) (acc : A)
  : M W A :=
  it <- fresh (iterator seq) ;;
  r <- forOfReturn seq fuel (fun acc v => @inl A Empty_set (body acc v)) it acc ;;
  match r with
  | inl acc' => ret acc'
  | inr e => match e with end
  end.

Section Methods.
Context {W T : Type} `{Nilable T}.
Variable iterable : Seq W T.

(** [map(fn)]: the cursor is the iterator [it] and the counter [i]. *)
Definition map_source {U : Type} (fn : T -> Z -> U) : Source W (Z * Z) U :=
  {| fresh := it <- fresh (iterator iterable) ;; ret (it, 0%Z);
     next := fun '(it, i) =>
       '(n, it') <- next (iterator iterable) it ;;
       match n with
       | Done => ret (Done, (it', i))
       | Yield v => ret (Yield (fn v i), (it', (i + 1)%Z))
       end |}.

Definition map {U : Type} `{Nilable U} (fn : T -> Z -> U) : Seq (list U * W) U :=
  create (map_source fn).

(** The [while (true)] of [filter]'s [next()]. *)
Fixpoint filter_next (fuel : nat) (fn : T -> bool) (it : Z) : M W (IteratorResult T * Z) :=
  match fuel with
  | O => diverge
  | S fuel' =>
      '(n, it') <- next (iterator iterable) it ;;
      match n with
      | Done => ret (Done, it')
      | Yield v => if fn v then ret (Yield v, it') else filter_next fuel' fn it'
      end
  end.

Definition filter_source (fuel : nat) (fn : T -> bool) : Source W Z T :=
  {| fresh := fresh (iterator iterable);
     next := filter_next fuel fn |}.

Definition filter (fuel : nat) (fn : T -> bool) : Seq (list T * W) T :=
  create (filter_source fuel fn).

(** [reduce(fn, init)]. *)
Definition reduce {U : Type} (fuel : nat) (fn : U -> T -> U) (init : U) : M W U :=
  forEachAcc iterable fuel fn init.

(** [find(fn)]: [for (const v of this) if (fn(v)) return some(v); return
    none]. *)
Definition find (fuel : nat) (fn : T -> bool) : M W (Completion (Option T)) :=
  it <- fresh (iterator iterable) ;;
  r <- forOfReturn iterable fuel
         (fun (_ : unit) v => if fn v then inr (Option.some v) else inl tt) it tt ;;
  match r with
  | inr c => ret c
  | inl _ => ret (Normal Option.none)
  end.

(** [isEmpty()]: [isNone(iterable.get(0))]. *)
Definition isEmpty : M W bool :=
  o <- get iterable 0%Z ;; ret (isNone o).

(** [lengthUnsafe()]. *)
Definition lengthUnsafe (fuel : nat) : M W Z :=
  forEachAcc iterable fuel (fun c _ => (c + 1)%Z) 0%Z.

(** [append(v)]: the cursor is the iterator and the flag [pushed]. *)
Definition append_source (v : T) : Source W (Z * bool) T :=
  {| fresh := it <- fresh (iterator iterable) ;; ret (it, false);
     next := fun '(it, pushed) =>
       '(n, it') <- next (iterator iterable) it ;;
       match n with
       | Yield x => ret (Yield x, (it', pushed))
       | Done =>
           if negb pushed then ret (Yield v, (it', true))
           else ret (Done, (it', pushed))
       end |}.

Definition append (v : T) : Seq (list T * W) T := create (append_source v).

(** [prepend(v)]: the cursor is the iterator and the flag [atFront]. *)
Definition prepend_source (v : T) : Source W (Z * bool) T :=
  {| fresh := it <- fresh (iterator iterable) ;; ret (it, true);
     next := fun '(it, atFront) =>
       if (atFront : bool) then ret (Yield v, (it, false))
       else
         '(n, it') <- next (iterator iterable) it ;;
         ret (n, (it', atFront)) |}.

Definition prepend (v : T) : Seq (list T * W) T := create (prepend_source v).

(** [scan(fn, initial)]: the cursor is the iterator and [acc]. *)
Definition scan_source {U : Type} (fn : U -> T -> U) (initial : U) : Source W (Z * U) U :=
  {| fresh := it <- fresh (iterator iterable) ;; ret (it, initial);
     next := fun '(it, acc) =>
       '(n, it') <- next (iterator iterable) it ;;
       match n with
       | Done => ret (Done, (it', acc))
       | Yield v => let acc := fn acc v in ret (Yield acc, (it', acc))
       end |}.

Definition scan {U : Type} `{Nilable U} (fn : U -> T -> U) (initial : U) : Seq (list U * W) U :=
  create (scan_source fn initial).

(** [partition(predicate)]: [[fromArray(pass), fromArray(fail)]]. *)
Definition partition (fuel : nat) (predicate : T -> bool) : M W (SeqObj T * SeqObj T) :=
  r <- forEachAcc iterable fuel
         (fun '(pass, fail) value =>
            if predicate value then (pass ++ [value], fail) else (pass, fail ++ [value]))
         ([], []) ;;
  ret (fromArrayObj (fst r), fromArrayObj (snd r)).

(** [last()]: [let last = none; for (...) last = some(value); return
    last]; [some] may throw. *)
Definition last (fuel : nat) : M W (Completion (Option T)) :=
  it <- fresh (iterator iterable) ;;
  r <- forOfReturn iterable fuel
         (fun (_ : Option T) value =>
            match Option.some value with
            | Normal o => inl o
            | Throws e => inr e
            end) it Option.none ;;
  match r with
  | inl last => ret (Normal last)
  | inr e => ret (Throws e)
  end.

(** [reverseUnsafe()]. *)
Definition reverseUnsafe (fuel : nat) : M W (SeqObj T) :=
  arr <- forEachAcc iterable fuel (fun arr val => arr ++ [val]) [] ;;
  ret (fromArrayObj (rev arr)).

(** [count(fn?)]: [if (!fn || fn(value)) count++]. *)
Definition count (fuel : nat) (fn : option (T -> bool)) : M W Z :=
  forEachAcc iterable fuel
    (fun count value =>
       if match fn with None => true | Some fn => fn value end
       then (count + 1)%Z else count) 0%Z.

(** [insertAt(index, value)]: the cursor is the iterator, [i] and
    [inserted]. *)
Definition insertAt_source (index : Z) (value : T) : Source W (Z * Z * bool) T :=
  {| fresh := it <- fresh (iterator iterable) ;; ret (it, 0%Z, false);
     next := fun '(it, i, inserted) =>
       if (i =? index)%Z && negb inserted then ret (Yield value, (it, i, true))
       else
         '(n, it') <- next (iterator iterable) it ;;
         match n with
         | Done => ret (Done, (it', i, inserted))
         | Yield v => ret (Yield v, (it', (i + 1)%Z, inserted))
         end |}.

Definition insertAt (index : Z) (value : T) : Seq (list T * W) T :=
  create (insertAt_source index value).

(** The [while (true)] of [removeAt]'s [next()]: [if (i++ === index)
    continue]. *)
Fixpoint removeAt_next (fuel : nat) (index : Z) (it i : Z) : M W (IteratorResult T * (Z * Z)) :=
  match fuel with
  | O => diverge
  | S fuel' =>
      '(n, it') <- next (iterator iterable) it ;;
      match n with
      | Done => ret (Done, (it', i))
      | Yield v =>
          if (i =? index)%Z then removeAt_next fuel' index it' (i + 1)%Z
          else ret (Yield v, (it', (i + 1)%Z))
      end
  end.

Definition removeAt_source (fuel : nat) (index : Z) : Source W (Z * Z) T :=
  {| fresh := it <- fresh (iterator iterable) ;; ret (it, 0%Z);
     next := fun '(it, i) => removeAt_next fuel index it i |}.

Definition removeAt (fuel : nat) (index : Z) : Seq (list T * W) T :=
  create (removeAt_source fuel index).

(** [replaceAt(index, newValue)]. *)
Definition replaceAt_source (index : Z) (newValue : T) : Source W (Z * Z) T :=
  {| fresh := it <- fresh (iterator iterable) ;; ret (it, 0%Z);
     next := fun '(it, i) =>
       '(n, it') <- next (iterator iterable) it ;;
       match n with
       | Done => ret (Done, (it', i))
       | Yield v =>
           let val := if (i =? index)%Z then newValue else v in
           ret (Yield val, (it', (i + 1)%Z))
       end |}.

Definition replaceAt (index : Z) (newValue : T) : Seq (list T * W) T :=
  create (replaceAt_source index newValue).

(** [some(fn)], [every(fn)] and [none(fn)]. *)
Definition some (fuel : nat) (fn : T -> bool) : M W bool :=
  it <- fresh (iterator iterable) ;;
  r <- forOfReturn iterable fuel (fun (_ : unit) v => if fn v then inr true else inl tt) it tt ;;
  match r with
  | inr b => ret b
  | inl _ => ret false
  end.

Definition every (fuel : nat) (fn : T -> bool) : M W bool :=
  it <- fresh (iterator iterable) ;;
  r <- forOfReturn iterable fuel
         (fun (_ : unit) v => if negb (fn v) then inr false else inl tt) it tt ;;
  match r with
  | inr b => ret b
  | inl _ => ret true
  end.

Definition none (fuel : nat) (fn : T -> bool) : M W bool :=
  it <- fresh (iterator iterable) ;;
  r <- forOfReturn iterable fuel (fun (_ : unit) v => if fn v then inr false else inl tt) it tt ;;
  match r with
  | inr b => ret b
  | inl _ => ret true
  end.

End Methods.

(** [unfold(fn)(seed)]: the cursor is [state], first [fn(seed)]; [fn] is a
    total callback. *)
Definition unfold_source {T U : Type} (fn : U -> Option (T * U)) (seed : U)
  : Source unit (Option (T * U)) T :=
  {| fresh := ret (fn seed);
     next := fun state =>
       if isNone state then ret (Done, state)
       else match state with
            | SOME (value, newState) => ret (Yield value, fn newState)
            | NONE => ret (Done, state)
            end |}.

Definition unfold {T U : Type} `{Nilable T} (fn : U -> Option (T * U)) (seed : U)
  : Seq (list T * unit) T :=
  create (unfold_source fn seed).

(** The callback of [range(start, end)]: [if (state >= end) return none;
    return some([state, state + 1])].  [end] may be [Infinity] ([None]); a
    tuple is never nil, so this [some] does not throw.  The numbers are
    integers that [+ 1] keeps exact. *)
Definition range_step (end_ : option Z) (state : Z) : Option (Z * Z) :=
  if match end_ with Some e => (state >=? e)%Z | None => false end then Option.none
  else SOME (state, (state + 1)%Z).

Definition range (start : Z) (end_ : option Z) : Seq (list Z * unit) Z :=
  unfold (range_step end_) start.

(** [enumerate(seq)]: [range(0, Infinity).zip(seq)]. *)
Definition enumerate {W T : Type} `{Nilable T} (seq : Seq W T)
  : Seq (list (Z * T) * ((list Z * unit) * W)) (Z * T) :=
  zip (range 0%Z None) seq.

(** [repeat(value, times)]: [range(0, times).map(() => value)]. *)
Definition repeat {T : Type} `{Nilable T} (value : T) (times : option Z)
  : Seq (list T * (list Z * unit)) T :=
  map (range 0%Z times) (fun _ _ => value).

(** The callback of [cycle(values)]: [flatMap(v => some([v, (state + 1) %
    values.length]))(optional(values[state]))], or [none] for an empty
    array. *)
Definition cycle_step {T : Type} `{Nilable T} (values : list T) (state : Z) : Option (T * Z) :=
  if (Z.of_nat (List.length values) =? 0)%Z then Option.none
  else match optional (index values state) with
       | SOME v => SOME (v, Z.rem (state + 1) (Z.of_nat (List.length values)))
       | NONE => Option.none
       end.

Definition cycle {T : Type} `{Nilable T} (values : list T) : Seq (list T * unit) T :=
  unfold (cycle_step values) 0%Z.

(** [cycleN(values, n)]: [range(0, values.length * n).map(i => values[i %
    values.length])]; [undefined] stands for the result of a read outside
    the array. *)
Definition cycleN {T : Type} `{Nilable T} (undefined : T) (values : list T) (n : Z)
  : Seq (list T * (list Z * unit)) T :=
  map (range 0%Z (Some (Z.of_nat (List.length values) * n)%Z))
      (fun i _ =>
         match index values (Z.rem i (Z.of_nat (List.length values))) with
         | Some v => v
         | None => undefined
         end).

Section Keyed.
Context {W T K : Type} `{Nilable T}.
Variable seq : Seq W T.

(** The [while (true)] of [distinctBy(fn)]'s [next()]; the [Set] [seen] is
    the list of its keys and [same] is the equality of its keys. *)
Fixpoint distinctBy_next (fuel : nat) (same : K -> K -> bool) (fn : T -> K) (it : Z)
  (seen : list K) : M W (IteratorResult T * (Z * list K)) :=
  match fuel with
  | O => diverge
  | S fuel' =>
      '(nxt, it') <- next (iterator seq) it ;;
      match nxt with
      | Done => ret (Done, (it', seen))
      | Yield v =>
          let key := fn v in
          if negb (existsb (same key) seen) then ret (Yield v, (it', seen ++ [key]))
          else distinctBy_next fuel' same fn it' seen
      end
  end.

Definition distinctBy_source (fuel : nat) (same : K -> K -> bool) (fn : T -> K)
  : Source W (Z * list K) T :=
  {| fresh := it <- fresh (iterator seq) ;; ret (it, []);
     next := fun '(it, seen) => distinctBy_next fuel same fn it seen |}.

Definition distinctBy (fuel : nat) (same : K -> K -> bool) (fn : T -> K) : Seq (list T * W) T :=
  create (distinctBy_source fuel same fn).

(** The [while (true)] of [distinct()]'s [next()], with a [Set] of the
    values themselves. *)
Fixpoint distinct_next (fuel : nat) (same : T -> T -> bool) (it : Z) (seen : list T)
  : M W (IteratorResult T * (Z * list T)) :=
  match fuel with
  | O => diverge
  | S fuel' =>
      '(n, it') <- next (iterator seq) it ;;
      match n with
      | Done => ret (Done, (it', seen))
      | Yield v =>
          if negb (existsb (same v) seen) then ret (Yield v, (it', seen ++ [v]))
          else distinct_next fuel' same it' seen
      end
  end.

Definition distinct_source (fuel : nat) (same : T -> T -> bool) : Source W (Z * list T) T :=
  {| fresh := it <- fresh (iterator seq) ;; ret (it, []);
     next := fun '(it, seen) => distinct_next fuel same it seen |}.

Definition distinct (fuel : nat) (same : T -> T -> bool) : Seq (list T * W) T :=
  create (distinct_source fuel same).

(** [intersperse(sep)(seq)]: the cursor is the iterator, [first], [pending]
    and [nextVal], which is [undefined] until it is assigned. *)
Definition intersperse_source (undefined : T) (sep : T) : Source W (Z * bool * bool * T) T :=
  {| fresh := it <- fresh (iterator seq) ;; ret (it, true, false, undefined);
     next := fun '(it, first, pending, nextVal) =>
       if (pending : bool) then ret (Yield nextVal, (it, first, false, nextVal))
       else
         '(n, it') <- next (iterator seq) it ;;
         match n with
         | Done => ret (Done, (it', first, pending, nextVal))
         | Yield value =>
             if (first : bool) then ret (Yield value, (it', false, pending, nextVal))
             else ret (Yield sep, (it', first, true, value))
         end |}.

Definition intersperse (undefined : T) (sep : T) : Seq (list T * W) T :=
  create (intersperse_source undefined sep).

(** [pairwise(seq)]: the factory pulls the first element at once; the
    cursor is the iterator and [prev]. *)
Definition pairwise_source : Source W (Z * IteratorResult T) (T * T) :=
  {| fresh :=
       it <- fresh (iterator seq) ;;
       '(prev, it') <- next (iterator seq) it ;;
       ret (it', prev);
     next := fun '(it, prev) =>
       match prev with
       | Done => ret (Done, (it, prev))
       | Yield p =>
           '(curr, it') <- next (iterator seq) it ;;
           match curr with
           | Done => ret (Done, (it', prev))
           | Yield c => ret (Yield (p, c), (it', Yield c))
           end
       end |}.

Definition pairwise : Seq (list (T * T) * W) (T * T) := create pairwise_source.

End Keyed.

Section Affixes.
Context {Wa Wb T : Type} `{Nilable T}.
Variable iterable : Seq Wa T.
Variable other : Seq Wb T.

(** [a === b] on elements. *)
Variable same : T -> T -> bool.

(** The [while (true)] of [startsWith(prefix)]: both iterators are pulled,
    then [b.done] is tested first. *)
Fixpoint startsWith_loop (fuel : nat) (it1 it2 : Z) : M (Wa * Wb) bool :=
  match fuel with
  | O => diverge
  | S fuel' =>
      '(a, it1') <- onFst (next (iterator iterable) it1) ;;
      '(b, it2') <- onSnd (next (iterator other) it2) ;;
      match b with
      | Done => ret true
      | Yield y =>
          match a with
          | Done => ret false
          | Yield x => if negb (same x y) then ret false
                       else startsWith_loop fuel' it1' it2'
          end
      end
  end.

Definition startsWith (fuel : nat) : M (Wa * Wb) bool :=
  it1 <- onFst (fresh (iterator iterable)) ;;
  it2 <- onSnd (fresh (iterator other)) ;;
  startsWith_loop fuel it1 it2.

(** [arr.every((val, i) => fn(val, i))], counting from [i]. *)
Fixpoint every_from (fn : T -> Z -> bool) (i : Z) (arr : list T) : bool :=
  match arr with
  | [] => true
  | val :: rest => if fn val i then every_from fn (i + 1)%Z rest else false
  end.

(** [endsWith(suffix)]: both sequences are spread first; a read outside
    [full] is [undefined], which no element of [end] equals. *)
Definition endsWith (fuel : nat) : M (Wa * Wb) bool :=
  full <- onFst (toArrayUnsafe fuel iterable) ;;
  end_ <- onSnd (toArrayUnsafe fuel other) ;;
  if (Z.of_nat (List.length end_) >? Z.of_nat (List.length full))%Z then ret false
  else
    let offset := (Z.of_nat (List.length full) - Z.of_nat (List.length end_))%Z in
    ret (every_from
           (fun val i => match index full (offset + i) with
                         | Some x => same val x
                         | None => false
                         end) 0%Z end_).

End Affixes.

End SeqFns.

(** ** src/seq.ts: sources that throw

    [source()] and [it.next()] are calls of the user's code and may
    throw.  The exception leaves [get], the iterator and the [for ... of]
    of a walk, and [attempt] catches it.  Here a call returns a
    completion; the store after a throw is the store at the throw (what
    [cache.push] has added stays). *)

Module Throwing.

Record ThrowingSource (W C T : Type) : Type := mkThrowingSource {
  freshT : M W (Completion C);
  nextT : C -> M W (Completion (IteratorResult T * C))
}.

(** A sequence object whose [get] may throw. *)
Record ThrowingSeq (W T : Type) : Type := mkThrowingSeq {
  getT : Z -> M W (Completion (Option T))
}.

Section CreateT.
Context {W C T : Type} `{Nilable T}.
Variable source : ThrowingSource W C T.

(** [for (let i = 0; i < cache.length; i++) it.next();] *)
Fixpoint fastForwardT (n : nat) (it : C) : M W (Completion C) :=
  match n with
  | O => ret (Normal it)
  | S n' =>
      r <- nextT source it ;;
      match r with
      | Throws e => ret (Throws e)
      | Normal (_, it') => fastForwardT n' it'
      end
  end.

(** [while (cache.length <= idx) { const n = it.next(); if (n.done)
    return none; cache.push(n.value); } return optional(cache[idx]);] *)
Fixpoint fillT (fuel : nat) (idx : Z) (it : C) (cache : list T)
  : M W (Completion (Option T) * list T) :=
  if (Z.of_nat (List.length cache) <=? idx)%Z then
    match fuel with
    | O => diverge
    | S fuel' =>
        r <- nextT source it ;;
        match r with
        | Throws e => ret (Throws e, cache)
        | Normal (Done, _) => ret (Normal none, cache)
        | Normal (Yield v, it') => fillT fuel' idx it' (cache ++ [v])
        end
    end
  else ret (Normal (optional (index cache idx)), cache).

(** [get(idx)] of the object [create] returns. *)
Definition createT_get (idx : Z) : M (list T * W) (Completion (Option T)) :=
  fun '(cache, w) =>
    if (idx <? Z.of_nat (List.length cache))%Z
    then Some (Normal (optional (index cache idx)), (cache, w))
    else
      match freshT source w with
      | None => None
      | Some (Throws e, w0) => Some (Throws e, (cache, w0))
      | Some (Normal it, w0) =>
          match fastForwardT (List.length cache) it w0 with
          | None => None
          | Some (Throws e, w1) => Some (Throws e, (cache, w1))
          | Some (Normal it1, w1) =>
              match fillT (Z.to_nat (idx + 1 - Z.of_nat (List.length cache))) idx it1 cache w1 with
              | Some ((o, cache'), w2) => Some (o, (cache', w2))
              | None => None
              end
          end
      end.

Definition createT : ThrowingSeq (list T * W) T := {| getT := createT_get |}.

End CreateT.

Section WalksT.
Context {W T : Type} `{Nilable T}.
Variable iterable : ThrowingSeq W T.

(** [next()] of [iterable[Symbol.iterator]()]: [iterable.get(i++)] and the
    [fold] of its result. *)
Definition iterator_nextT (i : Z) : M W (Completion (IteratorResult T * Z)) :=
  o <- getT iterable i ;;
  match o with
  | Throws e => ret (Throws e)
  | Normal o => ret (Normal (fold (fun v => Yield v) Done o, (i + 1)%Z))
  end.

(** [for (const v of iterable) body]: a throw of [next()] or of the body
    leaves the loop. *)
Fixpoint forOfT {A : Type} (fuel : nat) (body : A -> T -> Completion A) (it : Z) (acc : A)
  : M W (Completion A) :=
  match fuel with
  | O => diverge
  | S fuel' =>
      r <- iterator_nextT it ;;
      match r with
      | Throws e => ret (Throws e)
      | Normal (Done, _) => ret (Normal acc)
      | Normal (Yield v, it') =>
          match body acc v with
          | Normal acc' => forOfT fuel' body it' acc'
          | Throws e => ret (Throws e)
          end
      end
  end.

(** [length(max = 10_000)]. *)
Definition lengthT (fuel : nat) (max : option Z) : M W (Result Z) :=
  let max := match max with Some m => m | None => default_max end in
  r <- forOfT fuel
         (fun c _ => let c := (c + 1)%Z in
                     if (c >? max)%Z then Throws (mkError "Too large") else Normal c)
         0%Z 0%Z ;;
  ret (attempt r).

(** [reverse(max = 10_000)]. *)
Definition reverseT (fuel : nat) (max : option Z) : M W (Result (SeqObj T)) :=
  let max := match max with Some m => m | None => default_max end in
  r <- forOfT fuel
         (fun '(arr, count) val =>
            let arr := arr ++ [val] in
            let count := (count + 1)%Z in
            if (count >? max)%Z
            then Throws (mkError "Cannot reverse an unbounded or very large sequence")
            else Normal (arr, count))
         0%Z ([], 0%Z) ;;
  ret (attempt (match r with
                | Normal (arr, _) => Normal (fromArrayObj (rev arr))
                | Throws e => Throws e
                end)).

(** Module-level [toArray(seq, max?)], with [max ?? 10_000]. *)
Definition toArrayT (fuel : nat) (max : option Z) : M W (Result (list T)) :=
  r <- forOfT fuel
         (fun '(arr, count) value =>
            let arr := arr ++ [value] in
            let count := (count + 1)%Z in
            if (count >? match max with Some m => m | None => default_max end)%Z
            then Throws (mkError "Cannot convert an unbounded or very large sequence")
            else Normal (arr, count))
         0%Z ([], 0%Z) ;;
  ret (attempt (match r with
                | Normal (arr, _) => Normal arr
                | Throws e => Throws e
                end)).

End WalksT.

End Throwing.
Import Throwing.

(** * Specifications

    A source is specified by the stream [r] its cursors produce, a
    sequence object by the function [g] that [get] computes.  [Inv] is the
    invariant of the store, [At c p] says that the cursor [c] has been
    pulled [p] times, and [dom] bounds the positions a client may ask for
    (it lets an invariant speak of the positions that were evaluated). *)

Definition downward (dom : nat -> Prop) : Prop :=
  forall p q, q <= p -> dom p -> dom q.

Definition allowed (dom : nat -> Prop) (idx : Z) : Prop :=
  (idx < 0)%Z \/ dom (Z.to_nat idx).

Definition everywhere : nat -> Prop := fun _ => True.

Record SourceSpec {W C T : Type} (src : Source W C T) (dom : nat -> Prop)
  (Inv : W -> Prop) (At : C -> nat -> Prop) (r : nat -> IteratorResult T) : Prop := {
  spec_fresh : forall w, Inv w ->
    exists c w', fresh src w = Some (c, w') /\ At c 0 /\ Inv w';
  spec_next : forall c p w, Inv w -> At c p -> dom p ->
    (forall j, j < p -> r j <> Done) ->
    exists c' w', next src c w = Some (r p, c', w') /\ At c' (S p) /\ Inv w'
}.

Record SeqSpec {W T : Type} `{Nilable T} (s : Seq W T) (dom : nat -> Prop)
  (Inv : W -> Prop) (g : Z -> Option T) : Prop := {
  spec_get : forall idx w, Inv w -> allowed dom idx ->
    exists w', get s idx w = Some (g idx, w') /\ Inv w';
  spec_notnil : forall idx v, g idx = SOME v -> isNil v = false;
  spec_neg : forall idx, (idx < 0)%Z -> g idx = NONE
}.

Arguments spec_fresh {W C T src dom Inv At r} _ w _.
Arguments spec_next {W C T src dom Inv At r} _ c p w _ _ _ _.
Arguments spec_get {W T _ s dom Inv g} _ idx w _ _.
Arguments spec_notnil {W T _ s dom Inv g} _ idx v _.
Arguments spec_neg {W T _ s dom Inv g} _ idx _.

Definition isYield {T : Type} (x : IteratorResult T) : bool :=
  match x with Yield _ => true | Done => false end.

(** The first [n] results of the stream are all values. *)
Definition yields {T : Type} (r : nat -> IteratorResult T) (n : nat) : bool :=
  forallb (fun j => isYield (r j)) (seq 0 n).

(** What [get] of [create(source)] computes when the cursors of [source]
    produce [r]. *)
Definition denote {T : Type} `{Nilable T} (r : nat -> IteratorResult T) (idx : Z) : Option T :=
  if (idx <? 0)%Z then NONE
  else if yields r (S (Z.to_nat idx)) then
    match r (Z.to_nat idx) with
    | Yield v => optional (Some v)
    | Done => NONE
    end
  else NONE.

(** What the iterator of a sequence produces when its [get] computes [g]. *)
Definition iteration {T : Type} (g : Z -> Option T) (p : nat) : IteratorResult T :=
  fold (fun v => Yield v) Done (g (Z.of_nat p)).

(** The cache holds the first results of the stream, all within [dom]. *)
Definition CacheInv {W T : Type} (dom : nat -> Prop) (Inv : W -> Prop)
  (r : nat -> IteratorResult T) (st : list T * W) : Prop :=
  Inv (snd st) /\
  forall j v, nth_error (fst st) j = Some v -> r j = Yield v /\ dom j.

(** The stream [r] is the finite list [l]. *)
Definition Enum {T : Type} (r : nat -> IteratorResult T) (l : list T) : Prop :=
  (forall p v, nth_error l p = Some v -> r p = Yield v) /\ r (List.length l) = Done.

(** Iterating a sequence whose [get] computes [g] gives the list [l]. *)
Definition Enumerates {T : Type} (g : Z -> Option T) (l : list T) : Prop :=
  Enum (iteration g) l.

(** The stream of an array. *)
Definition ofList {T : Type} (l : list T) (p : nat) : IteratorResult T :=
  match nth_error l p with Some v => Yield v | None => Done end.

(** The elements of an array that iteration reaches: those before the
    first [null] or [undefined]. *)
Fixpoint visible {T : Type} `{Nilable T} (l : list T) : list T :=
  match l with
  | [] => []
  | v :: l' => if isNil v then [] else v :: visible l'
  end.

(** The cache holds the first results of the stream [r]. *)
Definition Cached {T : Type} (r : nat -> IteratorResult T) (cache : list T) : Prop :=
  forall j v, nth_error cache j = Some v -> r j = Yield v.

(** The object [s] in the state [st] answers every [get(i)], now and after
    any further calls, with [g i]. *)
Definition Behaves {W T : Type} `{Nilable T} (s : Seq W T) (st : W) (g : Z -> Option T) : Prop :=
  exists Inv : W -> Prop, Inv st /\ SeqSpec s everywhere Inv g.

(** The streams of the cursors of [take] and [drop]. *)
Definition take_stream {T : Type} (g : Z -> Option T) (m : Z) (p : nat) : IteratorResult T :=
  if (Z.of_nat p >=? m)%Z then Done else iteration g p.

Definition drop_stream {T : Type} (g : Z -> Option T) (n : Z) (p : nat) : IteratorResult T :=
  fold (fun v => Yield v) Done (g (n + Z.of_nat p)%Z).

(** What [get] of [drop(start).take(count)] computes over a sequence whose
    [get] computes [g]: the elements [g start], [g (start + 1)], ... up to
    the first absent one, at most [count] of them. *)
Definition drop_take {T : Type} `{Nilable T} (g : Z -> Option T) (start count : Z)
  : Z -> Option T :=
  denote (take_stream (denote (drop_stream g start)) (Z.max 0 count)).

(** A [for ... of] body run over a list. *)
Fixpoint runBody {A T : Type} (body : A -> T -> Completion A) (l : list T) (acc : A)
  : Completion A :=
  match l with
  | [] => Normal acc
  | v :: l' =>
      match body acc v with
      | Normal acc' => runBody body l' acc'
      | Throws e => Throws e
      end
  end.

(** The iteration of the sequence starts with the list [l]. *)
Definition Prefix {T : Type} (g : Z -> Option T) (l : list T) : Prop :=
  forall p v, nth_error l p = Some v -> iteration g p = Yield v.

(** The cap of a bounded operation: [max = 10_000] by default. *)
Definition cap (max : option Z) : Z :=
  match max with Some m => m | None => default_max end.

(** The outcome of a capped walk over the elements [l] that computes
    [value]. *)
Definition capped {A T : Type} (max : option Z) (e : Error) (l : list T) (value : A)
  : Completion A :=
  match l with
  | [] => Normal value
  | _ => if (Z.of_nat (List.length l) >? cap max)%Z then Throws e else Normal value
  end.

(** The stream of a cursor of [zip]. *)
Definition zip_stream {T U : Type} (ga : Z -> Option T) (gb : Z -> Option U) (p : nat)
  : IteratorResult (T * U) :=
  match iteration ga p, iteration gb p with
  | Yield x, Yield y => Yield (x, y)
  | _, _ => Done
  end.

(** [sliceBy] in the words of the specification: the source is split at
    every element where [pred] holds and that element is dropped, so a
    slice is closed by a boundary (be the slice empty or not) or by the end
    of a source that still holds elements after its last boundary. *)
Fixpoint sliceBy_spec {T : Type} (pred : T -> bool) (l : list T) (slice : list T)
  : list (list T) :=
  match l with
  | [] => match slice with [] => [] | _ => [slice] end
  | v :: l' =>
      if pred v then slice :: sliceBy_spec pred l' []
      else sliceBy_spec pred l' (slice ++ [v])
  end.

(** One run of the inner loop of [sliceBy] over the rest of the source:
    whether the source ended, the bucket, and what is left. *)
Fixpoint scan {T : Type} (fn : T -> bool) (rest bucket : list T) : bool * list T * list T :=
  match rest with
  | [] => (true, bucket, [])
  | v :: r => if fn v then (false, bucket, r) else scan fn r (bucket ++ [v])
  end.

(** A sequence object answers with [g], now and later. *)
Definition ObjBehaves {T : Type} `{Nilable T} (o : SeqObj T) (g : Z -> Option T) : Prop :=
  Behaves (handle o) (state o) g.

(** The number of results that come from the first [n] outer elements. *)
Definition base {T U : Type} (f : T -> list U) (l : list T) (n : nat) : nat :=
  List.length (flat_map f (firstn n l)).

(** The cursor of [flatMap] over the outer elements [l], with [f x] the
    elements of [fn(x)], has been pulled [p] times. *)
Definition flatMap_At {T U : Type} `{Nilable U} (l : list T) (f : T -> list U)
  (c : Z * option (SeqObj U * Z)) (p : nat) : Prop :=
  List.length (flat_map f l) < p \/
  (snd c = None /\ fst c = 0%Z /\ p = 0) \/
  (exists n x o jj gx,
     snd c = Some (o, Z.of_nat jj) /\ fst c = Z.of_nat (S n) /\
     nth_error l n = Some x /\ ObjBehaves o gx /\ Enumerates gx (f x) /\
     jj <= List.length (f x) /\ p = base f l n + jj).

(** ** Finite sequences *)

(** [get] computes [g], which holds the list [l] and nothing after it. *)
Definition Exactly {T : Type} (g : Z -> Option T) (l : list T) : Prop :=
  (forall p v, nth_error l p = Some v -> g (Z.of_nat p) = SOME v) /\
  (forall p, List.length l <= p -> g (Z.of_nat p) = NONE).

(** The object [s] in the state [w] is the finite sequence [l]: it answers
    [get(i)] with the element [i] of [l], now and after any further calls. *)
Definition Lists {W T : Type} `{Nilable T} (s : Seq W T) (w : W) (l : list T) : Prop :=
  exists g, Behaves s w g /\ Exactly g l.

(** No element of the list is [null] or [undefined]. *)
Definition notNil {T : Type} `{Nilable T} (l : list T) : Prop :=
  Forall (fun v => isNil v = false) l.

(** [l.map((v, i) => fn(v, i))], counting from [i]. *)
Fixpoint mapi {T U : Type} (fn : T -> Z -> U) (i : Z) (l : list T) : list U :=
  match l with
  | [] => []
  | v :: l' => fn v i :: mapi fn (i + 1)%Z l'
  end.

(** A loop body that may return, run over a list. *)
Fixpoint runReturn {A R T : Type} (body : A -> T -> A + R) (l : list T) (acc : A) : A + R :=
  match l with
  | [] => inl acc
  | v :: l' =>
      match body acc v with
      | inl acc' => runReturn body l' acc'
      | inr r => inr r
      end
  end.

(** [arr[arr.length - 1]], if any. *)
Definition lastOf {T : Type} (l : list T) : Option T :=
  match rev l with
  | [] => NONE
  | v :: _ => SOME v
  end.

(** The running results of a left fold: element [p] is the fold of the
    first [p + 1] elements. *)
Fixpoint running {T U : Type} (fn : U -> T -> U) (acc : U) (l : list T) : list U :=
  match l with
  | [] => []
  | v :: l' => fn acc v :: running fn (fn acc v) l'
  end.

(** The list [l] with [value] put before position [index]; an index outside
    [0 .. length l] changes nothing. *)
Definition insertedAt {T : Type} (index : Z) (value : T) (l : list T) : list T :=
  if ((0 <=? index) && (index <=? Z.of_nat (List.length l)))%Z
  then firstn (Z.to_nat index) l ++ value :: skipn (Z.to_nat index) l
  else l.

(** The list [l] without its element at [index]; an index outside
    [0 .. length l - 1] changes nothing. *)
Definition removedAt {T : Type} (index : Z) (l : list T) : list T :=
  if ((0 <=? index) && (index <? Z.of_nat (List.length l)))%Z
  then firstn (Z.to_nat index) l ++ skipn (S (Z.to_nat index)) l
  else l.

(** The list [l] with [value] in place of its element at [index]. *)
Definition replacedAt {T : Type} (index : Z) (value : T) (l : list T) : list T :=
  if ((0 <=? index) && (index <? Z.of_nat (List.length l)))%Z
  then firstn (Z.to_nat index) l ++ value :: skipn (S (Z.to_nat index)) l
  else l.

(** The list [l] cut into consecutive pieces of [n] elements, the last one
    possibly shorter; [fuel] bounds the number of pieces. *)
Fixpoint chunksOf {T : Type} (fuel n : nat) (l : list T) : list (list T) :=
  match fuel, l with
  | S fuel', _ :: _ => firstn n l :: chunksOf fuel' n (skipn n l)
  | _, _ => []
  end.

(** The [n]-element windows of [l], one starting at each position that has
    [n] elements from it on. *)
Definition windowsOf {T : Type} (n : nat) (l : list T) : list (list T) :=
  List.map (fun p => firstn n (skipn p l)) (seq 0 (List.length l + 1 - n)).

(** The state of a cursor of [unfold(fn)(seed)] after [p] calls of
    [next()], and the stream of results. *)
Fixpoint unfold_state {T U : Type} (fn : U -> Option (T * U)) (seed : U) (p : nat)
  : Option (T * U) :=
  match p with
  | O => fn seed
  | S p' => match unfold_state fn seed p' with
            | SOME (_, s) => fn s
            | NONE => NONE
            end
  end.

Definition unfold_stream {T U : Type} (fn : U -> Option (T * U)) (seed : U) (p : nat)
  : IteratorResult T :=
  match unfold_state fn seed p with
  | SOME (v, _) => Yield v
  | NONE => Done
  end.

(** [Number.isSafeInteger]: the integers on which the arithmetic of
    JavaScript numbers is exact. *)
Definition isSafeInteger (z : Z) : Prop := (- (2 ^ 53 - 1) <= z <= 2 ^ 53 - 1)%Z.

(** The [n] integers from [start] on. *)
Definition rangeList (start : Z) (n : nat) : list Z :=
  List.map (fun i => (start + Z.of_nat i)%Z) (seq 0 n).

(** The elements of [l] whose key is not in [seen] and not the key of an
    earlier element of [l]. *)
Fixpoint dedupBy {T K : Type} (same : K -> K -> bool) (fn : T -> K) (seen : list K)
  (l : list T) : list T :=
  match l with
  | [] => []
  | v :: l' =>
      if existsb (same (fn v)) seen then dedupBy same fn seen l'
      else v :: dedupBy same fn (seen ++ [fn v]) l'
  end.

(** The list [l] with [sep] between every two neighbours. *)
Fixpoint interspersed {T : Type} (sep : T) (l : list T) : list T :=
  match l with
  | [] => []
  | v :: l' => match l' with
               | [] => [v]
               | _ :: _ => v :: sep :: interspersed sep l'
               end
  end.

(** The options that [some] and [optional] build: the payload is not nil. *)
Definition wellFormed {T : Type} `{Nilable T} (o : Option T) : Prop :=
  match o with
  | SOME v => isNil v = false
  | NONE => True
  end.

(** The payloads of the present options of a list. *)
Fixpoint payloads {T : Type} (options : list (Option T)) : list T :=
  match options with
  | [] => []
  | SOME v :: rest => v :: payloads rest
  | NONE :: rest => payloads rest
  end.

(** Whether [xs] begins with [ys], element by element. *)
Fixpoint prefixb {T : Type} (same : T -> T -> bool) (ys xs : list T) : bool :=
  match ys with
  | [] => true
  | y :: ys' =>
      match xs with
      | [] => false
      | x :: xs' => if negb (same x y) then false else prefixb same ys' xs'
      end
  end.

(** A source that never throws, as a throwing source, and the same for a
    sequence object. *)
Definition liftSource {W C T : Type} (src : Source W C T) : ThrowingSource W C T :=
  {| freshT := c <- fresh src ;; ret (Normal c);
     nextT := fun c => r <- next src c ;; ret (Normal r) |}.

Definition liftSeq {W T : Type} (s : Seq W T) : ThrowingSeq W T :=
  {| getT := fun idx => o <- get s idx ;; ret (Normal o) |}.

(** A source that yields the elements of [l] and then throws [e]:
    [next() { if (i < l.length) return { done: false, value: l[i++] };
    throw e }]. *)
Definition throwAfter {T : Type} (l : list T) (e : Error) : ThrowingSource unit nat T :=
  {| freshT := ret (Normal 0);
     nextT := fun i =>
       match nth_error l i with
       | Some v => ret (Normal (Yield v, S i))
       | None => ret (Throws e)
       end |}.

(** * Proofs *)

Unset Implicit Arguments.

Ltac inv H := inversion H; subst; clear H.

Ltac run :=
  repeat (unfold bind, ret, diverge, onFst, onSnd, liftOpt in *;
          cbn [fresh next get fst snd iterator counted fromArray_source take_source
               drop_source zip_source] in * ).

(** ** The model at work *)

Example fromArray_get_example :
  get (fromArray [10; 20; 30]%Z) 1%Z (init tt) = Some (SOME 20%Z, ([10; 20]%Z, tt)).
Proof. reflexivity. Qed.

Example zip_example :
  toArrayUnsafe 4 (zip (fromArray [1; 2; 3]%Z) (fromArray [7; 8; 9]%Z)) (init (init tt, init tt))
  = Some ([(1, 7); (2, 8); (3, 9)]%Z,
          ([(1, 7); (2, 8); (3, 9)]%Z, (([1; 2; 3]%Z, tt), ([7; 8; 9]%Z, tt)))).
Proof. reflexivity. Qed.

(** [naturals.drop(5).take(3)] evaluates the source up to position 7 only. *)
Example drop_take_example :
  toArrayUnsafe 4 (take (drop (fromArray [0; 1; 2; 3; 4; 5; 6; 7; 8]%Z) 5%Z) 3%Z)
    (init (init (init tt)))
  = Some ([5; 6; 7]%Z, ([5; 6; 7]%Z, ([5; 6; 7]%Z, ([0; 1; 2; 3; 4; 5; 6; 7]%Z, tt)))).
Proof. reflexivity. Qed.

Example chunk_example :
  match chunk (fromArray [1; 2; 3; 4; 5]%Z) 2%Z with
  | Normal s =>
      match toArrayUnsafe 4 s (init (init tt)) with
      | Some (chunks, _) => List.map (materialize 4) chunks
      | None => []
      end
  | Throws _ => []
  end = [Some [1; 2]; Some [3; 4]; Some [5]]%Z.
Proof. reflexivity. Qed.

Example window_example :
  match window (fromArray [1; 2; 3; 4; 5]%Z) 3%Z with
  | Normal s =>
      match toArrayUnsafe 4 s (init (init tt)) with
      | Some (windows, _) => List.map (materialize 4) windows
      | None => []
      end
  | Throws _ => []
  end = [Some [1; 2; 3]; Some [2; 3; 4]; Some [3; 4; 5]]%Z.
Proof. reflexivity. Qed.

(** [get(0)] and then [get(1)] over a counting cursor: the second call
    starts a fresh cursor and evaluates position 0 again. *)
Example counted_example :
  (_ <- get (create (counted (fromArray_source [10; 20; 30]%Z))) 0%Z ;;
   get (create (counted (fromArray_source [10; 20; 30]%Z))) 1%Z) (init ([], tt))
  = Some (SOME 20%Z, ([10; 20]%Z, ([0; 0; 1], tt))).
Proof. reflexivity. Qed.

(** ** The engine: what [create] computes *)

Lemma yields_iff (T : Type) (r : nat -> IteratorResult T) (n : nat) :
  yields r n = true <-> (forall j, j < n -> r j <> Done).
Proof.
  unfold yields. rewrite forallb_forall. split.
  - intros Hf j Hj Hd. specialize (Hf j). rewrite in_seq, Hd in Hf.
    assert (isYield (@Done T) = true) by (apply Hf; lia). discriminate.
  - intros Hf j Hj. rewrite in_seq in Hj. specialize (Hf j).
    destruct (r j); [reflexivity | exfalso; apply Hf; [lia | reflexivity]].
Qed.

Lemma yields_false (T : Type) (r : nat -> IteratorResult T) (n j : nat) :
  j < n -> r j = Done -> yields r n = false.
Proof.
  intros Hj Hd. destruct (yields r n) eqn:E; [ | reflexivity].
  rewrite yields_iff in E. exfalso. exact (E j Hj Hd).
Qed.

Lemma index_nat (T : Type) (l : list T) (p : nat) : index l (Z.of_nat p) = nth_error l p.
Proof.
  unfold index. destruct (Z.ltb_spec (Z.of_nat p) 0); [lia | ]. now rewrite Nat2Z.id.
Qed.

Lemma index_neg (T : Type) (l : list T) (i : Z) : (i < 0)%Z -> index l i = None.
Proof. unfold index. intros Hi. destruct (Z.ltb_spec i 0); [reflexivity | lia]. Qed.

Lemma denote_neg (T : Type) `{Nilable T} (r : nat -> IteratorResult T) (idx : Z) :
  (idx < 0)%Z -> denote r idx = NONE.
Proof. unfold denote. intros Hi. destruct (Z.ltb_spec idx 0); [reflexivity | lia]. Qed.

Lemma denote_notnil (T : Type) `{Nilable T} (r : nat -> IteratorResult T) (idx : Z) (v : T) :
  denote r idx = SOME v -> isNil v = false.
Proof.
  unfold denote. destruct (idx <? 0)%Z; [discriminate | ].
  destruct (yields r _); [ | discriminate].
  destruct (r _) as [x | ]; [ | discriminate]. cbn.
  destruct (isNil x) eqn:E; [discriminate | ]. intros Hx. now inv Hx.
Qed.

Lemma denote_done (T : Type) `{Nilable T} (r : nat -> IteratorResult T) (idx : Z) (j : nat) :
  (Z.of_nat j <= idx)%Z -> r j = Done -> denote r idx = NONE.
Proof.
  intros Hj Hd. unfold denote. destruct (idx <? 0)%Z; [reflexivity | ].
  rewrite (yields_false _ r (S (Z.to_nat idx)) j); [reflexivity | lia | exact Hd].
Qed.

Section CreateSpec.
Context {W C T : Type} `{Nilable T}.
Variable src : Source W C T.
Variable dom : nat -> Prop.
Variable Inv : W -> Prop.
Variable At : C -> nat -> Prop.
Variable r : nat -> IteratorResult T.
Hypothesis Hdown : downward dom.
Hypothesis Hsrc : SourceSpec src dom Inv At r.

(** A position that is in the cache is answered from the cache. *)
Lemma cached_denote (cache : list T) (w : W) (idx : Z) :
  CacheInv dom Inv r (cache, w) -> (idx < Z.of_nat (List.length cache))%Z ->
  optional (index cache idx) = denote r idx.
Proof.
  intros [_ Hc] Hlt. cbn in Hc. destruct (Z.ltb_spec idx 0) as [Hneg | Hpos].
  - now rewrite index_neg, denote_neg.
  - unfold denote, index. destruct (Z.ltb_spec idx 0); [lia | ].
    assert (Hn : Z.to_nat idx < List.length cache) by lia.
    destruct (nth_error cache (Z.to_nat idx)) as [v | ] eqn:E.
    2: { apply nth_error_None in E. lia. }
    destruct (Hc _ _ E) as [Hr _]. rewrite Hr.
    replace (yields r (S (Z.to_nat idx))) with true; [reflexivity | ].
    symmetry. apply yields_iff. intros j Hj Hd.
    destruct (nth_error cache j) as [x | ] eqn:Ej.
    + destruct (Hc _ _ Ej) as [Hrj _]. congruence.
    + apply nth_error_None in Ej. lia.
Qed.

Lemma fastForward_spec (n : nat) : forall (p : nat) (c : C) (w : W),
  Inv w -> At c p ->
  (forall j, j < p + n -> r j <> Done /\ dom j) ->
  exists c' w', fastForward src n c w = Some (c', w') /\ At c' (p + n) /\ Inv w'.
Proof.
  induction n as [ | n IH]; intros p c w Hi Ha Hy.
  - exists c, w. rewrite Nat.add_0_r. now split.
  - destruct (spec_next Hsrc c _ w Hi Ha) as (c1 & w1 & E & Ha1 & Hi1).
    + apply Hy. lia.
    + intros j Hj. apply Hy. lia.
    + destruct (IH (S p) c1 w1 Hi1 Ha1) as (c2 & w2 & E2 & Ha2 & Hi2).
      * intros j Hj. apply Hy. lia.
      * exists c2, w2. cbn [fastForward]. run. rewrite E.
        replace (p + S n) with (S p + n) by lia. now split.
Qed.

Lemma fill_spec (idx : Z) (fuel : nat) : forall (cache : list T) (c : C) (w : W),
  CacheInv dom Inv r (cache, w) -> At c (List.length cache) ->
  dom (Z.to_nat idx) ->
  (idx + 1 - Z.of_nat (List.length cache) <= Z.of_nat fuel)%Z ->
  exists cache' w',
    fill src fuel idx c cache w = Some ((denote r idx, cache'), w') /\
    CacheInv dom Inv r (cache', w').
Proof.
  induction fuel as [ | fuel IH]; intros cache c w Hc Ha Hd Hf.
  - cbn [fill]. destruct (Z.leb_spec (Z.of_nat (List.length cache)) idx); [lia | ].
    exists cache, w. run. rewrite (cached_denote _ _ _ Hc) by lia. now split.
  - cbn [fill]. destruct (Z.leb_spec (Z.of_nat (List.length cache)) idx) as [Hle | Hgt].
    + destruct Hc as [Hi Hc]. cbn in Hi, Hc.
      destruct (spec_next Hsrc c _ w Hi Ha) as (c1 & w1 & E & Ha1 & Hi1).
      * apply (Hdown (Z.to_nat idx)); [lia | exact Hd].
      * intros j Hj Hdone. destruct (nth_error cache j) as [x | ] eqn:Ej.
        -- destruct (Hc _ _ Ej). congruence.
        -- apply nth_error_None in Ej. lia.
      * run. rewrite E. destruct (r (List.length cache)) as [v | ] eqn:Er.
        -- destruct (IH (cache ++ [v]) c1 w1) as (cache' & w' & E' & Hc').
           ++ split; [exact Hi1 | ]. cbn. intros j x Hx.
              destruct (Nat.lt_ge_cases j (List.length cache)) as [Hlt | Hge].
              ** rewrite nth_error_app1 in Hx by exact Hlt. now apply Hc.
              ** rewrite nth_error_app2 in Hx by exact Hge.
                 destruct (j - List.length cache) as [ | k] eqn:Ek.
                 --- cbn in Hx. inv Hx. replace j with (List.length cache) by lia.
                     split; [exact Er | ].
                     apply (Hdown (Z.to_nat idx)); [lia | exact Hd].
                 --- cbn in Hx. destruct k; discriminate.
           ++ rewrite length_app. cbn. replace (List.length cache + 1) with (S (List.length cache)) by lia.
              exact Ha1.
           ++ exact Hd.
           ++ rewrite length_app. cbn. lia.
           ++ exists cache', w'. now split.
        -- exists cache, w1. split.
           ++ unfold none. now rewrite (denote_done _ r idx (List.length cache)).
           ++ split; [exact Hi1 | exact Hc].
    + exists cache, w. run. rewrite (cached_denote _ _ _ Hc) by lia. now split.
Qed.

(** The object [create] returns computes [denote r], whatever its state. *)
Lemma create_spec : SeqSpec (create src) dom (CacheInv dom Inv r) (denote r).
Proof.
  split.
  - intros idx [cache w] Hc Hal. cbn [get create create_get].
    destruct (Z.ltb_spec idx (Z.of_nat (List.length cache))) as [Hlt | Hge].
    + exists (cache, w). now rewrite (cached_denote _ _ _ Hc).
    + assert (Hd : dom (Z.to_nat idx)) by (destruct Hal; [lia | assumption]).
      destruct Hc as [Hi Hc]. cbn in Hi, Hc.
      destruct (spec_fresh Hsrc w Hi) as (c0 & w0 & E0 & Ha0 & Hi0).
      destruct (fastForward_spec (List.length cache) 0 c0 w0 Hi0 Ha0) as (c1 & w1 & E1 & Ha1 & Hi1).
      * intros j Hj. destruct (nth_error cache j) as [x | ] eqn:Ej.
        -- destruct (Hc _ _ Ej) as [Hr Hdj]. split; [congruence | exact Hdj].
        -- apply nth_error_None in Ej. lia.
      * destruct (fill_spec idx (Z.to_nat (idx + 1 - Z.of_nat (List.length cache))) cache c1 w1)
          as (cache' & w' & E' & Hc'); try assumption; try lia.
        -- split; assumption.
        -- run. rewrite E0, E1, E'. exists (cache', w'). now split.
  - intros idx v. apply denote_notnil.
  - intros idx. apply denote_neg.
Qed.

End CreateSpec.

(** The iterator of a specified sequence produces [iteration g]. *)
Lemma iterator_spec {W T : Type} `{Nilable T} (s : Seq W T) (dom : nat -> Prop)
  (Inv : W -> Prop) (g : Z -> Option T) :
  SeqSpec s dom Inv g ->
  SourceSpec (iterator s) dom Inv (fun i p => i = Z.of_nat p) (iteration g).
Proof.
  intros Hs. split.
  - intros w Hi. exists 0%Z, w. now split.
  - intros c p w Hi -> Hd _.
    destruct (spec_get Hs (Z.of_nat p) w Hi) as (w' & E & Hi').
    + right. now rewrite Nat2Z.id.
    + exists (Z.of_nat p + 1)%Z, w'. run. rewrite E. unfold iteration.
      split; [reflexivity | split; [lia | exact Hi']].
Qed.

Lemma firstn_snoc {T : Type} (l : list T) : forall (p : nat) (v : T),
  nth_error l p = Some v -> firstn p l ++ [v] = firstn (S p) l.
Proof.
  induction l as [ | x l IH]; intros [ | p] v Hv; try discriminate.
  - cbn in Hv. now inv Hv.
  - cbn in Hv. cbn [firstn app]. f_equal. now apply IH.
Qed.

Lemma enum_not_done {T : Type} (r : nat -> IteratorResult T) (l : list T) (j : nat) :
  Enum r l -> j < List.length l -> r j <> Done.
Proof.
  intros [Hy _] Hj. destruct (nth_error l j) as [v | ] eqn:E.
  - rewrite (Hy _ _ E). discriminate.
  - apply nth_error_None in E. lia.
Qed.

Section SpreadSpec.
Context {W C T : Type}.
Variable src : Source W C T.
Variable dom : nat -> Prop.
Variable Inv : W -> Prop.
Variable At : C -> nat -> Prop.
Variable r : nat -> IteratorResult T.
Variable l : list T.
Hypothesis Hsrc : SourceSpec src dom Inv At r.
Hypothesis Hl : Enum r l.
Hypothesis Hdom : forall p, p <= List.length l -> dom p.

(** Pulling a cursor to the end collects the whole list. *)
Lemma spread_spec (fuel : nat) : forall (p : nat) (c : C) (w : W),
  Inv w -> At c p -> p <= List.length l -> List.length l - p < fuel ->
  exists w', spread fuel src c (firstn p l) w = Some (l, w') /\ Inv w'.
Proof.
  induction fuel as [ | fuel IH]; intros p c w Hi Ha Hp Hf; [lia | ].
  destruct (spec_next Hsrc c p w Hi Ha) as (c1 & w1 & E & Ha1 & Hi1).
  - now apply Hdom.
  - intros j Hj. apply (enum_not_done r l); [exact Hl | lia].
  - cbn [spread]. run. rewrite E.
    destruct (nth_error l p) as [v | ] eqn:Ev.
    + rewrite (proj1 Hl _ _ Ev). rewrite (firstn_snoc l p v Ev).
      assert (p < List.length l) by (apply nth_error_Some; congruence).
      apply IH; [assumption | assumption | lia | lia].
    + apply nth_error_None in Ev. assert (p = List.length l) by lia. subst p.
      rewrite (proj2 Hl). rewrite firstn_all. exists w1. now split.
Qed.

End SpreadSpec.

(** [[...seq]] of a sequence that enumerates [l] is [l]. *)
Lemma toArrayUnsafe_spec {W T : Type} `{Nilable T} (s : Seq W T) (dom : nat -> Prop)
  (Inv : W -> Prop) (g : Z -> Option T) (l : list T) (fuel : nat) (w : W) :
  SeqSpec s dom Inv g -> Enumerates g l ->
  (forall p, p <= List.length l -> dom p) ->
  List.length l < fuel -> Inv w ->
  exists w', toArrayUnsafe fuel s w = Some (l, w') /\ Inv w'.
Proof.
  intros Hs Hl Hd Hf Hi. unfold toArrayUnsafe. run.
  apply (spread_spec (iterator s) dom Inv _ _ l (iterator_spec s dom Inv g Hs) Hl Hd fuel 0 0%Z w);
    [exact Hi | reflexivity | lia | lia].
Qed.

(** A cursor of [fromArray] produces the array. *)
Lemma fromArray_source_spec {T : Type} (arr : list T) (dom : nat -> Prop) :
  SourceSpec (fromArray_source arr) dom (fun _ => True)
    (fun c p => c = Nat.min p (List.length arr)) (ofList arr).
Proof.
  split.
  - intros w _. exists 0, w. now split.
  - intros c p w _ -> _ _. cbn [next fromArray_source]. unfold ofList.
    destruct (Nat.lt_ge_cases p (List.length arr)) as [Hlt | Hge].
    + rewrite Nat.min_l by lia.
      destruct (nth_error arr p) as [v | ] eqn:E.
      * exists (S p), w. run. split; [reflexivity | split; [lia | exact I]].
      * apply nth_error_None in E. lia.
    + rewrite Nat.min_r by lia.
      assert (E1 : nth_error arr (List.length arr) = None) by (apply nth_error_None; lia).
      assert (E2 : nth_error arr p = None) by (apply nth_error_None; lia).
      rewrite E1, E2. exists (List.length arr), w. run.
      split; [reflexivity | split; [lia | exact I]].
Qed.

(** A counting cursor produces what the cursor it wraps does, and logs
    only positions it was asked for. *)
Lemma counted_spec {W C T : Type} (src : Source W C T) (dom : nat -> Prop)
  (Inv : W -> Prop) (At : C -> nat -> Prop) (r : nat -> IteratorResult T) :
  SourceSpec src dom Inv At r ->
  SourceSpec (counted src) dom
    (fun st => Forall dom (fst st) /\ Inv (snd st))
    (fun c p => fst c = p /\ At (snd c) p) r.
Proof.
  intros Hs. split.
  - intros [log w] [Hlog Hi]. cbn in Hlog, Hi.
    destruct (spec_fresh Hs w Hi) as (c & w' & E & Ha & Hi').
    exists (0, c), (log, w'). cbn [fresh counted]. run. rewrite E. now repeat split.
  - intros [n c] p [log w] [Hlog Hi] [Hn Ha] Hd Hy. cbn in Hlog, Hi, Hn, Ha. subst n.
    destruct (spec_next Hs c p w Hi Ha Hd Hy) as (c' & w' & E & Ha' & Hi').
    exists (S p, c'), (log ++ [p], w'). cbn [next counted]. run. rewrite E.
    repeat split; try assumption. cbn. apply Forall_app. split; [exact Hlog | ].
    constructor; [exact Hd | constructor].
Qed.

Lemma visible_split {T : Type} `{Nilable T} (l : list T) :
  exists rest, l = visible l ++ rest /\
    Forall (fun v => isNil v = false) (visible l) /\
    (rest = [] \/ exists x rest', rest = x :: rest' /\ isNil x = true).
Proof.
  induction l as [ | v l (rest & E & Hf & Hr)]; cbn [visible].
  - exists []. repeat split; [constructor | now left].
  - destruct (isNil v) eqn:Ev.
    + exists (v :: l). repeat split; [constructor | right; now exists v, l].
    + exists rest. repeat split.
      * cbn. now f_equal.
      * now constructor.
      * exact Hr.
Qed.

Lemma visible_notnil {T : Type} `{Nilable T} (l : list T) :
  Forall (fun v => isNil v = false) l -> visible l = l.
Proof.
  induction 1 as [ | v l Hv _ IH]; cbn [visible]; [reflexivity | ].
  rewrite Hv. now f_equal.
Qed.

(** Iterating [create] over an array stops at the end of the array or
    before its first nil element. *)
Lemma denote_ofList_enumerates {T : Type} `{Nilable T} (l : list T) :
  Enumerates (denote (ofList l)) (visible l).
Proof.
  destruct (visible_split l) as (rest & E & Hf & Hr).
  assert (Hy : forall p, p < List.length l -> yields (ofList l) (S p) = true).
  { intros p Hp. apply yields_iff. intros j Hj. unfold ofList.
    destruct (nth_error l j) eqn:Ej; [discriminate | ].
    apply nth_error_None in Ej. lia. }
  assert (Hlen : List.length l = List.length (visible l) + List.length rest).
  { rewrite E at 1. now rewrite length_app. }
  split.
  - intros p v Hv. unfold iteration, denote.
    assert (Hp : p < List.length (visible l)) by (apply nth_error_Some; congruence).
    destruct (Z.ltb_spec (Z.of_nat p) 0); [lia | ]. rewrite Nat2Z.id.
    rewrite Hy by lia. unfold ofList.
    assert (Hvl : nth_error l p = Some v).
    { rewrite E. now rewrite nth_error_app1. }
    rewrite Hvl. cbn [optional].
    rewrite Forall_forall in Hf. rewrite (Hf v); [reflexivity | ].
    eapply nth_error_In. exact Hv.
  - unfold iteration, denote.
    destruct (Z.ltb_spec (Z.of_nat (List.length (visible l))) 0); [lia | ]. rewrite Nat2Z.id.
    destruct Hr as [-> | (x & rest' & -> & Hx)].
    + cbn in Hlen. rewrite (yields_false _ _ _ (List.length (visible l))); [reflexivity | lia | ].
      unfold ofList. replace (nth_error l (List.length (visible l))) with (@None T); [reflexivity | ].
      symmetry. apply nth_error_None. lia.
    + cbn in Hlen. rewrite Hy by lia. unfold ofList.
      assert (Hvl : nth_error l (List.length (visible l)) = Some x).
      { rewrite E at 1. rewrite nth_error_app2 by lia. now rewrite Nat.sub_diag. }
      rewrite Hvl. cbn [optional]. now rewrite Hx.
Qed.

Lemma everywhere_downward : downward everywhere.
Proof. intros p q _ _. exact I. Qed.

Lemma fromArray_spec {T : Type} `{Nilable T} (arr : list T) :
  SeqSpec (fromArray arr) everywhere
    (CacheInv everywhere (fun _ => True) (ofList arr)) (denote (ofList arr)).
Proof.
  apply create_spec with (At := fun c p => c = Nat.min p (List.length arr)).
  - exact everywhere_downward.
  - apply fromArray_source_spec.
Qed.

Lemma init_CacheInv {W T : Type} (dom : nat -> Prop) (Inv : W -> Prop)
  (r : nat -> IteratorResult T) (w : W) :
  Inv w -> CacheInv dom Inv r (init w).
Proof.
  intros Hi. split; [exact Hi | ]. intros [ | j] v Hv; discriminate.
Qed.

(** [fromArray(arr).toArrayUnsafe()] is the part of [arr] before its first
    nil element. *)
Lemma fromArray_toArrayUnsafe {T : Type} `{Nilable T} (arr : list T) (fuel : nat) :
  List.length (visible arr) < fuel ->
  exists st, toArrayUnsafe fuel (fromArray arr) (init tt) = Some (visible arr, st).
Proof.
  intros Hf.
  destruct (toArrayUnsafe_spec (fromArray arr) everywhere _ _ (visible arr) fuel (init tt)
              (fromArray_spec arr) (denote_ofList_enumerates arr)) as (st & E & _).
  - intros p _. exact I.
  - exact Hf.
  - now apply init_CacheInv.
  - now exists st.
Qed.

(** ** Negative indices, nil elements *)

Lemma index_nil (T : Type) (i : Z) : index (@nil T) i = None.
Proof. unfold index. destruct (i <? 0)%Z; [reflexivity | ]. now destruct (Z.to_nat i). Qed.

Lemma get_negative {W C T : Type} `{Nilable T} (src : Source W C T) (n : Z) (st : list T * W) :
  (n < 0)%Z -> get (create src) n st = Some (NONE, st).
Proof.
  intros Hn. destruct st as [cache w]. cbn [get create create_get].
  destruct (Z.ltb_spec n (Z.of_nat (List.length cache))); [ | lia].
  now rewrite index_neg.
Qed.

Lemma drop_negative_get {W C T : Type} `{Nilable T} (src : Source W C T) (n idx : Z)
  (w : list T * W) :
  (n < 0)%Z -> get (drop (create src) n) idx (init w) = Some (NONE, init w).
Proof.
  intros Hn. unfold drop, init. cbn [get create create_get List.length].
  destruct (Z.ltb_spec idx (Z.of_nat 0)) as [Hlt | Hge].
  - now rewrite index_nil.
  - cbn [fastForward]. run.
    destruct (Z.to_nat (idx + 1 - Z.of_nat 0)) as [ | fuel] eqn:Ef; [lia | ].
    cbn [fill List.length]. destruct (Z.leb_spec (Z.of_nat 0) idx); [ | lia].
    run. now rewrite (get_negative src n w Hn).
Qed.

(** C10: for every sequence (an object built by [create]) and every negative
    [n], [get(n)] is the absent variant and leaves the sequence as it was;
    [drop(n)] is then the empty sequence: every [get] on it is absent and
    spreading it gives the empty array. *)
Theorem negative_index_absent {W C T : Type} `{Nilable T} (src : Source W C T) (n : Z) :
  (n < 0)%Z ->
  (forall st, get (create src) n st = Some (NONE, st)) /\
  (forall w idx, get (drop (create src) n) idx (init w) = Some (NONE, init w)) /\
  (forall w fuel, 0 < fuel ->
     toArrayUnsafe fuel (drop (create src) n) (init w) = Some ([], init w)).
Proof.
  intros Hn. split; [ | split].
  - intros st. now apply get_negative.
  - intros w idx. now apply drop_negative_get.
  - intros w [ | fuel] Hf; [lia | ]. unfold toArrayUnsafe. run. cbn [spread]. run.
    now rewrite (drop_negative_get src n 0 w Hn).
Qed.

Lemma negative_index_absent_witness :
  (forall st, get (fromArray [1; 2; 3]%Z) (-1)%Z st = Some (NONE, st)) /\
  (forall w idx, get (drop (fromArray [1; 2; 3]%Z) (-1)%Z) idx (init w) = Some (NONE, init w)) /\
  (forall w fuel, 0 < fuel ->
     toArrayUnsafe fuel (drop (fromArray [1; 2; 3]%Z) (-1)%Z) (init w) = Some ([], init w)).
Proof. apply (negative_index_absent (fromArray_source [1; 2; 3]%Z) (-1)%Z). lia. Defined.

Lemma CacheInv_everywhere {W T : Type} (Inv : W -> Prop) (r : nat -> IteratorResult T)
  (cache : list T) (w : W) :
  CacheInv everywhere Inv r (cache, w) <-> Inv w /\ Cached r cache.
Proof.
  unfold CacheInv, Cached, everywhere. cbn. split.
  - intros [Hi Hc]. split; [exact Hi | ]. intros j v Hv. now apply Hc.
  - intros [Hi Hc]. split; [exact Hi | ]. intros j v Hv. split; [now apply Hc | exact I].
Qed.

Lemma denote_yield {T : Type} `{Nilable T} (r : nat -> IteratorResult T) (i : nat) (v : T) :
  (forall j, j < i -> r j <> Done) -> r i = Yield v ->
  denote r (Z.of_nat i) = if isNil v then NONE else SOME v.
Proof.
  intros Hy Hv. unfold denote. destruct (Z.ltb_spec (Z.of_nat i) 0); [lia | ].
  rewrite Nat2Z.id, Hv.
  replace (yields r (S i)) with true; [reflexivity | ].
  symmetry. apply yields_iff. intros j Hj.
  destruct (Nat.eq_dec j i) as [-> | Hne]; [rewrite Hv; discriminate | apply Hy; lia].
Qed.

(** C2, as amended: when the source of a sequence yields an element [v] at
    position [i] (and at every position before it), [get(i)] is the present
    variant carrying [v] if [v] is neither [null] nor [undefined], and the
    absent variant if it is. *)
Theorem get_present_unless_nil {W C T : Type} `{Nilable T} (src : Source W C T)
  (Inv : W -> Prop) (At : C -> nat -> Prop) (r : nat -> IteratorResult T)
  (i : nat) (v : T) (cache : list T) (w : W) :
  SourceSpec src everywhere Inv At r ->
  Inv w -> Cached r cache ->
  (forall j, j < i -> r j <> Done) -> r i = Yield v ->
  exists cache' w',
    get (create src) (Z.of_nat i) (cache, w)
      = Some (if isNil v then NONE else SOME v, (cache', w')) /\
    Inv w' /\ Cached r cache'.
Proof.
  intros Hs Hi Hc Hy Hv.
  destruct (spec_get (create_spec src everywhere Inv At r everywhere_downward Hs)
              (Z.of_nat i) (cache, w)) as ([cache' w'] & E & Hc').
  - apply CacheInv_everywhere. now split.
  - right. exact I.
  - exists cache', w'. rewrite E, (denote_yield r i v Hy Hv).
    apply CacheInv_everywhere in Hc'. now split.
Qed.

Lemma get_present_unless_nil_witness :
  exists cache' w',
    get (fromArray [Num 1; Null; Num 3]) (Z.of_nat 2) ([], tt)
      = Some (if isNil (Num 3) then NONE else SOME (Num 3), (cache', w')) /\
    True /\ Cached (ofList [Num 1; Null; Num 3]) cache'.
Proof.
  apply (get_present_unless_nil (fromArray_source [Num 1; Null; Num 3]) (fun _ => True)
           (fun c p => c = Nat.min p 3) (ofList [Num 1; Null; Num 3]) 2 (Num 3) [] tt).
  - apply (fromArray_source_spec [Num 1; Null; Num 3] everywhere).
  - exact I.
  - intros [ | j] v Hv; discriminate.
  - intros [ | [ | j]] Hj; cbn; try discriminate; lia.
  - reflexivity.
Defined.

(** C2, as stated, fails: the source yields [null] at position 1 and
    [get(1)] is the absent variant. *)
Lemma get_present_counterexample :
  ~ (forall (arr : list JsValue) (i : nat) (v : JsValue),
       nth_error arr i = Some v ->
       exists st, get (fromArray arr) (Z.of_nat i) (init tt) = Some (SOME v, st)).
Proof.
  intros Hc. destruct (Hc [Num 1; Null; Num 3] 1 Null eq_refl) as (st & E).
  vm_compute in E. discriminate.
Qed.

(** C8, as amended: for every finite array without [null] and [undefined]
    elements, the empty array included, [fromArray(arr).toArrayUnsafe()] is
    [arr]. *)
Theorem fromArray_roundtrip {T : Type} `{Nilable T} (arr : list T) (fuel : nat) :
  Forall (fun v => isNil v = false) arr ->
  List.length arr < fuel ->
  exists st, toArrayUnsafe fuel (fromArray arr) (init tt) = Some (arr, st).
Proof.
  intros Hn Hf. pose proof (visible_notnil arr Hn) as Hv.
  destruct (fromArray_toArrayUnsafe arr fuel) as (st & E); [rewrite Hv; exact Hf | ].
  exists st. now rewrite Hv in E.
Qed.

Lemma fromArray_roundtrip_witness :
  exists st, toArrayUnsafe 4 (fromArray [Num 1; Num 2; Num 3]) (init tt)
             = Some ([Num 1; Num 2; Num 3], st).
Proof.
  apply (fromArray_roundtrip [Num 1; Num 2; Num 3] 4).
  - repeat constructor.
  - cbn. lia.
Defined.

(** C8, as stated, fails: an array with an [undefined] element comes back
    cut before it, whatever the fuel. *)
Lemma fromArray_roundtrip_counterexample :
  ~ (forall arr : list JsValue,
       exists fuel st, toArrayUnsafe fuel (fromArray arr) (init tt) = Some (arr, st)).
Proof.
  intros Hc. destruct (Hc [Num 1; Undefined; Num 3]) as (fuel & st & E).
  destruct fuel as [ | [ | fuel]]; vm_compute in E; discriminate.
Qed.

(** ** Memoization *)

Section CountedLog.
Context {W C T : Type} `{Nilable T}.
Variable src : Source W C T.

Lemma counted_next_log (p : nat) (c : C) (log : list nat) (w : W)
  (x : IteratorResult T) (c' : nat * C) (st' : list nat * W) :
  next (counted src) (p, c) (log, w) = Some ((x, c'), st') ->
  fst c' = S p /\ fst st' = log ++ [p].
Proof.
  run. destruct (next src c w) as [[[y c1] w1] | ]; [ | discriminate].
  intros E. inv E. now split.
Qed.

Lemma counted_fastForward_log (n : nat) : forall (p : nat) (c : C) (log : list nat) (w : W)
  (c' : nat * C) (st' : list nat * W),
  fastForward (counted src) n (p, c) (log, w) = Some (c', st') ->
  fst c' = p + n /\ fst st' = log ++ seq p n.
Proof.
  induction n as [ | n IH]; intros p c log w c' st' E.
  - cbn in E. inv E. cbn. now rewrite Nat.add_0_r, app_nil_r.
  - cbn [fastForward] in E. unfold bind in E.
    destruct (next (counted src) (p, c) (log, w)) as [[[x [p1 c1]] [log1 w1]] | ] eqn:En;
      [ | discriminate].
    destruct (counted_next_log _ _ _ _ _ _ _ En) as [Hp Hl]. cbn in Hp, Hl. subst.
    destruct (IH _ _ _ _ _ _ E) as [Hp' Hl']. split; [lia | ].
    rewrite Hl'. cbn [seq]. now rewrite <- app_assoc.
Qed.

Lemma counted_fill_log (idx : Z) (fuel : nat) : forall (p : nat) (c : C) (cache : list T)
  (log : list nat) (w : W) (res : Option T * list T) (st' : list nat * W),
  fill (counted src) fuel idx (p, c) cache (log, w) = Some (res, st') ->
  exists k, fst st' = log ++ seq p k.
Proof.
  induction fuel as [ | fuel IH]; intros p c cache log w res st' E; cbn [fill] in E.
  - destruct (Z.of_nat (List.length cache) <=? idx)%Z; [discriminate | ].
    inv E. exists 0. cbn. now rewrite app_nil_r.
  - destruct (Z.of_nat (List.length cache) <=? idx)%Z.
    + unfold bind in E.
      destruct (next (counted src) (p, c) (log, w)) as [[[x [p1 c1]] [log1 w1]] | ] eqn:En;
        [ | discriminate].
      destruct (counted_next_log _ _ _ _ _ _ _ En) as [Hp Hl]. cbn in Hp, Hl. subst.
      destruct x as [v | ].
      * destruct (IH _ _ _ _ _ _ _ E) as [k Hk]. exists (S k).
        rewrite Hk. cbn [seq]. now rewrite <- app_assoc.
      * inv E. now exists 1.
    + inv E. exists 0. cbn. now rewrite app_nil_r.
Qed.

(** One [get] evaluates the positions [0 .. k-1] of the source, in order,
    each once. *)
Lemma counted_get_log (idx : Z) (cache : list T) (log : list nat) (w : W)
  (o : Option T) (cache' : list T) (log' : list nat) (w' : W) :
  get (create (counted src)) idx (cache, (log, w)) = Some (o, (cache', (log', w'))) ->
  exists k, log' = log ++ seq 0 k.
Proof.
  cbn [get create create_get].
  destruct (idx <? Z.of_nat (List.length cache))%Z.
  - intros E. inv E. exists 0. cbn. now rewrite app_nil_r.
  - unfold bind at 1 2.
    destruct (fresh (counted src) (log, w)) as [[[p0 c0] [log0 w0]] | ] eqn:E0; [ | discriminate].
    assert (p0 = 0 /\ log0 = log) as [-> ->].
    { revert E0. run. destruct (fresh src w) as [[c1 w1] | ]; [ | discriminate].
      intros E. now inv E. }
    destruct (fastForward (counted src) (List.length cache) (0, c0) (log, w0))
      as [[[p1 c1] [log1 w1]] | ] eqn:E1; [ | discriminate].
    destruct (counted_fastForward_log _ _ _ _ _ _ _ E1) as [Hp Hl]. cbn in Hp, Hl. subst.
    destruct (fill (counted src) _ idx _ cache _) as [[[o2 cache2] [log2 w2]] | ] eqn:E2;
      [ | discriminate].
    destruct (counted_fill_log _ _ _ _ _ _ _ _ _ E2) as [k Hk]. cbn in Hk. subst.
    intros E. inv E. exists (List.length cache + k).
    now rewrite seq_app, app_assoc.
Qed.

End CountedLog.

Section Hit.
Context {W C T : Type} `{Nilable T}.
Variable src : Source W C T.

Lemma fill_some (idx : Z) (fuel : nat) : forall (it : C) (cache : list T) (w : W)
  (v : T) (cache' : list T) (w' : W),
  fill src fuel idx it cache w = Some ((SOME v, cache'), w') ->
  (idx < Z.of_nat (List.length cache'))%Z.
Proof.
  induction fuel as [ | fuel IH]; intros it cache w v cache' w' E; cbn [fill] in E.
  - destruct (Z.leb_spec (Z.of_nat (List.length cache)) idx); [discriminate | ]. now inv E.
  - destruct (Z.leb_spec (Z.of_nat (List.length cache)) idx).
    + unfold bind in E. destruct (next src it w) as [[[x it1] w1] | ]; [ | discriminate].
      destruct x as [y | ]; [now apply IH in E | discriminate].
    + now inv E.
Qed.

(** A [get] that found its element has put it in the cache. *)
Lemma get_some_cached (idx : Z) (st : list T * W) (v : T) (cache' : list T) (w' : W) :
  get (create src) idx st = Some (SOME v, (cache', w')) ->
  (idx < Z.of_nat (List.length cache'))%Z.
Proof.
  destruct st as [cache w]. cbn [get create create_get].
  destruct (Z.ltb_spec idx (Z.of_nat (List.length cache))).
  - intros E. now inv E.
  - destruct ((it <- fresh src;; it1 <- fastForward src (List.length cache) it;;
               fill src (Z.to_nat (idx + 1 - Z.of_nat (List.length cache))) idx it1 cache) w)
      as [[[o c1] w1] | ] eqn:E; [ | discriminate].
    intros E'. inv E'. unfold bind in E.
    destruct (fresh src w) as [[c0 w0] | ]; [ | discriminate].
    destruct (fastForward src (List.length cache) c0 w0) as [[c2 w2] | ]; [ | discriminate].
    now apply fill_some in E.
Qed.

(** A position in the cache is answered without touching the source. *)
Lemma get_cached_untouched (idx : Z) (cache : list T) (w : W) :
  (idx < Z.of_nat (List.length cache))%Z ->
  get (create src) idx (cache, w) = Some (optional (index cache idx), (cache, w)).
Proof.
  intros Hlt. cbn [get create create_get].
  now destruct (Z.ltb_spec idx (Z.of_nat (List.length cache))); [ | lia].
Qed.

End Hit.

(** C1, as amended: for a sequence built by [create] over a source whose
    cursors all produce the same stream [r] (here instrumented as a counting
    cursor), every [get(i)] returns the same value [denote r i]; a [get]
    whose position is in the cache leaves the cache, the log and the source
    untouched; a [get] that found its element has cached it; and one [get]
    evaluates the positions [0 .. k-1] of the source in order, each once.
    (A [get] that has to extend the cache starts a fresh cursor at
    position 0, so over several calls a position is evaluated again.) *)
Theorem get_memoized {W C T : Type} `{Nilable T} (src : Source W C T)
  (Inv : W -> Prop) (At : C -> nat -> Prop) (r : nat -> IteratorResult T)
  (idx : Z) (cache : list T) (log : list nat) (w : W) :
  SourceSpec src everywhere Inv At r ->
  Inv w -> Cached r cache ->
  exists cache' k w',
    get (create (counted src)) idx (cache, (log, w))
      = Some (denote r idx, (cache', (log ++ seq 0 k, w'))) /\
    Inv w' /\ Cached r cache' /\
    ((idx < Z.of_nat (List.length cache))%Z -> cache' = cache /\ k = 0 /\ w' = w) /\
    (forall v, denote r idx = SOME v -> (idx < Z.of_nat (List.length cache'))%Z).
Proof.
  intros Hs Hi Hc.
  pose proof (create_spec (counted src) everywhere _ _ r everywhere_downward
                (counted_spec src everywhere Inv At r Hs)) as Hcs.
  destruct (spec_get Hcs idx (cache, (log, w))) as ([cache' [log' w']] & E & Hc').
  - apply CacheInv_everywhere. split; [split; [ | exact Hi] | exact Hc].
    cbn. apply Forall_forall. intros x _. exact I.
  - unfold allowed, everywhere. destruct (Z.ltb_spec idx 0); [now left | now right].
  - destruct (counted_get_log src _ _ _ _ _ _ _ _ E) as [k Hk]. subst log'.
    apply CacheInv_everywhere in Hc'. destruct Hc' as [[_ Hi'] Hc']. cbn in Hi'.
    exists cache', k, w'. split; [exact E | ]. split; [exact Hi' | ]. split; [exact Hc' | ].
    split.
    + intros Hlt. rewrite (get_cached_untouched (counted src) idx cache (log, w) Hlt) in E.
      inv E. repeat split.
      assert (Hl : List.length (log ++ seq 0 k) = List.length log) by congruence.
      rewrite length_app, length_seq in Hl. lia.
    + intros v Hv. rewrite Hv in E.
      exact (get_some_cached (counted src) idx _ v cache' _ E).
Qed.

Lemma get_memoized_witness :
  exists cache' k w',
    get (create (counted (fromArray_source [10; 20; 30]%Z))) 1%Z ([10%Z], ([0], tt))
      = Some (denote (ofList [10; 20; 30]%Z) 1%Z, (cache', ([0] ++ seq 0 k, w'))) /\
    True /\ Cached (ofList [10; 20; 30]%Z) cache' /\
    ((1 < Z.of_nat (List.length [10%Z]))%Z -> cache' = [10%Z] /\ k = 0 /\ w' = tt) /\
    (forall v, denote (ofList [10; 20; 30]%Z) 1%Z = SOME v ->
               (1 < Z.of_nat (List.length cache'))%Z).
Proof.
  apply (get_memoized (fromArray_source [10; 20; 30]%Z) (fun _ => True)
           (fun c p => c = Nat.min p 3) (ofList [10; 20; 30]%Z) 1%Z [10%Z] [0] tt).
  - apply (fromArray_source_spec [10; 20; 30]%Z everywhere).
  - exact I.
  - intros [ | [ | j]] v Hv; cbn in Hv; try discriminate. now inv Hv.
Defined.

(** C1, as stated, fails: after [get(0)] and [get(1)] the counting cursor
    has evaluated position 0 twice. *)
Lemma get_memoized_counterexample :
  exists o st log,
    (_ <- get (create (counted (fromArray_source [10; 20; 30]%Z))) 0%Z ;;
     get (create (counted (fromArray_source [10; 20; 30]%Z))) 1%Z) (init ([], tt))
      = Some (o, (st, (log, tt))) /\
    count_occ Nat.eq_dec log 0 = 2.
Proof.
  exists (SOME 20%Z), [10; 20]%Z, [0; 0; 1]. split; reflexivity.
Qed.

(** ** [take], [drop] and [slice] *)

Lemma allowed_everywhere (idx : Z) : allowed everywhere idx.
Proof. right. exact I. Qed.

Lemma behaves_get {W T : Type} `{Nilable T} (s : Seq W T) (st : W) (g : Z -> Option T) (idx : Z) :
  Behaves s st g -> exists st', get s idx st = Some (g idx, st') /\ Behaves s st' g.
Proof.
  intros (Inv & Hi & Hs).
  destruct (spec_get Hs idx st Hi (allowed_everywhere idx)) as (st' & E & Hi').
  exists st'. split; [exact E | ]. now exists Inv.
Qed.

Lemma behaves_ext {W T : Type} `{Nilable T} (s : Seq W T) (st : W) (g g' : Z -> Option T) :
  (forall idx, g idx = g' idx) -> Behaves s st g -> Behaves s st g'.
Proof.
  intros He (Inv & Hi & Hs). exists Inv. split; [exact Hi | ]. split.
  - intros idx w Hw Ha. rewrite <- He. exact (spec_get Hs idx w Hw Ha).
  - intros idx v. rewrite <- He. exact (spec_notnil Hs idx v).
  - intros idx. rewrite <- He. exact (spec_neg Hs idx).
Qed.

Lemma create_behaves {W C T : Type} `{Nilable T} (src : Source W C T) (Inv : W -> Prop)
  (At : C -> nat -> Prop) (r : nat -> IteratorResult T) (w : W) :
  SourceSpec src everywhere Inv At r -> Inv w ->
  Behaves (create src) (init w) (denote r).
Proof.
  intros Hs Hi. exists (CacheInv everywhere Inv r). split.
  - now apply init_CacheInv.
  - now apply create_spec with (At := At); [exact everywhere_downward | ].
Qed.

Section TakeDrop.
Context {W T : Type} `{Nilable T}.
Variable s : Seq W T.
Variable Inv : W -> Prop.
Variable g : Z -> Option T.
Hypothesis Hs : SeqSpec s everywhere Inv g.

Lemma take_source_spec (m : Z) :
  SourceSpec (take_source s m) everywhere Inv
    (fun i p => (i <= Z.of_nat p)%Z /\ ((i < m)%Z -> i = Z.of_nat p)) (take_stream g m).
Proof.
  split.
  - intros w Hi. exists 0%Z, w. run.
    split; [reflexivity | split; [split; lia | exact Hi]].
  - intros i p w Hi [Hle Hlt] _ _. run. unfold take_stream.
    destruct (Z.geb_spec i m) as [Hge | Hl].
    + exists i, w. destruct (Z.geb_spec (Z.of_nat p) m); [ | lia].
      split; [reflexivity | split; [split; lia | exact Hi]].
    + specialize (Hlt Hl). subst i.
      destruct (Z.geb_spec (Z.of_nat p) m); [lia | ].
      destruct (spec_get Hs (Z.of_nat p) w Hi (allowed_everywhere _)) as (w' & E & Hi').
      exists (Z.of_nat p + 1)%Z, w'. rewrite E. unfold iteration.
      split; [reflexivity | split; [split; lia | exact Hi']].
Qed.

Lemma drop_source_spec (n : Z) :
  SourceSpec (drop_source s n) everywhere Inv
    (fun i p => i = (n + Z.of_nat p)%Z) (drop_stream g n).
Proof.
  split.
  - intros w Hi. exists n, w. run.
    split; [reflexivity | split; [lia | exact Hi]].
  - intros i p w Hi -> _ _. run.
    destruct (spec_get Hs (n + Z.of_nat p)%Z w Hi (allowed_everywhere _)) as (w' & E & Hi').
    exists (n + Z.of_nat p + 1)%Z, w'. rewrite E. unfold drop_stream.
    split; [reflexivity | split; [lia | exact Hi']].
Qed.

End TakeDrop.

Lemma take_behaves {W T : Type} `{Nilable T} (s : Seq W T) (w : W) (g : Z -> Option T) (n : Z) :
  Behaves s w g -> Behaves (take s n) (init w) (denote (take_stream g (Z.max 0 n))).
Proof.
  intros (Inv & Hi & Hs). unfold take.
  exact (create_behaves _ Inv _ _ w (take_source_spec s Inv g Hs (Z.max 0 n)) Hi).
Qed.

Lemma drop_behaves {W T : Type} `{Nilable T} (s : Seq W T) (w : W) (g : Z -> Option T) (n : Z) :
  Behaves s w g -> Behaves (drop s n) (init w) (denote (drop_stream g n)).
Proof.
  intros (Inv & Hi & Hs). unfold drop.
  exact (create_behaves _ Inv _ _ w (drop_source_spec s Inv g Hs n) Hi).
Qed.

Lemma behaves_neg {W T : Type} `{Nilable T} (s : Seq W T) (w : W) (g : Z -> Option T) (idx : Z) :
  Behaves s w g -> (idx < 0)%Z -> g idx = NONE.
Proof. intros (Inv & _ & Hs). exact (spec_neg Hs idx). Qed.

(** A stream that is done at once gives the empty sequence. *)
Lemma denote_empty {T : Type} `{Nilable T} (r : nat -> IteratorResult T) (idx : Z) :
  r 0 = Done -> denote r idx = NONE.
Proof.
  intros Hr. destruct (Z.ltb_spec idx 0).
  - now apply denote_neg.
  - apply (denote_done _ r idx 0); [lia | exact Hr].
Qed.

Lemma take_stream_of_empty {T : Type} (g : Z -> Option T) (m : Z) :
  g 0%Z = NONE -> take_stream g m 0 = Done.
Proof.
  intros Hg. unfold take_stream, iteration. cbn. rewrite Hg.
  now destruct (0 >=? m)%Z.
Qed.

Lemma slice_is_take_drop {W T : Type} `{Nilable T} (s : Seq W T) (start e : Z) :
  (0 <= start)%Z ->
  slice s start (Some e) = take (drop s start) (Z.max 0 (e - start)).
Proof.
  intros Hs. unfold slice, take. rewrite (Z.max_r 0 start Hs).
  f_equal. f_equal. destruct (Z.leb_spec e start); lia.
Qed.

Lemma behaves_toArrayUnsafe {W T : Type} `{Nilable T} (s : Seq W T) (w : W)
  (g : Z -> Option T) (l : list T) (fuel : nat) :
  Behaves s w g -> Enumerates g l -> List.length l < fuel ->
  exists w', toArrayUnsafe fuel s w = Some (l, w').
Proof.
  intros (Inv & Hi & Hs) Hl Hf.
  destruct (toArrayUnsafe_spec s everywhere Inv g l fuel w Hs Hl) as (w' & E & _);
    [intros p _; exact I | exact Hf | exact Hi | now exists w'].
Qed.

(** C9: [slice(start, end)] yields what [drop(start).take(max(0, end -
    start))] does: from their first states the two objects answer every
    [get] alike, now and later, with [drop_take g start (end - start)], and
    spreading them gives the same array; without [end] the slice is
    [drop(start)] and runs to exhaustion; with [start > end], or a negative
    or out-of-range bound, it is the empty sequence.  ([slice] returns a
    sequence and not a completion: nothing is thrown.) *)
Theorem slice_equiv_drop_take {W T : Type} `{Nilable T} (s : Seq W T) (w : W)
  (g : Z -> Option T) (start : Z) :
  Behaves s w g ->
  (forall e,
     Behaves (slice s start (Some e)) (init (init w)) (drop_take g start (e - start)) /\
     Behaves (take (drop s start) (Z.max 0 (e - start))) (init (init w))
       (drop_take g start (e - start)) /\
     (forall l fuel, Enumerates (drop_take g start (e - start)) l -> List.length l < fuel ->
        exists st1 st2,
          toArrayUnsafe fuel (slice s start (Some e)) (init (init w)) = Some (l, st1) /\
          toArrayUnsafe fuel (take (drop s start) (Z.max 0 (e - start))) (init (init w))
            = Some (l, st2))) /\
  (slice s start None = drop s start /\
   Behaves (slice s start None) (init w) (denote (drop_stream g start))) /\
  (forall e, (start < 0 \/ e < 0 \/ e <= start \/ g start = NONE)%Z ->
     Behaves (slice s start (Some e)) (init (init w)) (fun _ => NONE)).
Proof.
  intros Hb. pose proof (drop_behaves s w g start Hb) as Hd.
  assert (Hempty : (start < 0)%Z \/ g start = NONE ->
                   forall idx, denote (drop_stream g start) idx = NONE).
  { intros Hc idx. apply denote_empty. unfold drop_stream. cbn.
    rewrite Z.add_0_r.
    destruct Hc as [Hneg | Hn]; [rewrite (behaves_neg s w g start Hb Hneg) | rewrite Hn];
      reflexivity. }
  assert (Hboth : forall e,
     Behaves (slice s start (Some e)) (init (init w)) (drop_take g start (e - start)) /\
     Behaves (take (drop s start) (Z.max 0 (e - start))) (init (init w))
       (drop_take g start (e - start))).
  { intros e. unfold drop_take. split.
    - destruct (Z.le_gt_cases 0 start) as [Hpos | Hneg].
      + rewrite (slice_is_take_drop s start e Hpos).
        rewrite <- (Z.max_r 0 (Z.max 0 (e - start))) at 2 by lia. now apply take_behaves.
      + unfold slice.
        apply (behaves_ext _ _ (denote (take_stream (denote (drop_stream g start))
                 (Z.max 0 ((if (e <=? Z.max 0 start)%Z then Z.max 0 start else e) - Z.max 0 start))))).
        * intros idx. rewrite !denote_empty; try reflexivity;
            apply take_stream_of_empty; apply Hempty; left; lia.
        * now apply take_behaves.
    - rewrite <- (Z.max_r 0 (Z.max 0 (e - start))) at 2 by lia. now apply take_behaves. }
  split; [ | split].
  - intros e. destruct (Hboth e) as [H1 H2]. split; [exact H1 | split; [exact H2 | ]].
    intros l fuel Hl Hf.
    destruct (behaves_toArrayUnsafe _ _ _ l fuel H1 Hl Hf) as (st1 & E1).
    destruct (behaves_toArrayUnsafe _ _ _ l fuel H2 Hl Hf) as (st2 & E2).
    now exists st1, st2.
  - split; [reflexivity | exact Hd].
  - intros e Hc. unfold slice.
    eapply behaves_ext; [ | apply take_behaves; exact Hd].
    intros idx. cbn beta. apply denote_empty.
    destruct (Z.le_gt_cases 0 start) as [Hpos | Hneg].
    + destruct Hc as [Hc | [Hc | [Hc | Hc]]].
      * lia.
      * unfold take_stream. rewrite (Z.max_r 0 start Hpos).
        destruct (Z.leb_spec e start); [ | lia].
        rewrite Z.sub_diag. reflexivity.
      * unfold take_stream. rewrite (Z.max_r 0 start Hpos).
        destruct (Z.leb_spec e start); [ | lia].
        rewrite Z.sub_diag. reflexivity.
      * apply take_stream_of_empty. apply Hempty. now right.
    + apply take_stream_of_empty. apply Hempty. now left.
Qed.

Lemma slice_equiv_drop_take_witness :
  (forall e,
     Behaves (slice (fromArray [1; 2; 3; 4; 5]%Z) 1%Z (Some e)) (init (init (init tt)))
       (drop_take (denote (ofList [1; 2; 3; 4; 5]%Z)) 1%Z (e - 1)) /\
     Behaves (take (drop (fromArray [1; 2; 3; 4; 5]%Z) 1%Z) (Z.max 0 (e - 1)))
       (init (init (init tt))) (drop_take (denote (ofList [1; 2; 3; 4; 5]%Z)) 1%Z (e - 1)) /\
     (forall l fuel,
        Enumerates (drop_take (denote (ofList [1; 2; 3; 4; 5]%Z)) 1%Z (e - 1)) l ->
        List.length l < fuel ->
        exists st1 st2,
          toArrayUnsafe fuel (slice (fromArray [1; 2; 3; 4; 5]%Z) 1%Z (Some e))
            (init (init (init tt))) = Some (l, st1) /\
          toArrayUnsafe fuel (take (drop (fromArray [1; 2; 3; 4; 5]%Z) 1%Z) (Z.max 0 (e - 1)))
            (init (init (init tt))) = Some (l, st2))) /\
  (slice (fromArray [1; 2; 3; 4; 5]%Z) 1%Z None = drop (fromArray [1; 2; 3; 4; 5]%Z) 1%Z /\
   Behaves (slice (fromArray [1; 2; 3; 4; 5]%Z) 1%Z None) (init (init tt))
     (denote (drop_stream (denote (ofList [1; 2; 3; 4; 5]%Z)) 1%Z))) /\
  (forall e, (1 < 0 \/ e < 0 \/ e <= 1 \/ denote (ofList [1; 2; 3; 4; 5]%Z) 1%Z = NONE)%Z ->
     Behaves (slice (fromArray [1; 2; 3; 4; 5]%Z) 1%Z (Some e)) (init (init (init tt)))
       (fun _ => NONE)).
Proof.
  apply (slice_equiv_drop_take (fromArray [1; 2; 3; 4; 5]%Z) (init tt)
           (denote (ofList [1; 2; 3; 4; 5]%Z)) 1%Z).
  apply (create_behaves (fromArray_source [1; 2; 3; 4; 5]%Z) (fun _ => True)
           (fun c p => c = Nat.min p 5) (ofList [1; 2; 3; 4; 5]%Z) tt).
  - apply (fromArray_source_spec [1; 2; 3; 4; 5]%Z everywhere).
  - exact I.
Defined.

(** ** Bounded operations *)

Section ForOf.
Context {W T A : Type} `{Nilable T}.
Variable s : Seq W T.
Variable Inv : W -> Prop.
Variable g : Z -> Option T.
Hypothesis Hs : SeqSpec s everywhere Inv g.
Variable body : A -> T -> Completion A.

(** The loop runs the body over the elements; it ends at the end of the
    sequence, or at once when the body throws. *)
Lemma forOf_spec (l : list T) : forall (fuel p : nat) (acc : A) (w : W),
  Inv w ->
  (forall j v, nth_error l j = Some v -> iteration g (p + j) = Yield v) ->
  (iteration g (p + List.length l) = Done /\ List.length l < fuel) \/
  ((exists e, runBody body l acc = Throws e) /\ List.length l <= fuel) ->
  exists w', forOf s fuel body (Z.of_nat p) acc w = Some (runBody body l acc, w') /\ Inv w'.
Proof.
  induction l as [ | a l IH]; intros fuel p acc w Hi Hl Hc.
  - destruct Hc as [[Hd Hf] | [[e He] _]]; [ | discriminate He].
    destruct fuel as [ | fuel]; [cbn in Hf; lia | ].
    destruct (spec_get Hs (Z.of_nat p) w Hi (allowed_everywhere _)) as (w' & E & Hi').
    cbn [forOf]. run. rewrite E. cbn [List.length] in Hd. rewrite Nat.add_0_r in Hd.
    unfold iteration in Hd. rewrite Hd. exists w'. now split.
  - assert (Hf : 0 < fuel) by (destruct Hc as [[_ Hf] | [_ Hf]]; cbn in Hf; lia).
    destruct fuel as [ | fuel]; [lia | ].
    destruct (spec_get Hs (Z.of_nat p) w Hi (allowed_everywhere _)) as (w' & E & Hi').
    cbn [forOf]. run. rewrite E.
    pose proof (Hl 0 a eq_refl) as Ha. rewrite Nat.add_0_r in Ha.
    unfold iteration in Ha. rewrite Ha. cbn [runBody].
    destruct (body acc a) as [acc' | e] eqn:Eb.
    + replace (Z.of_nat p + 1)%Z with (Z.of_nat (S p)) by lia.
      apply IH; [exact Hi' | | ].
      * intros j v Hv. replace (S p + j) with (p + S j) by lia. now apply Hl.
      * destruct Hc as [[Hd Hlt] | [[e He] Hle]].
        -- left. cbn in Hd, Hlt. replace (S p + List.length l) with (p + S (List.length l)) by lia.
           split; [exact Hd | lia].
        -- right. cbn [runBody] in He. rewrite Eb in He. cbn in Hle.
           split; [now exists e | lia].
    + exists w'. now split.
Qed.

End ForOf.

(** The body of [length]: the counter after the walk, or the error. *)
Lemma runBody_count {T : Type} (max : Z) (e : Error) (l : list T) : forall c : Z,
  runBody (fun c (_ : T) => let c := (c + 1)%Z in
                            if (c >? max)%Z then Throws e else Normal c) l c
  = match l with
    | [] => Normal c
    | _ => if (c + Z.of_nat (List.length l) >? max)%Z then Throws e
           else Normal (c + Z.of_nat (List.length l))%Z
    end.
Proof.
  induction l as [ | a l IH]; intros c; [reflexivity | ].
  cbn [runBody]. cbv zeta.
  destruct (Z.gtb_spec (c + 1) max) as [Hgt | Hle].
  - destruct (Z.gtb_spec (c + Z.of_nat (List.length (a :: l))) max); [reflexivity | ].
    cbn [List.length] in *. lia.
  - rewrite IH. destruct l as [ | b l].
    + cbn [List.length]. destruct (Z.gtb_spec (c + Z.of_nat 1) max); [lia | ].
      f_equal.
    + replace (c + 1 + Z.of_nat (List.length (b :: l)))%Z
        with (c + Z.of_nat (List.length (a :: b :: l)))%Z by (cbn [List.length]; lia).
      reflexivity.
Qed.

(** The body of [reverse] and of [toArray]: the array and the counter
    after the walk, or the error. *)
Lemma runBody_collect {T : Type} (max : Z) (e : Error) (l : list T) : forall (arr : list T) (c : Z),
  runBody (fun '(arr, count) (val : T) =>
             let arr := arr ++ [val] in
             let count := (count + 1)%Z in
             if (count >? max)%Z then Throws e else Normal (arr, count)) l (arr, c)
  = match l with
    | [] => Normal (arr, c)
    | _ => if (c + Z.of_nat (List.length l) >? max)%Z then Throws e
           else Normal (arr ++ l, (c + Z.of_nat (List.length l))%Z)
    end.
Proof.
  induction l as [ | a l IH]; intros arr c; [reflexivity | ].
  cbn [runBody]. cbv zeta.
  destruct (Z.gtb_spec (c + 1) max) as [Hgt | Hle].
  - destruct (Z.gtb_spec (c + Z.of_nat (List.length (a :: l))) max); [reflexivity | ].
    cbn [List.length] in *. lia.
  - rewrite IH. destruct l as [ | b l].
    + cbn [List.length]. destruct (Z.gtb_spec (c + Z.of_nat 1) max); [lia | ].
      reflexivity.
    + replace (c + 1 + Z.of_nat (List.length (b :: l)))%Z
        with (c + Z.of_nat (List.length (a :: b :: l)))%Z by (cbn [List.length]; lia).
      rewrite <- app_assoc. reflexivity.
Qed.

Section Walks.
Context {W T : Type} `{Nilable T}.
Variable s : Seq W T.
Variable Inv : W -> Prop.
Variable g : Z -> Option T.
Hypothesis Hs : SeqSpec s everywhere Inv g.
Variable l : list T.
Variable max : option Z.
Variable fuel : nat.
Variable w : W.
Hypothesis Hi : Inv w.
Hypothesis Hl : Prefix g l.
Hypothesis Hc :
  (iteration g (List.length l) = Done /\ List.length l < fuel) \/
  (l <> [] /\ (cap max < Z.of_nat (List.length l))%Z /\ List.length l <= fuel).

Lemma walk_condition {A : Type} (body : A -> T -> Completion A) (acc : A) (e : Error) (v : A) :
  runBody body l acc = capped max e l v ->
  (iteration g (0 + List.length l) = Done /\ List.length l < fuel) \/
  ((exists e, runBody body l acc = Throws e) /\ List.length l <= fuel).
Proof.
  intros Hr. destruct Hc as [Hd | (Hne & Hgt & Hf)]; [now left | right].
  split; [ | exact Hf]. exists e. rewrite Hr. unfold capped.
  destruct l as [ | a l']; [contradiction | ].
  destruct (Z.gtb_spec (Z.of_nat (List.length (a :: l'))) (cap max)); [reflexivity | lia].
Qed.

Lemma length_walk :
  exists w', length s fuel max w
             = Some (attempt (capped max (mkError "Too large") l (Z.of_nat (List.length l))), w').
Proof.
  set (body := fun (c : Z) (_ : T) =>
                 let c := (c + 1)%Z in
                 if (c >? cap max)%Z then Throws (mkError "Too large") else Normal c).
  assert (Hr : runBody body l 0%Z
               = capped max (mkError "Too large") l (Z.of_nat (List.length l))).
  { unfold body. rewrite runBody_count. unfold capped. destruct l; reflexivity. }
  destruct (forOf_spec s Inv g Hs body l fuel 0 0%Z w Hi Hl
              (walk_condition body 0%Z _ _ Hr)) as (w' & E & _).
  cbn [Z.of_nat] in E. exists w'. unfold length. run. fold (cap max). fold body.
  now rewrite E, Hr.
Qed.

Lemma reverse_walk :
  exists w', reverse s fuel max w
             = Some (attempt (capped max
                        (mkError "Cannot reverse an unbounded or very large sequence") l
                        (fromArrayObj (rev l))), w').
Proof.
  set (e := mkError "Cannot reverse an unbounded or very large sequence").
  set (body := fun '(arr, count) (val : T) =>
                 let arr := arr ++ [val] in
                 let count := (count + 1)%Z in
                 if (count >? cap max)%Z then Throws e else Normal (arr, count)).
  assert (Hr : runBody body l ([], 0%Z) = capped max e l (l, Z.of_nat (List.length l))).
  { unfold body. rewrite runBody_collect. unfold capped. destruct l; reflexivity. }
  destruct (forOf_spec s Inv g Hs body l fuel 0 ([], 0%Z) w Hi Hl
              (walk_condition body ([], 0%Z) _ _ Hr)) as (w' & E & _).
  cbn [Z.of_nat] in E. exists w'. unfold reverse. run. fold (cap max). fold e. fold body.
  rewrite E, Hr. unfold capped. destruct l as [ | a l']; [reflexivity | ].
  now destruct (Z.of_nat (List.length (a :: l')) >? cap max)%Z.
Qed.

Lemma toArray_walk :
  exists w', toArray s fuel max w
             = Some (attempt (capped max
                        (mkError "Cannot convert an unbounded or very large sequence") l l), w').
Proof.
  set (e := mkError "Cannot convert an unbounded or very large sequence").
  set (body := fun '(arr, count) (val : T) =>
                 let arr := arr ++ [val] in
                 let count := (count + 1)%Z in
                 if (count >? cap max)%Z then Throws e else Normal (arr, count)).
  assert (Hr : runBody body l ([], 0%Z) = capped max e l (l, Z.of_nat (List.length l))).
  { unfold body. rewrite runBody_collect. unfold capped. destruct l; reflexivity. }
  destruct (forOf_spec s Inv g Hs body l fuel 0 ([], 0%Z) w Hi Hl
              (walk_condition body ([], 0%Z) _ _ Hr)) as (w' & E & _).
  cbn [Z.of_nat] in E. exists w'. unfold toArray. run. fold (cap max). fold e. fold body.
  rewrite E, Hr. unfold capped. destruct l as [ | a l']; [reflexivity | ].
  now destruct (Z.of_nat (List.length (a :: l')) >? cap max)%Z.
Qed.

End Walks.

Lemma fromArray_behaves {T : Type} `{Nilable T} (arr : list T) :
  Behaves (fromArray arr) (init tt) (denote (ofList arr)).
Proof.
  apply (create_behaves (fromArray_source arr) (fun _ => True)
           (fun c p => c = Nat.min p (List.length arr)) (ofList arr) tt).
  - apply fromArray_source_spec.
  - exact I.
Qed.

Lemma fromArray_Z_enumerates (arr : list Z) : Enumerates (denote (ofList arr)) arr.
Proof.
  pose proof (denote_ofList_enumerates arr) as He.
  rewrite visible_notnil in He; [exact He | ].
  apply Forall_forall. intros x _. reflexivity.
Qed.

Lemma length_example_failure (fuel : nat) :
  5 < fuel ->
  exists st, length (fromArray [1; 2; 3; 4; 5]%Z) fuel (Some 2%Z) (init tt)
             = Some (FAILURE (mkError "Too large"), st).
Proof.
  intros Hf. destruct (fromArray_behaves [1; 2; 3; 4; 5]%Z) as (Inv & Hi & Hs).
  destruct (length_walk _ Inv _ Hs [1; 2; 3; 4; 5]%Z (Some 2%Z) fuel (init tt) Hi
              (proj1 (fromArray_Z_enumerates _))) as (st & E).
  - right. split; [discriminate | cbn; lia].
  - now exists st.
Qed.

Lemma length_example_success (fuel : nat) :
  5 < fuel ->
  exists st, length (fromArray [1; 2; 3; 4; 5]%Z) fuel (Some 10%Z) (init tt)
             = Some (SUCCESS 5%Z, st).
Proof.
  intros Hf. destruct (fromArray_behaves [1; 2; 3; 4; 5]%Z) as (Inv & Hi & Hs).
  destruct (length_walk _ Inv _ Hs [1; 2; 3; 4; 5]%Z (Some 10%Z) fuel (init tt) Hi
              (proj1 (fromArray_Z_enumerates _))) as (st & E).
  - left. split; [exact (proj2 (fromArray_Z_enumerates _)) | cbn; lia].
  - now exists st.
Qed.

(** ** [chunk] and [window] *)

(** C6: [chunk(size)] and [window(size)] with [size <= 0] throw at the
    constructing call; with [size > 0] the call returns the new sequence.
    Either way the call is a pure completion: it runs no iterator and
    touches no store. *)
Theorem chunk_window_guard {W T : Type} `{Nilable T} (s : Seq W T) (size : Z) :
  ((size <= 0)%Z ->
   chunk s size = Throws (mkError "Chunk size must be greater than 0") /\
   window s size = Throws (mkError "Window size must be greater than 0")) /\
  ((0 < size)%Z ->
   chunk s size = Normal (create (chunk_source s size)) /\
   window s size = Normal (create (window_source s size))).
Proof.
  unfold chunk, window. destruct (Z.leb_spec size 0); split; intros Hs; try lia; now split.
Qed.

Lemma chunk_window_guard_witness :
  (chunk (fromArray [1; 2; 3]%Z) 0%Z = Throws (mkError "Chunk size must be greater than 0") /\
   window (fromArray [1; 2; 3]%Z) 0%Z = Throws (mkError "Window size must be greater than 0")) /\
  (chunk (fromArray [1; 2; 3]%Z) 2%Z = Normal (create (chunk_source (fromArray [1; 2; 3]%Z) 2%Z)) /\
   window (fromArray [1; 2; 3]%Z) 2%Z = Normal (create (window_source (fromArray [1; 2; 3]%Z) 2%Z))).
Proof.
  split.
  - apply (proj1 (chunk_window_guard (fromArray [1; 2; 3]%Z) 0%Z)). lia.
  - apply (proj2 (chunk_window_guard (fromArray [1; 2; 3]%Z) 2%Z)). lia.
Defined.

(** ** [zip] *)

Lemma SourceSpec_weaken {W C T : Type} (src : Source W C T) (dom : nat -> Prop)
  (Inv : W -> Prop) (At : C -> nat -> Prop) (r : nat -> IteratorResult T) :
  SourceSpec src everywhere Inv At r -> SourceSpec src dom Inv At r.
Proof.
  intros Hs. split.
  - exact (spec_fresh Hs).
  - intros c p w Hi Ha _ Hy. exact (spec_next Hs c p w Hi Ha I Hy).
Qed.

Section ZipSpec.
Context {Wa Wb T U : Type} `{Nilable T} `{Nilable U}.
Variable a : Seq Wa T.
Variable b : Seq Wb U.
Variable doma domb : nat -> Prop.
Variable InvA : Wa -> Prop.
Variable InvB : Wb -> Prop.
Variable ga : Z -> Option T.
Variable gb : Z -> Option U.
Hypothesis Ha : SeqSpec a doma InvA ga.
Hypothesis Hb : SeqSpec b domb InvB gb.
Hypothesis Hdom : forall p, (forall j, j < p -> zip_stream ga gb j <> Done) -> doma p /\ domb p.

(** A cursor of [zip] asks both sides for position [p], and for no
    position after the first at which one side is done. *)
Lemma zip_source_spec :
  SourceSpec (zip_source a b) everywhere
    (fun st => InvA (fst st) /\ InvB (snd st))
    (fun c p => fst c = Z.of_nat p /\ snd c = Z.of_nat p) (zip_stream ga gb).
Proof.
  split.
  - intros [wa wb] Hi. exists (0%Z, 0%Z), (wa, wb). run. now repeat split.
  - intros [la lb] p [wa wb] [Hia Hib] [Hla Hlb] _ Hy. cbn in Hia, Hib, Hla, Hlb. subst la lb.
    destruct (Hdom p Hy) as [Hda Hdb].
    destruct (spec_get Ha (Z.of_nat p) wa Hia) as (wa' & Ea & Hia').
    { right. now rewrite Nat2Z.id. }
    destruct (spec_get Hb (Z.of_nat p) wb Hib) as (wb' & Eb & Hib').
    { right. now rewrite Nat2Z.id. }
    exists ((Z.of_nat p + 1)%Z, (Z.of_nat p + 1)%Z), (wa', wb'). run.
    rewrite Ea, Eb. unfold zip_stream, iteration.
    split; [reflexivity | ]. split; [split; cbn; lia | now split].
Qed.

End ZipSpec.

Lemma nth_error_combine {T U : Type} (xs : list T) : forall (ys : list U) (p : nat) (x : T) (y : U),
  nth_error (combine xs ys) p = Some (x, y) ->
  nth_error xs p = Some x /\ nth_error ys p = Some y.
Proof.
  induction xs as [ | x0 xs IH]; intros [ | y0 ys] [ | p] x y Hp; try discriminate.
  - cbn in Hp. inv Hp. now split.
  - cbn in Hp. cbn [nth_error]. now apply IH.
Qed.

(** A stream that is a list of non-nil elements is enumerated as it is. *)
Lemma denote_enum {T : Type} `{Nilable T} (r : nat -> IteratorResult T) (l : list T) :
  Enum r l -> Forall (fun v => isNil v = false) l -> Enumerates (denote r) l.
Proof.
  intros He Hn. split.
  - intros p v Hv. unfold iteration.
    assert (Hp : p < List.length l) by (apply nth_error_Some; congruence).
    rewrite (denote_yield r p v).
    + rewrite Forall_forall in Hn. rewrite (Hn v); [reflexivity | ].
      eapply nth_error_In. exact Hv.
    + intros j Hj. apply (enum_not_done r l); [exact He | lia].
    + now apply (proj1 He).
  - unfold iteration.
    now rewrite (denote_done _ r _ (List.length l)); [ | lia | apply (proj2 He)].
Qed.

(** C3, as amended: [a.zip(b)] pairs the elements by position and ends as
    soon as one side is exhausted: when one of the two sequences is
    exhausted at position [k] and both have the elements [xs], [ys] at the
    positions before [k], spreading the zipped sequence gives the [k] pairs
    and the counting cursors of neither source have evaluated a position
    greater than [k].  (Position [k] itself is asked of both sides.) *)
Theorem zip_stops_at_first_exhaustion {Wa Ca Wb Cb T U : Type} `{Nilable T} `{Nilable U}
  (srcA : Source Wa Ca T) (srcB : Source Wb Cb U)
  (IA : Wa -> Prop) (AtA : Ca -> nat -> Prop) (ra : nat -> IteratorResult T)
  (IB : Wb -> Prop) (AtB : Cb -> nat -> Prop) (rb : nat -> IteratorResult U)
  (xs : list T) (ys : list U) (k fuel : nat) (wa : Wa) (wb : Wb) :
  SourceSpec srcA everywhere IA AtA ra -> SourceSpec srcB everywhere IB AtB rb ->
  IA wa -> IB wb ->
  Prefix (denote ra) xs -> Prefix (denote rb) ys ->
  List.length xs = k -> List.length ys = k ->
  iteration (denote ra) k = Done \/ iteration (denote rb) k = Done ->
  k < fuel ->
  exists cz ca loga wa' cb logb wb',
    toArrayUnsafe fuel (zip (create (counted srcA)) (create (counted srcB)))
      (init (init ([], wa), init ([], wb)))
    = Some (combine xs ys, (cz, ((ca, (loga, wa')), (cb, (logb, wb'))))) /\
    Forall (fun p => p <= k) loga /\ Forall (fun p => p <= k) logb.
Proof.
  intros Hsa Hsb Hia Hib Hxs Hys Hlx Hly Hex Hf.
  set (domk := fun p => p <= k).
  assert (Hdown : downward domk) by (intros p q Hq Hp; unfold domk in *; lia).
  pose proof (create_spec (counted srcA) domk _ _ ra Hdown
                (counted_spec srcA domk IA AtA ra (SourceSpec_weaken _ domk _ _ _ Hsa))) as Ha.
  pose proof (create_spec (counted srcB) domk _ _ rb Hdown
                (counted_spec srcB domk IB AtB rb (SourceSpec_weaken _ domk _ _ _ Hsb))) as Hb.
  assert (Hk : zip_stream (denote ra) (denote rb) k = Done).
  { unfold zip_stream. destruct Hex as [-> | ->]; [reflexivity | ].
    now destruct (iteration (denote ra) k). }
  assert (Hdom : forall p, (forall j, j < p -> zip_stream (denote ra) (denote rb) j <> Done) ->
                           domk p /\ domk p).
  { intros p Hy. unfold domk. destruct (le_gt_dec p k) as [Hle | Hgt]; [now split | ].
    exfalso. exact (Hy k Hgt Hk). }
  pose proof (create_spec _ everywhere _ _ _ everywhere_downward
                (zip_source_spec _ _ domk domk _ _ _ _ Ha Hb Hdom)) as Hz.
  assert (Hen : Enumerates (denote (zip_stream (denote ra) (denote rb))) (combine xs ys)).
  { apply denote_enum.
    - split.
      + intros p [x y] Hp. apply nth_error_combine in Hp. destruct Hp as [Hx Hy].
        unfold zip_stream. now rewrite (Hxs p x Hx), (Hys p y Hy).
      + rewrite length_combine, Hlx, Hly, Nat.min_id. exact Hk.
    - apply Forall_forall. intros x _. reflexivity. }
  destruct (toArrayUnsafe_spec _ everywhere _ _ (combine xs ys) fuel
              (init (init ([], wa), init ([], wb))) Hz Hen) as (st & E & Hst).
  - intros p _. exact I.
  - rewrite length_combine, Hlx, Hly, Nat.min_id. exact Hf.
  - apply init_CacheInv. split; cbn [fst snd]; apply init_CacheInv; cbn; now split.
  - destruct st as [cz [[ca [loga wa']] [cb [logb wb']]]].
    exists cz, ca, loga, wa', cb, logb, wb'. split; [exact E | ].
    destruct Hst as [[[[Hla _] _] [[Hlb _] _]] _]. cbn in Hla, Hlb. now split.
Qed.

Lemma zip_stops_at_first_exhaustion_witness :
  exists cz ca loga wa' cb logb wb',
    toArrayUnsafe 2 (zip (create (counted (fromArray_source [1]%Z)))
                         (create (counted (fromArray_source [10; 20; 30]%Z))))
      (init (init ([], tt), init ([], tt)))
    = Some (combine [1]%Z [10]%Z, (cz, ((ca, (loga, wa')), (cb, (logb, wb'))))) /\
    Forall (fun p => p <= 1) loga /\ Forall (fun p => p <= 1) logb.
Proof.
  apply (zip_stops_at_first_exhaustion
           (fromArray_source [1]%Z) (fromArray_source [10; 20; 30]%Z)
           (fun _ => True) (fun c p => c = Nat.min p 1) (ofList [1]%Z)
           (fun _ => True) (fun c p => c = Nat.min p 3) (ofList [10; 20; 30]%Z)
           [1]%Z [10]%Z 1 2 tt tt).
  - apply (fromArray_source_spec [1]%Z everywhere).
  - apply (fromArray_source_spec [10; 20; 30]%Z everywhere).
  - exact I.
  - exact I.
  - intros [ | p] v Hv; cbn in Hv; [ | destruct p; discriminate]. now inv Hv.
  - intros [ | p] v Hv; cbn in Hv; [ | destruct p; discriminate]. now inv Hv.
  - reflexivity.
  - reflexivity.
  - left. reflexivity.
  - lia.
Defined.

(** C3, as stated, fails: with [a] exhausted at position 1, spreading
    [a.zip(b)] evaluates position 1 of the source of [b]. *)
Lemma zip_counterexample :
  ~ (forall (la lb : list Z) (fuel : nat) out cz ca loga cb logb,
       List.length la <= List.length lb ->
       toArrayUnsafe fuel (zip (create (counted (fromArray_source la)))
                               (create (counted (fromArray_source lb))))
         (init (init ([], tt), init ([], tt)))
       = Some (out, (cz, ((ca, (loga, tt)), (cb, (logb, tt))))) ->
       Forall (fun p => p < List.length la) logb).
Proof.
  intros Hc.
  specialize (Hc [1]%Z [10; 20; 30]%Z 2 [(1, 10)]%Z [(1, 10)]%Z [1]%Z [0; 0; 1]
                 [10; 20]%Z [0; 0; 1]).
  assert (Hf : Forall (fun p => p < 1) [0; 0; 1]) by (apply Hc; [cbn; lia | reflexivity]).
  rewrite Forall_forall in Hf. specialize (Hf 1). cbn in Hf. lia.
Qed.

(** ** [sliceBy] *)

Lemma sliceBy_spec_scan {T : Type} (fn : T -> bool) (rest : list T) : forall bucket,
  sliceBy_spec fn rest bucket
  = match scan fn rest bucket with
    | (true, b, _) => match b with [] => [] | _ => [b] end
    | (false, b, r) => b :: sliceBy_spec fn r []
    end.
Proof.
  induction rest as [ | v r IH]; intros bucket; cbn [sliceBy_spec scan]; [reflexivity | ].
  destruct (fn v); [reflexivity | apply IH].
Qed.

Lemma skipn_cons_inv {T : Type} (l : list T) : forall (p : nat) (x : T) (t : list T),
  skipn p l = x :: t -> nth_error l p = Some x /\ skipn (S p) l = t.
Proof.
  induction l as [ | a l IH]; intros [ | p] x t Hs; try discriminate.
  - cbn in Hs. inv Hs. now split.
  - cbn [skipn] in Hs. cbn [nth_error]. rewrite skipn_cons. now apply IH.
Qed.

Section SliceBySpec.
Context {W T : Type} `{Nilable T}.
Variable s : Seq W T.
Variable Inv : W -> Prop.
Variable g : Z -> Option T.
Hypothesis Hs : SeqSpec s everywhere Inv g.
Variable l : list T.
Hypothesis Hl : Enumerates g l.
Variable fn : T -> bool.
Variable fuel : nat.
Hypothesis Hfuel : List.length l < fuel.

Lemma sliceBy_next_spec (rest : list T) : forall (pre bucket : list T) (k : nat) (w : W),
  l = pre ++ rest -> Inv w -> List.length rest < k ->
  exists it' w',
    sliceBy_next s k fn (Z.of_nat (List.length pre)) bucket w
      = Some ((fst (fst (scan fn rest bucket)), it', snd (fst (scan fn rest bucket))), w') /\
    Inv w' /\
    (fst (fst (scan fn rest bucket)) = false ->
     exists pre', l = pre' ++ snd (scan fn rest bucket) /\ it' = Z.of_nat (List.length pre')).
Proof.
  induction rest as [ | v r IH]; intros pre bucket k w Hpre Hi Hk.
  - destruct k as [ | k]; [cbn in Hk; lia | ].
    destruct (spec_get Hs (Z.of_nat (List.length pre)) w Hi (allowed_everywhere _)) as (w' & E & Hi').
    cbn [sliceBy_next scan fst snd]. run. rewrite E.
    rewrite app_nil_r in Hpre. subst pre.
    pose proof (proj2 Hl) as Hd. unfold iteration in Hd. rewrite Hd.
    exists (Z.of_nat (List.length l) + 1)%Z, w'. split; [reflexivity | ].
    split; [exact Hi' | discriminate].
  - destruct k as [ | k]; [cbn in Hk; lia | ].
    destruct (spec_get Hs (Z.of_nat (List.length pre)) w Hi (allowed_everywhere _)) as (w' & E & Hi').
    cbn [sliceBy_next scan]. run. rewrite E.
    assert (Hv : nth_error l (List.length pre) = Some v).
    { rewrite Hpre, nth_error_app2 by lia. now rewrite Nat.sub_diag. }
    pose proof (proj1 Hl _ _ Hv) as Hy. unfold iteration in Hy. rewrite Hy.
    destruct (fn v) eqn:Ef.
    + cbn [fst snd]. exists (Z.of_nat (List.length pre) + 1)%Z, w'.
      split; [reflexivity | ]. split; [exact Hi' | ]. intros _.
      exists (pre ++ [v]). split.
      * now rewrite <- app_assoc.
      * rewrite length_app. cbn. lia.
    + replace (Z.of_nat (List.length pre) + 1)%Z with (Z.of_nat (List.length (pre ++ [v])))
        by (rewrite length_app; cbn; lia).
      apply IH; [now rewrite <- app_assoc | exact Hi' | cbn in Hk; lia].
Qed.

(** A cursor of [sliceBy] produces the slices of the specification. *)
Lemma sliceBy_source_spec :
  SourceSpec (sliceBy_source s fuel fn) everywhere Inv
    (fun c p =>
       if snd c then List.length (sliceBy_spec fn l []) <= p
       else exists pre rest, l = pre ++ rest /\ fst c = Z.of_nat (List.length pre) /\
                             skipn p (sliceBy_spec fn l []) = sliceBy_spec fn rest [])
    (ofList (List.map fromArrayObj (sliceBy_spec fn l []))).
Proof.
  split.
  - intros w Hi. exists (0%Z, false), w. cbn [fresh sliceBy_source]. run.
    split; [reflexivity | ]. split; [ | exact Hi]. cbn [snd fst].
    exists [], l. now repeat split.
  - intros [it done] p w Hi Ha _ _. cbn [snd fst] in Ha. cbn [next sliceBy_source].
    unfold ofList. rewrite nth_error_map.
    destruct done.
    + exists (it, true), w. run.
      replace (nth_error (sliceBy_spec fn l []) p) with (@None (list T))
        by (symmetry; now apply nth_error_None).
      split; [reflexivity | ]. split; [cbn; lia | exact Hi].
    + destruct Ha as (pre & rest & Hpre & -> & Hskip).
      destruct (sliceBy_next_spec rest pre [] fuel w Hpre Hi) as (it' & w' & E & Hi' & Hit).
      { assert (List.length l = List.length pre + List.length rest)
          by (rewrite Hpre; apply length_app). lia. }
      run. rewrite E. rewrite (sliceBy_spec_scan fn rest []) in Hskip.
      destruct (scan fn rest []) as [[d b] rr]. cbn [fst snd] in *.
      destruct d.
      * destruct b as [ | b0 b].
        -- cbn [andb List.length Nat.eqb].
           assert (Hlen : List.length (sliceBy_spec fn l []) <= p).
           { pose proof (length_skipn p (sliceBy_spec fn l [])) as Hsk.
             rewrite Hskip in Hsk. cbn in Hsk. lia. }
           replace (nth_error (sliceBy_spec fn l []) p) with (@None (list T))
             by (symmetry; now apply nth_error_None).
           exists (it', true), w'. split; [reflexivity | ]. split; [cbn; lia | exact Hi'].
        -- cbn [andb List.length Nat.eqb].
           destruct (skipn_cons_inv _ _ _ _ Hskip) as [Hn Hs'].
           rewrite Hn. cbn [option_map].
           exists (it', true), w'. split; [reflexivity | ]. split; [ | exact Hi'].
           cbn [snd]. pose proof (length_skipn (S p) (sliceBy_spec fn l [])) as Hsk.
           rewrite Hs' in Hsk. cbn in Hsk. lia.
      * cbn [andb].
        destruct (skipn_cons_inv _ _ _ _ Hskip) as [Hn Hs'].
        rewrite Hn. cbn [option_map].
        destruct (Hit eq_refl) as (pre' & Hpre' & ->).
        exists (Z.of_nat (List.length pre'), false), w'. split; [reflexivity | ].
        split; [ | exact Hi']. cbn [snd fst]. now exists pre', rr.
Qed.

End SliceBySpec.

Lemma sliceBy_spec_length {T : Type} (fn : T -> bool) (l : list T) : forall b,
  List.length (sliceBy_spec fn l b)
  <= List.length l + match b with [] => 0 | _ => 1 end.
Proof.
  induction l as [ | v l IH]; intros b; cbn [sliceBy_spec].
  - destruct b; cbn; lia.
  - destruct (fn v).
    + cbn [List.length]. specialize (IH []). cbn in IH. lia.
    + specialize (IH (b ++ [v])). destruct b; cbn in *; lia.
Qed.

Lemma sliceBy_spec_slices {T : Type} (fn : T -> bool) (l : list T) : forall b sl,
  In sl (sliceBy_spec fn l b) ->
  (forall x, In x sl -> In x b \/ In x l) /\ List.length sl <= List.length b + List.length l.
Proof.
  induction l as [ | v l IH]; intros b sl Hin; cbn [sliceBy_spec] in Hin.
  - destruct b as [ | b0 b]; [contradiction | ].
    destruct Hin as [<- | []]. split; [now left | lia].
  - destruct (fn v).
    + destruct Hin as [<- | Hin]; [split; [now left | lia] | ].
      destruct (IH [] sl Hin) as [Hx Hlen]. split.
      * intros x Hxs. destruct (Hx x Hxs) as [[] | Hxl]. right. now right.
      * cbn in *. lia.
    + destruct (IH (b ++ [v]) sl Hin) as [Hx Hlen]. split.
      * intros x Hxs. destruct (Hx x Hxs) as [Hxb | Hxl]; [ | right; now right].
        apply in_app_or in Hxb. destruct Hxb as [Hxb | [<- | []]]; [now left | right; now left].
      * rewrite length_app in Hlen. cbn in *. lia.
Qed.

Lemma sliceBy_spec_concat {T : Type} (fn : T -> bool) (l : list T) : forall b,
  List.concat (sliceBy_spec fn l b) = b ++ filter (fun v => negb (fn v)) l.
Proof.
  induction l as [ | v l IH]; intros b; cbn [sliceBy_spec filter].
  - destruct b; cbn; [reflexivity | now rewrite !app_nil_r].
  - destruct (fn v); cbn [negb List.concat].
    + now rewrite IH.
    + now rewrite IH, <- app_assoc.
Qed.

Lemma sliceBy_spec_no_boundary {T : Type} (fn : T -> bool) (l : list T) : forall b,
  (forall v, In v l -> fn v = false) ->
  sliceBy_spec fn l b = match b ++ l with [] => [] | _ => [b ++ l] end.
Proof.
  induction l as [ | v l IH]; intros b Hn; cbn [sliceBy_spec].
  - rewrite app_nil_r. reflexivity.
  - rewrite (Hn v) by now left. rewrite IH by (intros x Hx; apply Hn; now right).
    now rewrite <- app_assoc.
Qed.

Lemma ofList_enum {T : Type} (l : list T) : Enum (ofList l) l.
Proof.
  split.
  - intros p v Hv. unfold ofList. now rewrite Hv.
  - unfold ofList. now replace (nth_error l (List.length l)) with (@None T)
      by (symmetry; apply nth_error_None; lia).
Qed.

Lemma materialize_fromArrayObj {T : Type} `{Nilable T} (arr : list T) (fuel : nat) :
  Forall (fun v => isNil v = false) arr -> List.length arr < fuel ->
  materialize fuel (fromArrayObj arr) = Some arr.
Proof.
  intros Hn Hf. unfold materialize, fromArrayObj. cbn [handle state store].
  pose proof (visible_notnil arr Hn) as Hv.
  destruct (fromArray_toArrayUnsafe arr fuel) as (st & E); [now rewrite Hv | ].
  now rewrite E, Hv.
Qed.

Lemma enumerates_notnil {W T : Type} `{Nilable T} (s : Seq W T) (Inv : W -> Prop)
  (g : Z -> Option T) (l : list T) :
  SeqSpec s everywhere Inv g -> Enumerates g l -> Forall (fun v => isNil v = false) l.
Proof.
  intros Hs [Hl _]. apply Forall_forall. intros v Hv.
  destruct (In_nth_error l v Hv) as [p Hp]. specialize (Hl p v Hp).
  unfold iteration in Hl. destruct (g (Z.of_nat p)) as [x | ] eqn:Eg; [ | discriminate].
  cbn in Hl. inv Hl. exact (spec_notnil Hs _ _ Eg).
Qed.

(** Spreading [sliceBy(fn)] and each of its slices gives the slices of the
    specification. *)
Lemma sliceBy_refines {W T : Type} `{Nilable T} (s : Seq W T) (w : W) (g : Z -> Option T)
  (l : list T) (fn : T -> bool) (fuel : nat) :
  Behaves s w g -> Enumerates g l -> List.length l < fuel ->
  exists objs st,
    toArrayUnsafe fuel (sliceBy s fuel fn) (init w) = Some (objs, st) /\
    List.map (materialize fuel) objs = List.map Some (sliceBy_spec fn l []).
Proof.
  intros (Inv & Hi & Hs) Hl Hf.
  pose proof (create_spec _ everywhere _ _ _ everywhere_downward
                (sliceBy_source_spec s Inv g Hs l Hl fn fuel Hf)) as Hsl.
  pose proof (sliceBy_spec_length fn l []) as Hlen. cbn in Hlen.
  destruct (toArrayUnsafe_spec (sliceBy s fuel fn) everywhere _ _
              (List.map fromArrayObj (sliceBy_spec fn l [])) fuel (init w) Hsl) as (st & E & _).
  - apply denote_enum; [apply ofList_enum | ].
    apply Forall_forall. intros x _. reflexivity.
  - intros p _. exact I.
  - rewrite length_map. lia.
  - now apply init_CacheInv.
  - exists (List.map fromArrayObj (sliceBy_spec fn l [])), st. split; [exact E | ].
    rewrite map_map. apply map_ext_in. intros b Hb.
    destruct (sliceBy_spec_slices fn l [] b Hb) as [Hx Hbl]. cbn in Hbl.
    apply materialize_fromArrayObj; [ | lia].
    pose proof (enumerates_notnil s Inv g l Hs Hl) as Hn. rewrite Forall_forall in Hn.
    apply Forall_forall. intros x Hxb. apply Hn.
    destruct (Hx x Hxb) as [[] | Hxl]. exact Hxl.
Qed.

(** C5: spreading [sliceBy(pred)] over a sequence that enumerates [l], and
    then each slice, gives [sliceBy_spec pred l]: the source split at every
    element where [pred] holds.  The slices together are the elements where
    [pred] does not hold, in order (a boundary is in no slice); a leading
    boundary gives an empty first slice; the empty sequence gives no slice;
    a non-empty source without boundaries gives the one slice of all its
    elements.  [[1,0,2,0,3]] split at zeros is [[1],[2],[3]] and [[0,1,2]]
    is [[],[1,2]]. *)
Theorem sliceBy_splits :
  (forall (W T : Type) (N : Nilable T) (s : Seq W T) (w : W) (g : Z -> Option T)
          (l : list T) (pred : T -> bool) (fuel : nat),
     Behaves s w g -> Enumerates g l -> List.length l < fuel ->
     exists objs st,
       toArrayUnsafe fuel (sliceBy s fuel pred) (init w) = Some (objs, st) /\
       List.map (materialize fuel) objs = List.map Some (sliceBy_spec pred l [])) /\
  (forall (T : Type) (pred : T -> bool) (l : list T),
     List.concat (sliceBy_spec pred l []) = filter (fun v => negb (pred v)) l /\
     (forall v l', l = v :: l' -> pred v = true ->
                   sliceBy_spec pred l [] = [] :: sliceBy_spec pred l' []) /\
     (l = [] -> sliceBy_spec pred l [] = []) /\
     (l <> [] -> (forall v, In v l -> pred v = false) -> sliceBy_spec pred l [] = [l])) /\
  (forall fuel, 5 < fuel ->
     exists objs st,
       toArrayUnsafe fuel (sliceBy (fromArray [1; 0; 2; 0; 3]%Z) fuel (fun x => (x =? 0)%Z))
         (init (init tt)) = Some (objs, st) /\
       List.map (materialize fuel) objs = [Some [1]; Some [2]; Some [3]]%Z) /\
  (forall fuel, 3 < fuel ->
     exists objs st,
       toArrayUnsafe fuel (sliceBy (fromArray [0; 1; 2]%Z) fuel (fun x => (x =? 0)%Z))
         (init (init tt)) = Some (objs, st) /\
       List.map (materialize fuel) objs = [Some []; Some [1; 2]]%Z).
Proof.
  split; [ | split; [ | split]].
  - intros W T N s w g l pred fuel. apply sliceBy_refines.
  - intros T pred l. split; [ | split; [ | split]].
    + apply (sliceBy_spec_concat pred l []).
    + intros v l' -> Hv. cbn [sliceBy_spec]. now rewrite Hv.
    + now intros ->.
    + intros Hne Hn. rewrite (sliceBy_spec_no_boundary pred l [] Hn). cbn [app].
      destruct l; [contradiction | reflexivity].
  - intros fuel Hf.
    apply (sliceBy_refines (fromArray [1; 0; 2; 0; 3]%Z) (init tt) _ [1; 0; 2; 0; 3]%Z
             (fun x => (x =? 0)%Z) fuel (fromArray_behaves _) (fromArray_Z_enumerates _)).
    cbn. lia.
  - intros fuel Hf.
    apply (sliceBy_refines (fromArray [0; 1; 2]%Z) (init tt) _ [0; 1; 2]%Z
             (fun x => (x =? 0)%Z) fuel (fromArray_behaves _) (fromArray_Z_enumerates _)).
    cbn. lia.
Qed.

Lemma sliceBy_splits_witness :
  exists objs st,
    toArrayUnsafe 4 (sliceBy (fromArray [1; 0; 2]%Z) 4 (fun x => (x =? 0)%Z)) (init (init tt))
      = Some (objs, st) /\
    List.map (materialize 4) objs
      = List.map Some (sliceBy_spec (fun x => (x =? 0)%Z) [1; 0; 2]%Z []).
Proof.
  apply (proj1 sliceBy_splits _ _ _ (fromArray [1; 0; 2]%Z) (init tt)
           (denote (ofList [1; 0; 2]%Z)) [1; 0; 2]%Z (fun x => (x =? 0)%Z) 4
           (fromArray_behaves _) (fromArray_Z_enumerates _)).
  cbn. lia.
Defined.

(** ** [flatMap] *)

Lemma obj_get_spec {T : Type} `{Nilable T} (o : SeqObj T) (g : Z -> Option T) (idx : Z) :
  ObjBehaves o g -> exists o', obj_get o idx = Some (g idx, o') /\ ObjBehaves o' g.
Proof.
  intros Hb. destruct (behaves_get _ _ _ idx Hb) as (st' & E & Hb').
  exists {| handle := handle o; state := st' |}. unfold obj_get. rewrite E. now split.
Qed.

Lemma behaves_notnil {W T : Type} `{Nilable T} (s : Seq W T) (w : W) (g : Z -> Option T)
  (l : list T) :
  Behaves s w g -> Enumerates g l -> Forall (fun v => isNil v = false) l.
Proof. intros (Inv & _ & Hs). now apply (enumerates_notnil s Inv). Qed.

Lemma flat_map_middle {T U : Type} (f : T -> list U) (l : list T) (n : nat) (x : T) :
  nth_error l n = Some x ->
  flat_map f l = flat_map f (firstn n l) ++ f x ++ flat_map f (skipn (S n) l).
Proof.
  intros Hx. rewrite <- (firstn_skipn_middle n l Hx) at 1.
  now rewrite flat_map_app.
Qed.

Lemma base_S {T U : Type} (f : T -> list U) (l : list T) (n : nat) (x : T) :
  nth_error l n = Some x -> base f l (S n) = base f l n + List.length (f x).
Proof.
  intros Hx. unfold base. rewrite <- (firstn_snoc l n x Hx), flat_map_app, length_app.
  cbn. now rewrite app_nil_r.
Qed.

Lemma base_all {T U : Type} (f : T -> list U) (l : list T) :
  base f l (List.length l) = List.length (flat_map f l).
Proof. unfold base. now rewrite firstn_all. Qed.

Lemma nth_error_flat_map {T U : Type} (f : T -> list U) (l : list T) (n jj : nat) (x : T) :
  nth_error l n = Some x -> jj < List.length (f x) ->
  nth_error (flat_map f l) (base f l n + jj) = nth_error (f x) jj.
Proof.
  intros Hx Hj. rewrite (flat_map_middle f l n x Hx). unfold base.
  rewrite nth_error_app2 by lia.
  replace (List.length (flat_map f (firstn n l)) + jj - List.length (flat_map f (firstn n l)))
    with jj by lia.
  now rewrite nth_error_app1.
Qed.

Section FlatMapSpec.
Context {W T U : Type} `{Nilable T} `{Nilable U}.
Variable s : Seq W T.
Variable Inv : W -> Prop.
Variable g : Z -> Option T.
Hypothesis Hs : SeqSpec s everywhere Inv g.
Variable l : list T.
Hypothesis Hl : Enumerates g l.
Variable fn : T -> SeqObj U.
Variable f : T -> list U.
Hypothesis Hfn : forall x, In x l -> exists gx, ObjBehaves (fn x) gx /\ Enumerates gx (f x).

Lemma flatMap_inner_spec (k : nat) : forall (n jj p : nat) (x : T) (o : SeqObj U)
  (gx : Z -> Option U) (w : W),
  nth_error l n = Some x -> ObjBehaves o gx -> Enumerates gx (f x) ->
  jj <= List.length (f x) -> p = base f l n + jj ->
  List.length l - n <= k -> Inv w ->
  exists c' w',
    flatMap_next s fn k (Z.of_nat (S n)) (Some (o, Z.of_nat jj)) w
    = Some ((ofList (flat_map f l) p, c'), w') /\
    flatMap_At l f c' (S p) /\ Inv w'.
Proof.
  induction k as [ | k IH]; intros n jj p x o gx w Hx Ho Hgx Hjj Hp Hk Hi.
  - assert (n < List.length l) by (apply nth_error_Some; congruence). lia.
  - cbn [flatMap_next]. unfold bind at 1. unfold bind at 1. unfold liftOpt at 1.
    unfold obj_next. destruct (obj_get_spec o gx (Z.of_nat jj) Ho) as (o' & Eo & Ho').
    rewrite Eo. cbn [ret].
    destruct (Nat.lt_ge_cases jj (List.length (f x))) as [Hlt | Hge].
    + destruct (nth_error (f x) jj) as [v | ] eqn:Ev; [ | apply nth_error_None in Ev; lia].
      pose proof (proj1 Hgx _ _ Ev) as Hy. unfold iteration in Hy. rewrite Hy.
      exists (Z.of_nat (S n), Some (o', (Z.of_nat jj + 1)%Z)), w.
      split; [ | split; [ | exact Hi]].
      * unfold ret, ofList. subst p. now rewrite (nth_error_flat_map f l n jj x Hx Hlt), Ev.
      * right. right. exists n, x, o', (S jj), gx. cbn [fst snd].
        split; [do 2 f_equal; lia | ].
        split; [reflexivity | ]. split; [exact Hx | ]. split; [exact Ho' | ].
        split; [exact Hgx | ]. split; lia.
    + assert (jj = List.length (f x)) by lia. subst jj.
      pose proof (proj2 Hgx) as Hd. unfold iteration in Hd. rewrite Hd.
      assert (Hp' : p = base f l (S n)) by (rewrite (base_S f l n x Hx); exact Hp).
      assert (Hn : n < List.length l) by (apply nth_error_Some; congruence).
      destruct (spec_get Hs (Z.of_nat (S n)) w Hi (allowed_everywhere _)) as (w' & E & Hi').
      cbn [next iterator]. unfold bind at 1. unfold bind at 1. rewrite E. cbn [ret].
      destruct (nth_error l (S n)) as [x' | ] eqn:Ex'.
      * pose proof (proj1 Hl _ _ Ex') as Hy. unfold iteration in Hy. rewrite Hy.
        assert (Hin : In x' l) by (eapply nth_error_In; exact Ex').
        destruct (Hfn x' Hin) as (gx' & Ho'' & Hgx').
        assert (HSn : S n < List.length l) by (apply nth_error_Some; congruence).
        replace (Z.of_nat (S n) + 1)%Z with (Z.of_nat (S (S n))) by lia.
        apply (IH (S n) 0 p x' (fn x') gx' w' Ex' Ho'' Hgx'); [lia | lia | lia | exact Hi'].
      * apply nth_error_None in Ex'. assert (S n = List.length l) by lia.
        pose proof (proj2 Hl) as Hdl. unfold iteration in Hdl.
        rewrite H1 in *. rewrite Hdl.
        exists ((Z.of_nat (List.length l) + 1)%Z, None), w'.
        split; [ | split; [ | exact Hi']].
        -- unfold ret, ofList. rewrite base_all in Hp'. rewrite Hp'.
           now replace (nth_error (flat_map f l) (List.length (flat_map f l))) with (@None U)
             by (symmetry; apply nth_error_None; lia).
        -- left. rewrite base_all in Hp'. lia.
Qed.

(** A cursor of [flatMap] produces, for each outer element in order, the
    elements of [fn(outer)]. *)
Lemma flatMap_source_spec (fuel : nat) :
  List.length l + 1 < fuel ->
  SourceSpec (flatMap_source s fn fuel) everywhere Inv (flatMap_At l f) (ofList (flat_map f l)).
Proof.
  intros Hfuel. split.
  - intros w Hi. exists (0%Z, None), w. cbn [fresh flatMap_source iterator]. run.
    split; [reflexivity | ]. split; [ | exact Hi]. right. left. now repeat split.
  - intros [outer inner] p w Hi Ha _ Hy. cbn [next flatMap_source].
    destruct Ha as [Hgt | [(Hin & Hout & Hp) | Hb]].
    + exfalso. apply (Hy (List.length (flat_map f l)) Hgt). unfold ofList.
      now replace (nth_error (flat_map f l) (List.length (flat_map f l))) with (@None U)
        by (symmetry; apply nth_error_None; lia).
    + cbn [fst snd] in Hin, Hout. subst inner outer p.
      destruct fuel as [ | k]; [lia | ].
      cbn [flatMap_next]. unfold bind at 1. cbn [ret].
      destruct (spec_get Hs (Z.of_nat 0) w Hi (allowed_everywhere _)) as (w' & E & Hi').
      cbn [Z.of_nat] in E.
      cbn [next iterator]. unfold bind at 1. unfold bind at 1. rewrite E. cbn [ret].
      destruct (nth_error l 0) as [x | ] eqn:Ex.
      * pose proof (proj1 Hl _ _ Ex) as Hyx. unfold iteration in Hyx. cbn [Z.of_nat] in Hyx.
        rewrite Hyx.
        assert (Hin : In x l) by (eapply nth_error_In; exact Ex).
        destruct (Hfn x Hin) as (gx & Ho & Hgx).
        apply (flatMap_inner_spec k 0 0 0 x (fn x) gx w' Ex Ho Hgx);
          [lia | reflexivity | lia | exact Hi'].
      * assert (Hnil : l = []) by (destruct l; [reflexivity | discriminate]).
        pose proof (proj2 Hl) as Hdl. unfold iteration in Hdl. rewrite Hnil in Hdl.
        cbn in Hdl. rewrite Hdl. exists ((0 + 1)%Z, None), w'.
        split; [now rewrite Hnil | ]. split; [ | exact Hi']. left. rewrite Hnil. cbn. lia.
    + destruct Hb as (n & x & o & jj & gx & Hin & Hout & Hx & Ho & Hgx & Hjj & Hp).
      cbn [fst snd] in Hin, Hout. subst inner outer.
      assert (Hn : n < List.length l) by (apply nth_error_Some; congruence).
      apply (flatMap_inner_spec fuel n jj p x o gx w Hx Ho Hgx Hjj Hp); [lia | exact Hi].
Qed.

End FlatMapSpec.

(** Spreading [flatMap(fn)] gives, for each outer element in order, all the
    elements of [fn(outer)]. *)
Lemma flatMap_enumerates {W T U : Type} `{Nilable T} `{Nilable U} (s : Seq W T) (w : W)
  (g : Z -> Option T) (l : list T) (fn : T -> SeqObj U) (f : T -> list U) (fuel : nat) :
  Behaves s w g -> Enumerates g l ->
  (forall x, In x l -> exists gx, ObjBehaves (fn x) gx /\ Enumerates gx (f x)) ->
  List.length l + 1 < fuel -> List.length (flat_map f l) < fuel ->
  exists st, toArrayUnsafe fuel (flatMap s fn fuel) (init w) = Some (flat_map f l, st).
Proof.
  intros (Inv & Hi & Hs) Hl Hfn Hf1 Hf2.
  pose proof (create_spec _ everywhere _ _ _ everywhere_downward
                (flatMap_source_spec s Inv g Hs l Hl fn f Hfn fuel Hf1)) as Hfm.
  destruct (toArrayUnsafe_spec (flatMap s fn fuel) everywhere _ _ (flat_map f l) fuel (init w) Hfm)
    as (st & E & _).
  - apply denote_enum; [apply ofList_enum | ].
    apply Forall_forall. intros u Hu. apply in_flat_map in Hu. destruct Hu as (x & Hx & Hu).
    destruct (Hfn x Hx) as (gx & Ho & Hgx).
    pose proof (behaves_notnil _ _ _ _ Ho Hgx) as Hn. rewrite Forall_forall in Hn. now apply Hn.
  - intros p _. exact I.
  - exact Hf2.
  - now apply init_CacheInv.
  - now exists st.
Qed.

(** Pulling the first result of [flatMap(fn)] asks the outer sequence for
    its first element and for nothing else. *)
Lemma flatMap_head_lazy {W T U : Type} `{Nilable U} (s : Seq W T) (w w1 : W) (x : T)
  (fn : T -> SeqObj U) (o' : SeqObj U) (u : U) (fuel : nat) :
  get s 0%Z w = Some (SOME x, w1) ->
  obj_get (fn x) 0%Z = Some (SOME u, o') ->
  isNil u = false -> 1 < fuel ->
  get (flatMap s fn fuel) 0%Z (init w) = Some (SOME u, ([u], w1)).
Proof.
  intros Hg Ho Hu Hf. destruct fuel as [ | [ | k]]; try lia.
  unfold flatMap, init. cbn [get create create_get List.length].
  change (Z.to_nat (0 + 1 - Z.of_nat 0)) with 1.
  cbn -[obj_get]. unfold bind, ret. cbn -[obj_get].
  rewrite Hg. cbn -[obj_get]. unfold bind, liftOpt, ret. rewrite Ho. cbn.
  unfold index. cbn. now rewrite Hu.
Qed.

(** C7: spreading [flatMap(fn)] over a sequence that enumerates [l] gives,
    for each outer element in order, all the elements of [fn(outer)] before
    those of the next; pulling only the first result asks the outer
    sequence for its first element and leaves it in the state that one
    [get(0)] leaves it in (a counting cursor under it has evaluated
    position 0 only); and [fromArray([1,2,3]).flatMap(x => fromArray([x,
    x*10])).toArrayUnsafe()] is [[1,10,2,20,3,30]]. *)
Theorem flatMap_in_order_and_lazy :
  (forall (W T U : Type) (NT : Nilable T) (NU : Nilable U) (s : Seq W T) (w : W)
          (g : Z -> Option T) (l : list T) (fn : T -> SeqObj U) (f : T -> list U) (fuel : nat),
     Behaves s w g -> Enumerates g l ->
     (forall x, In x l -> exists gx, ObjBehaves (fn x) gx /\ Enumerates gx (f x)) ->
     List.length l + 1 < fuel -> List.length (flat_map f l) < fuel ->
     exists st, toArrayUnsafe fuel (flatMap s fn fuel) (init w) = Some (flat_map f l, st)) /\
  (forall (W T U : Type) (NU : Nilable U) (s : Seq W T) (w w1 : W) (x : T)
          (fn : T -> SeqObj U) (o' : SeqObj U) (u : U) (fuel : nat),
     get s 0%Z w = Some (SOME x, w1) ->
     obj_get (fn x) 0%Z = Some (SOME u, o') ->
     isNil u = false -> 1 < fuel ->
     get (flatMap s fn fuel) 0%Z (init w) = Some (SOME u, ([u], w1))) /\
  (forall fuel, 6 < fuel ->
     exists st,
       toArrayUnsafe fuel
         (flatMap (fromArray [1; 2; 3]%Z) (fun x => fromArrayObj [x; x * 10]%Z) fuel)
         (init (init tt))
       = Some ([1; 10; 2; 20; 3; 30]%Z, st)) /\
  (forall fuel, 1 < fuel ->
     get (flatMap (create (counted (fromArray_source [1; 2; 3]%Z)))
                  (fun x => fromArrayObj [x; x * 10]%Z) fuel) 0%Z (init (init ([], tt)))
     = Some (SOME 1%Z, ([1%Z], ([1%Z], ([0], tt))))).
Proof.
  split; [ | split; [ | split]].
  - intros W T U NT NU s w g l fn f fuel. apply flatMap_enumerates.
  - intros W T U NU s w w1 x fn o' u fuel. apply flatMap_head_lazy.
  - intros fuel Hf.
    apply (flatMap_enumerates (fromArray [1; 2; 3]%Z) (init tt) (denote (ofList [1; 2; 3]%Z))
             [1; 2; 3]%Z (fun x => fromArrayObj [x; x * 10]%Z) (fun x => [x; x * 10]%Z) fuel).
    + apply fromArray_behaves.
    + apply fromArray_Z_enumerates.
    + intros x _. exists (denote (ofList [x; x * 10]%Z)). split.
      * apply fromArray_behaves.
      * apply fromArray_Z_enumerates.
    + cbn. lia.
    + cbn. lia.
  - intros fuel Hf.
    apply (flatMap_head_lazy (create (counted (fromArray_source [1; 2; 3]%Z)))
             (init ([], tt)) ([1%Z], ([0], tt)) 1%Z (fun x => fromArrayObj [x; x * 10]%Z)
             {| handle := fromArray [1; 10]%Z; state := ([1%Z], tt) |} 1%Z fuel);
      [reflexivity | reflexivity | reflexivity | exact Hf].
Qed.

Lemma flatMap_in_order_and_lazy_witness :
  get (flatMap (fromArray [7; 8]%Z) (fun x => fromArrayObj [x; x * 10]%Z) 2) 0%Z (init (init tt))
  = Some (SOME 7%Z, ([7%Z], ([7%Z], tt))).
Proof.
  apply (proj1 (proj2 flatMap_in_order_and_lazy) _ _ _ _ (fromArray [7; 8]%Z) (init tt)
           ([7%Z], tt) 7%Z (fun x => fromArrayObj [x; x * 10]%Z)
           {| handle := fromArray [7; 70]%Z; state := ([7%Z], tt) |} 7%Z 2);
    [reflexivity | reflexivity | reflexivity | lia].
Defined.

(** * More of the library *)

(** ** Finite sequences *)

Lemma exactly_enumerates {T : Type} (g : Z -> Option T) (l : list T) :
  Exactly g l -> Enumerates g l.
Proof.
  intros [Hy Hn]. split.
  - intros p v Hv. unfold iteration. now rewrite (Hy p v Hv).
  - unfold iteration. now rewrite (Hn (List.length l)) by lia.
Qed.

Lemma lists_toArrayUnsafe {W T : Type} `{Nilable T} (s : Seq W T) (w : W) (l : list T)
  (fuel : nat) :
  Lists s w l -> List.length l < fuel ->
  exists w', toArrayUnsafe fuel s w = Some (l, w').
Proof.
  intros (g & Hb & Hex) Hf.
  exact (behaves_toArrayUnsafe s w g l fuel Hb (exactly_enumerates g l Hex) Hf).
Qed.

Lemma lists_notnil {W T : Type} `{Nilable T} (s : Seq W T) (w : W) (l : list T) :
  Lists s w l -> notNil l.
Proof.
  intros (g & Hb & Hex). exact (behaves_notnil s w g l Hb (exactly_enumerates g l Hex)).
Qed.

Lemma no_done_le {T : Type} (L : list T) (p : nat) :
  (forall j, j < p -> ofList L j <> Done) -> p <= List.length L.
Proof.
  intros Hy. destruct (le_gt_dec p (List.length L)) as [Hle | Hgt]; [exact Hle | ].
  exfalso. apply (Hy (List.length L) Hgt). unfold ofList.
  now replace (nth_error L (List.length L)) with (@None T)
    by (symmetry; apply nth_error_None; lia).
Qed.

Lemma ofList_lt {T : Type} (L : list T) (p : nat) (v : T) :
  ofList L p = Yield v -> nth_error L p = Some v.
Proof. unfold ofList. destruct (nth_error L p); [intros E; now inv E | discriminate]. Qed.

Lemma ofList_done {T : Type} (L : list T) (p : nat) :
  List.length L <= p -> ofList L p = Done.
Proof.
  intros Hp. unfold ofList.
  now replace (nth_error L p) with (@None T) by (symmetry; now apply nth_error_None).
Qed.

(** A specification by a stream that is a list is one by the list. *)
Lemma SourceSpec_enum {W C T : Type} (src : Source W C T) (Inv : W -> Prop)
  (At : C -> nat -> Prop) (r : nat -> IteratorResult T) (L : list T) :
  SourceSpec src everywhere Inv At r -> Enum r L ->
  SourceSpec src everywhere Inv At (ofList L).
Proof.
  intros Hs He. split; [exact (spec_fresh Hs) | ].
  intros c p w Hi Ha _ Hy. pose proof (no_done_le L p Hy) as Hp.
  destruct (spec_next Hs c p w Hi Ha I) as (c' & w' & E & Ha' & Hi').
  - intros j Hj. apply (enum_not_done r L); [exact He | lia].
  - exists c', w'. split; [ | now split]. rewrite E.
    replace (ofList L p) with (r p); [reflexivity | ]. unfold ofList.
    destruct (nth_error L p) as [v | ] eqn:Ev.
    + exact (proj1 He p v Ev).
    + apply nth_error_None in Ev. replace p with (List.length L) by lia. exact (proj2 He).
Qed.

Lemma denote_ofList_exactly {T : Type} `{Nilable T} (L : list T) :
  notNil L -> Exactly (denote (ofList L)) L.
Proof.
  intros Hn. split.
  - intros p v Hv. rewrite (denote_yield (ofList L) p v).
    + unfold notNil in Hn. rewrite Forall_forall in Hn. rewrite (Hn v); [reflexivity | ].
      eapply nth_error_In. exact Hv.
    + intros j Hj. unfold ofList.
      destruct (nth_error L j) eqn:Ej; [discriminate | ].
      apply nth_error_None in Ej.
      assert (p < List.length L) by (apply nth_error_Some; congruence). lia.
    + unfold ofList. now rewrite Hv.
  - intros p Hp. apply (denote_done _ (ofList L) _ (List.length L)); [lia | ].
    now apply ofList_done.
Qed.

Lemma visible_length {T : Type} `{Nilable T} (L : list T) :
  List.length (visible L) <= List.length L.
Proof.
  induction L as [ | v L IH]; cbn [visible]; [lia | ].
  destruct (isNil v); cbn; lia.
Qed.

(** A sequence built over a source that produces the list [L]: spreading it
    gives [L] up to its first nil element, and it is the sequence [L] when
    [L] has no nil element. *)
Lemma create_lists {W C T : Type} `{Nilable T} (src : Source W C T) (Inv : W -> Prop)
  (At : C -> nat -> Prop) (L : list T) (w : W) :
  SourceSpec src everywhere Inv At (ofList L) -> Inv w ->
  (notNil L -> Lists (create src) (init w) L) /\
  (forall fuel, List.length L < fuel ->
     exists st, toArrayUnsafe fuel (create src) (init w) = Some (visible L, st)).
Proof.
  intros Hs Hi. pose proof (create_behaves src Inv At (ofList L) w Hs Hi) as Hb. split.
  - intros Hn. exists (denote (ofList L)). split; [exact Hb | now apply denote_ofList_exactly].
  - intros fuel Hf.
    apply (behaves_toArrayUnsafe _ _ _ (visible L) fuel Hb (denote_ofList_enumerates L)).
    pose proof (visible_length L). lia.
Qed.

Lemma fromArray_lists {T : Type} `{Nilable T} (arr : list T) :
  notNil arr -> Lists (fromArray arr) (init tt) arr.
Proof.
  intros Hn.
  exact (proj1 (create_lists (fromArray_source arr) (fun _ => True) _ arr tt
                  (fromArray_source_spec arr everywhere) I) Hn).
Qed.

Lemma notNil_Z (l : list Z) : notNil l.
Proof. apply Forall_forall. intros x _. reflexivity. Qed.

Section Parent.
Context {W T : Type} `{Nilable T}.
Variable s : Seq W T.
Variable Inv : W -> Prop.
Variable g : Z -> Option T.
Hypothesis Hs : SeqSpec s everywhere Inv g.
Variable l : list T.
Hypothesis Hex : Exactly g l.

(** Asking the parent for position [p] gives the element [p] of [l]. *)
Lemma pull (p : nat) (w : W) :
  Inv w ->
  exists o w', get s (Z.of_nat p) w = Some (o, w') /\
               fold (fun v => Yield v) Done o = ofList l p /\ Inv w'.
Proof.
  intros Hi. destruct (spec_get Hs (Z.of_nat p) w Hi (allowed_everywhere _)) as (w' & E & Hi').
  exists (g (Z.of_nat p)), w'. split; [exact E | split; [ | exact Hi']].
  unfold ofList. destruct (nth_error l p) as [v | ] eqn:Ev.
  - now rewrite (proj1 Hex p v Ev).
  - apply nth_error_None in Ev. now rewrite (proj2 Hex p Ev).
Qed.

End Parent.

(** ** [map] and [filter] *)

Lemma length_mapi {T U : Type} (fn : T -> Z -> U) (l : list T) : forall i,
  List.length (mapi fn i l) = List.length l.
Proof. induction l as [ | v l IH]; intros i; cbn; [reflexivity | now rewrite IH]. Qed.

Lemma nth_error_mapi {T U : Type} (fn : T -> Z -> U) (l : list T) : forall (i : Z) (p : nat),
  nth_error (mapi fn i l) p = option_map (fun v => fn v (i + Z.of_nat p)%Z) (nth_error l p).
Proof.
  induction l as [ | v l IH]; intros i [ | p]; cbn [mapi nth_error option_map]; try reflexivity.
  - now rewrite Z.add_0_r.
  - rewrite IH. destruct (nth_error l p); cbn; [ | reflexivity]. do 2 f_equal. lia.
Qed.

Section MapSpec.
Context {W T U : Type} `{Nilable T}.
Variable s : Seq W T.
Variable Inv : W -> Prop.
Variable g : Z -> Option T.
Hypothesis Hs : SeqSpec s everywhere Inv g.
Variable l : list T.
Hypothesis Hex : Exactly g l.
Variable fn : T -> Z -> U.

Lemma map_source_spec :
  SourceSpec (SeqFns.map_source s fn) everywhere Inv
    (fun c p => p <= List.length l -> fst c = Z.of_nat p /\ snd c = Z.of_nat p)
    (ofList (mapi fn 0%Z l)).
Proof.
  split.
  - intros w Hi. exists (0%Z, 0%Z), w. split; [reflexivity | ]. split; [ | exact Hi].
    intros Hp. now split.
  - intros [it i] p w Hi Ha _ Hy. pose proof (no_done_le _ p Hy) as Hp.
    rewrite length_mapi in Hp. destruct (Ha Hp) as [Hit Hii]. cbn [fst snd] in Hit, Hii. subst.
    destruct (pull s Inv g Hs l Hex p w Hi) as (o & w' & E & Ho & Hi').
    cbn [next SeqFns.map_source iterator]. unfold bind, ret. rewrite E, Ho.
    unfold ofList. rewrite nth_error_mapi. destruct (nth_error l p) as [v | ] eqn:Ev.
    + exists ((Z.of_nat p + 1)%Z, (Z.of_nat p + 1)%Z), w'. cbn [option_map].
      split; [reflexivity | ]. split; [ | exact Hi']. intros _. cbn [fst snd]. split; lia.
    + exists ((Z.of_nat p + 1)%Z, Z.of_nat p), w'. cbn [option_map].
      split; [reflexivity | ]. split; [ | exact Hi']. intros HS.
      apply nth_error_None in Ev. lia.
Qed.

End MapSpec.

(** X1: [map(fn)] over the finite sequence [l] applies [fn(value, index)]
    to each element, but the mapped sequence ends before the first result
    that is [null] or [undefined]; when no result is nil it is the
    sequence of all the results. *)
Theorem map_spreads {W T U : Type} `{Nilable T} `{Nilable U} (s : Seq W T) (w : W)
  (l : list T) (fn : T -> Z -> U) :
  Lists s w l ->
  (forall fuel, List.length l < fuel ->
     exists st, toArrayUnsafe fuel (SeqFns.map s fn) (init w)
                = Some (visible (mapi fn 0%Z l), st)) /\
  (notNil (mapi fn 0%Z l) -> Lists (SeqFns.map s fn) (init w) (mapi fn 0%Z l)).
Proof.
  intros (g & (Inv & Hi & Hs) & Hex).
  destruct (create_lists _ Inv _ _ w (map_source_spec s Inv g Hs l Hex fn) Hi) as [Hl Hsp].
  split; [ | exact Hl]. intros fuel Hf. apply Hsp. now rewrite length_mapi.
Qed.

Lemma map_spreads_witness :
  (forall fuel, List.length [Num 1; Num 2; Num 3] < fuel ->
     exists st,
       toArrayUnsafe fuel
         (SeqFns.map (fromArray [Num 1; Num 2; Num 3])
                     (fun v i => if (i =? 1)%Z then Null else v)) (init (init tt))
       = Some (visible (mapi (fun v i => if (i =? 1)%Z then Null else v) 0%Z
                             [Num 1; Num 2; Num 3]), st)) /\
  (notNil (mapi (fun v i => if (i =? 1)%Z then Null else v) 0%Z [Num 1; Num 2; Num 3]) ->
   Lists (SeqFns.map (fromArray [Num 1; Num 2; Num 3])
                     (fun v i => if (i =? 1)%Z then Null else v)) (init (init tt))
     (mapi (fun v i => if (i =? 1)%Z then Null else v) 0%Z [Num 1; Num 2; Num 3])).
Proof.
  apply (map_spreads (fromArray [Num 1; Num 2; Num 3]) (init tt) [Num 1; Num 2; Num 3]
           (fun v i => if (i =? 1)%Z then Null else v)).
  apply fromArray_lists. repeat constructor.
Defined.

Section FilterSpec.
Context {W T : Type} `{Nilable T}.
Variable s : Seq W T.
Variable Inv : W -> Prop.
Variable g : Z -> Option T.
Hypothesis Hs : SeqSpec s everywhere Inv g.
Variable l : list T.
Hypothesis Hex : Exactly g l.
Variable fn : T -> bool.

Lemma filter_next_spec (rest : list T) : forall (pre : list T) (k : nat) (w : W),
  l = pre ++ rest -> Inv w -> List.length rest < k ->
  exists it' w',
    SeqFns.filter_next s k fn (Z.of_nat (List.length pre)) w
      = Some ((ofList (List.filter fn rest) 0, it'), w') /\
    Inv w' /\
    (forall v t, List.filter fn rest = v :: t ->
       exists pre' rest', l = pre' ++ rest' /\ it' = Z.of_nat (List.length pre') /\
                          List.filter fn rest' = t).
Proof.
  induction rest as [ | v r IH]; intros pre k w Hpre Hi Hk.
  - destruct k as [ | k]; [cbn in Hk; lia | ].
    destruct (pull s Inv g Hs l Hex (List.length pre) w Hi) as (o & w' & E & Ho & Hi').
    cbn [SeqFns.filter_next next iterator]. unfold bind, ret. rewrite E, Ho.
    rewrite ofList_done by (rewrite Hpre, length_app; cbn; lia).
    exists (Z.of_nat (List.length pre) + 1)%Z, w'. split; [reflexivity | ].
    split; [exact Hi' | ]. intros v t Hv. discriminate.
  - destruct k as [ | k]; [cbn in Hk; lia | ].
    destruct (pull s Inv g Hs l Hex (List.length pre) w Hi) as (o & w' & E & Ho & Hi').
    cbn [SeqFns.filter_next next iterator]. unfold bind, ret. rewrite E, Ho.
    assert (Hv : ofList l (List.length pre) = Yield v).
    { unfold ofList. rewrite Hpre, nth_error_app2 by lia. now rewrite Nat.sub_diag. }
    rewrite Hv. cbn [List.filter]. destruct (fn v) eqn:Ef.
    + exists (Z.of_nat (List.length pre) + 1)%Z, w'. split; [reflexivity | ].
      split; [exact Hi' | ]. intros v0 t Hvt. inv Hvt.
      exists (pre ++ [v0]), r. split; [now rewrite <- app_assoc | ].
      split; [rewrite length_app; cbn; lia | reflexivity].
    + replace (Z.of_nat (List.length pre) + 1)%Z with (Z.of_nat (List.length (pre ++ [v])))
        by (rewrite length_app; cbn; lia).
      apply IH; [now rewrite <- app_assoc | exact Hi' | cbn in Hk; lia].
Qed.

Lemma filter_source_spec (fuel : nat) :
  List.length l < fuel ->
  SourceSpec (SeqFns.filter_source s fuel fn) everywhere Inv
    (fun it p =>
       List.length (List.filter fn l) < p \/
       exists pre rest, l = pre ++ rest /\ it = Z.of_nat (List.length pre) /\
                        skipn p (List.filter fn l) = List.filter fn rest)
    (ofList (List.filter fn l)).
Proof.
  intros Hfuel. split.
  - intros w Hi. exists 0%Z, w. split; [reflexivity | ]. split; [ | exact Hi].
    right. exists [], l. now repeat split.
  - intros it p w Hi Ha _ Hy. pose proof (no_done_le _ p Hy) as Hp.
    destruct Ha as [Hgt | (pre & rest & Hpre & -> & Hskip)]; [lia | ].
    destruct (filter_next_spec rest pre fuel w Hpre Hi) as (it' & w' & E & Hi' & Hnext).
    { assert (List.length l = List.length pre + List.length rest)
        by (rewrite Hpre; apply length_app). lia. }
    cbn [next SeqFns.filter_source]. rewrite E. exists it', w'.
    assert (Hr : ofList (List.filter fn rest) 0 = ofList (List.filter fn l) p).
    { unfold ofList. rewrite <- Hskip, nth_error_skipn. now rewrite Nat.add_0_r. }
    rewrite Hr. split; [reflexivity | ]. split; [ | exact Hi'].
    destruct (List.filter fn rest) as [ | v t] eqn:Ef.
    + left. pose proof (length_skipn p (List.filter fn l)) as Hl.
      rewrite Hskip in Hl. cbn in Hl. lia.
    + right. destruct (Hnext v t eq_refl) as (pre' & rest' & Hp' & Hit & Ht).
      exists pre', rest'. split; [exact Hp' | ]. split; [exact Hit | ].
      destruct (skipn_cons_inv _ _ _ _ Hskip) as [_ Hs']. now rewrite Hs', Ht.
Qed.

End FilterSpec.

Lemma notNil_filter {T : Type} `{Nilable T} (fn : T -> bool) (l : list T) :
  notNil l -> notNil (List.filter fn l).
Proof.
  unfold notNil. rewrite !Forall_forall. intros Hn x Hx. apply filter_In in Hx. now apply Hn.
Qed.

Lemma filter_length {T : Type} (fn : T -> bool) (l : list T) :
  List.length (List.filter fn l) <= List.length l.
Proof. induction l as [ | v l IH]; cbn; [lia | destruct (fn v); cbn; lia]. Qed.

(** X2: [filter(fn)] over the finite sequence [l] is the sequence of the
    elements of [l] that satisfy [fn], in order. *)
Theorem filter_lists {W T : Type} `{Nilable T} (s : Seq W T) (w : W) (l : list T)
  (fn : T -> bool) (fuel : nat) :
  Lists s w l -> List.length l < fuel ->
  Lists (SeqFns.filter s fuel fn) (init w) (List.filter fn l) /\
  exists st, toArrayUnsafe fuel (SeqFns.filter s fuel fn) (init w)
             = Some (List.filter fn l, st).
Proof.
  intros Hl Hf. pose proof (lists_notnil s w l Hl) as Hn.
  destruct Hl as (g & (Inv & Hi & Hs) & Hex).
  destruct (create_lists _ Inv _ _ w (filter_source_spec s Inv g Hs l Hex fn fuel Hf) Hi)
    as [Hl _].
  specialize (Hl (notNil_filter fn l Hn)). split; [exact Hl | ].
  apply (lists_toArrayUnsafe _ _ _ fuel Hl). pose proof (filter_length fn l). lia.
Qed.

Lemma filter_lists_witness :
  Lists (SeqFns.filter (fromArray [1; 2; 3; 4]%Z) 5 Z.even) (init (init tt))
    (List.filter Z.even [1; 2; 3; 4]%Z) /\
  exists st, toArrayUnsafe 5 (SeqFns.filter (fromArray [1; 2; 3; 4]%Z) 5 Z.even) (init (init tt))
             = Some (List.filter Z.even [1; 2; 3; 4]%Z, st).
Proof.
  apply (filter_lists (fromArray [1; 2; 3; 4]%Z) (init tt) [1; 2; 3; 4]%Z Z.even 5).
  - apply fromArray_lists. apply notNil_Z.
  - cbn. lia.
Defined.

(** ** [take], [drop], [append] and [prepend] on finite sequences *)

Lemma enum_exactly {T : Type} `{Nilable T} (r : nat -> IteratorResult T) (L : list T) :
  Enum r L -> notNil L -> Exactly (denote r) L.
Proof.
  intros He Hn. split.
  - intros p v Hv. rewrite (denote_yield r p v).
    + unfold notNil in Hn. rewrite Forall_forall in Hn. rewrite (Hn v); [reflexivity | ].
      eapply nth_error_In. exact Hv.
    + intros j Hj. apply (enum_not_done r L j He).
      assert (p < List.length L) by (apply nth_error_Some; congruence). lia.
    + exact (proj1 He p v Hv).
  - intros p Hp. apply (denote_done _ r _ (List.length L)); [lia | exact (proj2 He)].
Qed.

Lemma prefix_notnil {W T : Type} `{Nilable T} (s : Seq W T) (w : W) (g : Z -> Option T)
  (l : list T) :
  Behaves s w g -> Prefix g l -> notNil l.
Proof.
  intros (Inv & _ & Hs) Hl. apply Forall_forall. intros v Hv.
  destruct (In_nth_error l v Hv) as [p Hp]. specialize (Hl p v Hp).
  unfold iteration in Hl. destruct (g (Z.of_nat p)) as [x | ] eqn:Eg; [ | discriminate].
  cbn in Hl. inv Hl. exact (spec_notnil Hs _ _ Eg).
Qed.

Lemma exactly_prefix {T : Type} (g : Z -> Option T) (l : list T) (k : nat) :
  Exactly g l -> Prefix g (firstn k l).
Proof.
  intros [Hy _] p v Hv. unfold iteration.
  assert (Hp : p < List.length (firstn k l)) by (apply nth_error_Some; congruence).
  rewrite length_firstn in Hp. rewrite nth_error_firstn in Hv.
  destruct (Nat.ltb_spec p k); [ | lia]. now rewrite (Hy p v Hv).
Qed.

Lemma take_source_spec_within {W T : Type} `{Nilable T} (s : Seq W T) (dom : nat -> Prop)
  (Inv : W -> Prop) (g : Z -> Option T) (m : Z) :
  SeqSpec s dom Inv g -> (forall p, (Z.of_nat p < m)%Z -> dom p) ->
  SourceSpec (take_source s m) everywhere Inv
    (fun i p => (i <= Z.of_nat p)%Z /\ ((i < m)%Z -> i = Z.of_nat p)) (take_stream g m).
Proof.
  intros Hs Hdom. split.
  - intros w Hi. exists 0%Z, w. run.
    split; [reflexivity | split; [split; lia | exact Hi]].
  - intros i p w Hi [Hle Hlt] _ _. run. unfold take_stream.
    destruct (Z.geb_spec i m) as [Hge | Hl].
    + exists i, w. destruct (Z.geb_spec (Z.of_nat p) m); [ | lia].
      split; [reflexivity | split; [split; lia | exact Hi]].
    + specialize (Hlt Hl). subst i.
      destruct (Z.geb_spec (Z.of_nat p) m); [lia | ].
      destruct (spec_get Hs (Z.of_nat p) w Hi) as (w' & E & Hi').
      * right. rewrite Nat2Z.id. now apply Hdom.
      * exists (Z.of_nat p + 1)%Z, w'. rewrite E. unfold iteration.
        split; [reflexivity | split; [split; lia | exact Hi']].
Qed.

Lemma take_enum {T : Type} (g : Z -> Option T) (l : list T) (n : Z) :
  Prefix g l ->
  List.length l = Z.to_nat n \/
  (iteration g (List.length l) = Done /\ List.length l <= Z.to_nat n) ->
  Enum (take_stream g (Z.max 0 n)) l.
Proof.
  intros Hl Hc. split.
  - intros p v Hv. unfold take_stream.
    assert (Hp : p < List.length l) by (apply nth_error_Some; congruence).
    destruct (Z.geb_spec (Z.of_nat p) (Z.max 0 n)); [lia | ]. exact (Hl p v Hv).
  - unfold take_stream.
    destruct (Z.geb_spec (Z.of_nat (List.length l)) (Z.max 0 n)); [reflexivity | ].
    destruct Hc as [Hc | [Hc _]]; [lia | exact Hc].
Qed.

(** Spreading [take(n)] asks the sequence underneath only for positions
    below [n]: the counting cursor of its source evaluates no other. *)
Lemma take_lazy {W C T : Type} `{Nilable T} (src : Source W C T) (Inv : W -> Prop)
  (At : C -> nat -> Prop) (r : nat -> IteratorResult T) (l : list T) (n : Z) (fuel : nat)
  (w : W) :
  SourceSpec src everywhere Inv At r -> Inv w -> Prefix (denote r) l ->
  List.length l = Z.to_nat n \/
  (iteration (denote r) (List.length l) = Done /\ List.length l <= Z.to_nat n) ->
  List.length l < fuel ->
  exists cz cache log w',
    toArrayUnsafe fuel (take (create (counted src)) n) (init (init ([], w)))
    = Some (l, (cz, (cache, (log, w')))) /\
    Forall (fun p => (Z.of_nat p < n)%Z) log.
Proof.
  intros Hsrc Hi Hl Hc Hf.
  set (domk := fun p => (Z.of_nat p < n)%Z).
  assert (Hdown : downward domk) by (intros p q Hq Hp; unfold domk in *; lia).
  pose proof (create_spec (counted src) domk _ _ r Hdown
                (counted_spec src domk Inv At r (SourceSpec_weaken _ domk _ _ _ Hsrc))) as Hbase.
  assert (Hdom : forall p, (Z.of_nat p < Z.max 0 n)%Z -> domk p)
    by (intros p Hp; unfold domk; lia).
  pose proof (create_spec _ everywhere _ _ _ everywhere_downward
                (take_source_spec_within _ domk _ _ (Z.max 0 n) Hbase Hdom)) as Htake.
  assert (Hnn : notNil l).
  { apply (prefix_notnil (create src) (init w) (denote r) l); [ | exact Hl].
    exact (create_behaves src Inv At r w Hsrc Hi). }
  assert (Hen : Enumerates (denote (take_stream (denote r) (Z.max 0 n))) l)
    by (apply denote_enum; [now apply take_enum | exact Hnn]).
  destruct (toArrayUnsafe_spec _ everywhere _ _ l fuel (init (init ([], w))) Htake Hen)
    as (st & E & Hst).
  - intros p _. exact I.
  - exact Hf.
  - apply init_CacheInv. apply init_CacheInv. split; [constructor | exact Hi].
  - destruct st as [cz [cache [log w']]]. exists cz, cache, log, w'.
    split; [exact E | ]. destruct Hst as [[[Hlog _] _] _]. exact Hlog.
Qed.

(** X3: [take(n)] of a sequence, finite or not, whose first elements are
    [l] is the finite sequence [l] when [l] has [n] elements, or fewer
    because the sequence ends there; so on a finite sequence [l] it is the
    first [n] elements of [l], and nothing for [n <= 0].  It never looks
    past them: after spreading [take(n)] of a sequence built on a counting
    cursor, every position the cursor has evaluated is below [n], also
    when the source is infinite. *)
Theorem take_lists :
  (forall (W T : Type) (N : Nilable T) (s : Seq W T) (w : W) (g : Z -> Option T) (n : Z),
     Behaves s w g ->
     (forall l, Prefix g l ->
        List.length l = Z.to_nat n \/
        (iteration g (List.length l) = Done /\ List.length l <= Z.to_nat n) ->
        Lists (take s n) (init w) l) /\
     (forall l, Exactly g l -> Lists (take s n) (init w) (firstn (Z.to_nat n) l))) /\
  (forall (W C T : Type) (N : Nilable T) (src : Source W C T) (Inv : W -> Prop)
          (At : C -> nat -> Prop) (r : nat -> IteratorResult T) (l : list T) (n : Z)
          (fuel : nat) (w : W),
     SourceSpec src everywhere Inv At r -> Inv w -> Prefix (denote r) l ->
     List.length l = Z.to_nat n \/
     (iteration (denote r) (List.length l) = Done /\ List.length l <= Z.to_nat n) ->
     List.length l < fuel ->
     exists cz cache log w',
       toArrayUnsafe fuel (take (create (counted src)) n) (init (init ([], w)))
       = Some (l, (cz, (cache, (log, w')))) /\
       Forall (fun p => (Z.of_nat p < n)%Z) log).
Proof.
  split.
  - intros W T N s w g n Hb.
    assert (Hgen : forall l, Prefix g l ->
       List.length l = Z.to_nat n \/
       (iteration g (List.length l) = Done /\ List.length l <= Z.to_nat n) ->
       Lists (take s n) (init w) l).
    { intros l Hl Hc. exists (denote (take_stream g (Z.max 0 n))).
      split; [now apply take_behaves | ].
      apply enum_exactly; [now apply take_enum | exact (prefix_notnil s w g l Hb Hl)]. }
    split; [exact Hgen | ].
    intros l Hex. apply Hgen; [now apply exactly_prefix | ].
    rewrite length_firstn.
    destruct (Nat.le_gt_cases (Z.to_nat n) (List.length l)) as [Hle | Hgt].
    + left. lia.
    + right. rewrite Nat.min_r by lia. split; [ | lia].
      exact (proj2 (exactly_enumerates g l Hex)).
  - intros W C T N src Inv At r l n fuel w. apply take_lazy.
Qed.

Lemma take_lists_witness :
  ((forall l, Prefix (denote (ofList [1; 2; 3; 4]%Z)) l ->
      List.length l = Z.to_nat 2 \/
      (iteration (denote (ofList [1; 2; 3; 4]%Z)) (List.length l) = Done /\
       List.length l <= Z.to_nat 2) ->
      Lists (take (fromArray [1; 2; 3; 4]%Z) 2%Z) (init (init tt)) l) /\
   (forall l, Exactly (denote (ofList [1; 2; 3; 4]%Z)) l ->
      Lists (take (fromArray [1; 2; 3; 4]%Z) 2%Z) (init (init tt))
        (firstn (Z.to_nat 2) l))) /\
  (exists cz cache log w',
     toArrayUnsafe 3 (take (create (counted (fromArray_source [1; 2; 3; 4]%Z))) 2%Z)
       (init (init ([], tt)))
     = Some ([1; 2]%Z, (cz, (cache, (log, w')))) /\
     Forall (fun p => (Z.of_nat p < 2)%Z) log).
Proof.
  split.
  - apply (proj1 take_lists _ _ _ (fromArray [1; 2; 3; 4]%Z) (init tt)
             (denote (ofList [1; 2; 3; 4]%Z)) 2%Z).
    apply fromArray_behaves.
  - apply (proj2 take_lists unit nat Z _ (fromArray_source [1; 2; 3; 4]%Z)
             (fun _ => True) (fun c p => c = Nat.min p 4) (ofList [1; 2; 3; 4]%Z)
             [1; 2]%Z 2%Z 3 tt).
    + apply (fromArray_source_spec [1; 2; 3; 4]%Z everywhere).
    + exact I.
    + intros [ | [ | p]] v Hv; cbn in Hv; inv Hv; try reflexivity. destruct p; discriminate.
    + left. reflexivity.
    + cbn. lia.
Defined.

(** X4: [drop(n)] with [n >= 0] of the finite sequence [l] is [l] without
    its first [n] elements (empty when [l] has no more than [n]). *)
Theorem drop_lists {W T : Type} `{Nilable T} (s : Seq W T) (w : W) (l : list T) (n : Z) :
  Lists s w l -> (0 <= n)%Z ->
  Lists (drop s n) (init w) (skipn (Z.to_nat n) l).
Proof.
  intros Hl Hn. pose proof (lists_notnil s w l Hl) as Hnn.
  destruct Hl as (g & Hb & Hex).
  exists (denote (drop_stream g n)). split; [now apply drop_behaves | ].
  apply enum_exactly.
  - split.
    + intros p v Hv. rewrite nth_error_skipn in Hv. unfold drop_stream.
      replace (n + Z.of_nat p)%Z with (Z.of_nat (Z.to_nat n + p)) by lia.
      now rewrite (proj1 Hex _ v Hv).
    + unfold drop_stream. rewrite length_skipn.
      replace (n + Z.of_nat (List.length l - Z.to_nat n))%Z
        with (Z.of_nat (Z.to_nat n + (List.length l - Z.to_nat n))) by lia.
      now rewrite (proj2 Hex) by lia.
  - unfold notNil in *. rewrite Forall_forall in *. intros x Hx. apply Hnn.
    rewrite <- (firstn_skipn (Z.to_nat n) l). apply in_or_app. now right.
Qed.

Lemma drop_lists_witness :
  Lists (drop (fromArray [1; 2; 3; 4]%Z) 1%Z) (init (init tt)) (skipn (Z.to_nat 1) [1; 2; 3; 4]%Z).
Proof.
  apply (drop_lists (fromArray [1; 2; 3; 4]%Z) (init tt) [1; 2; 3; 4]%Z 1%Z).
  - apply fromArray_lists. apply notNil_Z.
  - lia.
Defined.

Section AppendSpec.
Context {W T : Type} `{Nilable T}.
Variable s : Seq W T.
Variable Inv : W -> Prop.
Variable g : Z -> Option T.
Hypothesis Hs : SeqSpec s everywhere Inv g.
Variable l : list T.
Hypothesis Hex : Exactly g l.
Variable v : T.

Lemma append_source_spec :
  SourceSpec (SeqFns.append_source s v) everywhere Inv
    (fun c p =>
       (p <= List.length l -> fst c = Z.of_nat p /\ snd c = false) /\
       (p = S (List.length l) ->
        exists q, fst c = Z.of_nat q /\ List.length l <= q /\ snd c = true))
    (ofList (l ++ [v])).
Proof.
  split.
  - intros w Hi. exists (0%Z, false), w. split; [reflexivity | ]. split; [ | exact Hi].
    split; [intros _; now split | intros Hp; lia].
  - intros [it pushed] p w Hi [Ha1 Ha2] _ Hy. pose proof (no_done_le _ p Hy) as Hp.
    rewrite length_app in Hp. cbn [List.length] in Hp. cbn [fst snd] in Ha1, Ha2.
    cbn [next SeqFns.append_source iterator]. unfold bind, ret.
    destruct (Nat.eq_dec p (S (List.length l))) as [Heq | Hne].
    + destruct (Ha2 Heq) as (q & -> & Hq & ->).
      destruct (pull s Inv g Hs l Hex q w Hi) as (o & w' & E & Ho & Hi').
      rewrite E, Ho, (ofList_done l q Hq). cbn [negb].
      exists ((Z.of_nat q + 1)%Z, true), w'.
      rewrite ofList_done by (rewrite length_app; cbn; lia).
      split; [reflexivity | ]. split; [ | exact Hi']. split; intros; lia.
    + destruct Ha1 as [-> ->]; [lia | ].
      destruct (pull s Inv g Hs l Hex p w Hi) as (o & w' & E & Ho & Hi').
      rewrite E, Ho. unfold ofList.
      destruct (Nat.lt_ge_cases p (List.length l)) as [Hlt | Hge].
      * rewrite nth_error_app1 by exact Hlt.
        destruct (nth_error l p) as [x | ] eqn:Ex; [ | apply nth_error_None in Ex; lia].
        exists ((Z.of_nat p + 1)%Z, false), w'. split; [reflexivity | ].
        split; [ | exact Hi']. cbn [fst snd]. split; [intros _; split; [lia | reflexivity] | lia].
      * assert (p = List.length l) by lia. subst p.
        rewrite nth_error_app2 by lia. rewrite Nat.sub_diag. cbn [nth_error].
        replace (nth_error l (List.length l)) with (@None T)
          by (symmetry; apply nth_error_None; lia).
        cbn [negb]. exists ((Z.of_nat (List.length l) + 1)%Z, true), w'.
        split; [reflexivity | ]. split; [ | exact Hi']. cbn [fst snd].
        split; [lia | ]. intros _. exists (S (List.length l)). split; [lia | split; [lia | reflexivity]].
Qed.

Lemma prepend_source_spec :
  SourceSpec (SeqFns.prepend_source s v) everywhere Inv
    (fun c p =>
       (p = 0 -> fst c = 0%Z /\ snd c = true) /\
       (0 < p -> fst c = Z.of_nat (p - 1) /\ snd c = false))
    (ofList (v :: l)).
Proof.
  split.
  - intros w Hi. exists (0%Z, true), w. split; [reflexivity | ]. split; [ | exact Hi].
    split; [intros _; now split | lia].
  - intros [it atFront] p w Hi [Ha1 Ha2] _ _. cbn [fst snd] in Ha1, Ha2.
    cbn [next SeqFns.prepend_source iterator]. unfold bind, ret.
    destruct p as [ | q].
    + destruct Ha1 as [-> ->]; [reflexivity | ].
      exists (0%Z, false), w. split; [reflexivity | ]. split; [ | exact Hi].
      cbn [fst snd]. split; [lia | ]. intros _. now split.
    + destruct Ha2 as [-> ->]; [lia | ]. replace (S q - 1) with q by lia.
      destruct (pull s Inv g Hs l Hex q w Hi) as (o & w' & E & Ho & Hi').
      rewrite E, Ho. exists ((Z.of_nat q + 1)%Z, false), w'.
      split; [reflexivity | ]. split; [ | exact Hi']. cbn [fst snd].
      split; [lia | ]. intros _. split; [lia | reflexivity].
Qed.

End AppendSpec.

Lemma visible_app_notnil {T : Type} `{Nilable T} (l l' : list T) :
  notNil l -> visible (l ++ l') = l ++ visible l'.
Proof.
  induction 1 as [ | x l Hx _ IH]; cbn [app visible]; [reflexivity | ].
  rewrite Hx. now f_equal.
Qed.

(** X5: [append(v)] to the finite sequence [l] spreads to [l] followed by
    [v], and to [l] alone when [v] is [null] or [undefined]; with a non-nil
    [v] it is the sequence [l ++ [v]]. *)
Theorem append_spreads {W T : Type} `{Nilable T} (s : Seq W T) (w : W) (l : list T) (v : T) :
  Lists s w l ->
  (forall fuel, List.length l + 1 < fuel ->
     exists st, toArrayUnsafe fuel (SeqFns.append s v) (init w)
                = Some (if isNil v then l else l ++ [v], st)) /\
  (isNil v = false -> Lists (SeqFns.append s v) (init w) (l ++ [v])).
Proof.
  intros Hl. pose proof (lists_notnil s w l Hl) as Hn.
  destruct Hl as (g & (Inv & Hi & Hs) & Hex).
  destruct (create_lists _ Inv _ _ w (append_source_spec s Inv g Hs l Hex v) Hi) as [Hl Hsp].
  split.
  - intros fuel Hf. destruct (Hsp fuel) as (st & E).
    + rewrite length_app. cbn. lia.
    + exists st. unfold SeqFns.append. rewrite E, (visible_app_notnil l [v] Hn). cbn [visible].
      destruct (isNil v); [now rewrite app_nil_r | reflexivity].
  - intros Hv. apply Hl. apply Forall_app. split; [exact Hn | now repeat constructor].
Qed.

Lemma append_spreads_witness :
  (forall fuel, List.length [Num 1; Num 2] + 1 < fuel ->
     exists st, toArrayUnsafe fuel (SeqFns.append (fromArray [Num 1; Num 2]) (Num 3))
                  (init (init tt))
                = Some (if isNil (Num 3) then [Num 1; Num 2] else [Num 1; Num 2] ++ [Num 3], st)) /\
  (isNil (Num 3) = false ->
   Lists (SeqFns.append (fromArray [Num 1; Num 2]) (Num 3)) (init (init tt))
     ([Num 1; Num 2] ++ [Num 3])).
Proof.
  apply (append_spreads (fromArray [Num 1; Num 2]) (init tt) [Num 1; Num 2] (Num 3)).
  apply fromArray_lists. repeat constructor.
Defined.

(** X6: [prepend(v)] to the finite sequence [l] spreads to [v] followed by
    [l]; but when [v] is [null] or [undefined] it spreads to nothing at
    all: the nil first element ends the iteration. *)
Theorem prepend_spreads {W T : Type} `{Nilable T} (s : Seq W T) (w : W) (l : list T) (v : T) :
  Lists s w l ->
  (forall fuel, List.length l + 1 < fuel ->
     exists st, toArrayUnsafe fuel (SeqFns.prepend s v) (init w)
                = Some (if isNil v then [] else v :: l, st)) /\
  (isNil v = false -> Lists (SeqFns.prepend s v) (init w) (v :: l)).
Proof.
  intros Hl. pose proof (lists_notnil s w l Hl) as Hn.
  destruct Hl as (g & (Inv & Hi & Hs) & Hex).
  destruct (create_lists _ Inv _ _ w (prepend_source_spec s Inv g Hs l Hex v) Hi) as [Hl Hsp].
  split.
  - intros fuel Hf. destruct (Hsp fuel) as (st & E); [cbn; lia | ].
    exists st. unfold SeqFns.prepend. rewrite E. cbn [visible].
    destruct (isNil v); [reflexivity | ]. now rewrite (visible_notnil l Hn).
  - intros Hv. apply Hl. now constructor.
Qed.

Lemma prepend_spreads_witness :
  (forall fuel, List.length [Num 1; Num 2] + 1 < fuel ->
     exists st, toArrayUnsafe fuel (SeqFns.prepend (fromArray [Num 1; Num 2]) Null)
                  (init (init tt))
                = Some (if isNil Null then [] else Null :: [Num 1; Num 2], st)) /\
  (isNil Null = false ->
   Lists (SeqFns.prepend (fromArray [Num 1; Num 2]) Null) (init (init tt))
     (Null :: [Num 1; Num 2])).
Proof.
  apply (prepend_spreads (fromArray [Num 1; Num 2]) (init tt) [Num 1; Num 2] Null).
  apply fromArray_lists. repeat constructor.
Defined.

(** ** Terminal operations *)

Section ForOfReturn.
Context {W T A R : Type} `{Nilable T}.
Variable s : Seq W T.
Variable Inv : W -> Prop.
Variable g : Z -> Option T.
Hypothesis Hs : SeqSpec s everywhere Inv g.
Variable body : A -> T -> A + R.

(** The loop runs the body over the elements; it ends at the end of the
    sequence, or at once when the body returns. *)
Lemma forOfReturn_spec (l : list T) : forall (fuel p : nat) (acc : A) (w : W),
  Inv w ->
  (forall j v, nth_error l j = Some v -> iteration g (p + j) = Yield v) ->
  (iteration g (p + List.length l) = Done /\ List.length l < fuel) \/
  ((exists r, runReturn body l acc = inr r) /\ List.length l <= fuel) ->
  exists w', SeqFns.forOfReturn s fuel body (Z.of_nat p) acc w
             = Some (runReturn body l acc, w') /\ Inv w'.
Proof.
  induction l as [ | a l IH]; intros fuel p acc w Hi Hl Hc.
  - destruct Hc as [[Hd Hf] | [[e He] _]]; [ | discriminate He].
    destruct fuel as [ | fuel]; [cbn in Hf; lia | ].
    destruct (spec_get Hs (Z.of_nat p) w Hi (allowed_everywhere _)) as (w' & E & Hi').
    cbn [SeqFns.forOfReturn next iterator]. unfold bind, ret. rewrite E.
    cbn [List.length] in Hd. rewrite Nat.add_0_r in Hd.
    unfold iteration in Hd. rewrite Hd. exists w'. now split.
  - assert (Hf : 0 < fuel) by (destruct Hc as [[_ Hf] | [_ Hf]]; cbn in Hf; lia).
    destruct fuel as [ | fuel]; [lia | ].
    destruct (spec_get Hs (Z.of_nat p) w Hi (allowed_everywhere _)) as (w' & E & Hi').
    cbn [SeqFns.forOfReturn next iterator]. unfold bind, ret. rewrite E.
    pose proof (Hl 0 a eq_refl) as Ha. rewrite Nat.add_0_r in Ha.
    unfold iteration in Ha. rewrite Ha. cbn [runReturn].
    destruct (body acc a) as [acc' | e] eqn:Eb.
    + replace (Z.of_nat p + 1)%Z with (Z.of_nat (S p)) by lia.
      apply IH; [exact Hi' | | ].
      * intros j v Hv. replace (S p + j) with (p + S j) by lia. now apply Hl.
      * destruct Hc as [[Hd Hlt] | [[e He] Hle]].
        -- left. cbn in Hd, Hlt. replace (S p + List.length l) with (p + S (List.length l)) by lia.
           split; [exact Hd | lia].
        -- right. cbn [runReturn] in He. rewrite Eb in He. cbn in Hle.
           split; [now exists e | lia].
    + exists w'. now split.
Qed.

End ForOfReturn.

(** A loop over a sequence whose first elements are [l]: it runs the body
    over [l] when the sequence ends there, or when the body returns within
    [l]. *)
Lemma loop_spec {W T A R : Type} `{Nilable T} (s : Seq W T) (w : W) (g : Z -> Option T)
  (l : list T) (body : A -> T -> A + R) (acc : A) (fuel : nat) :
  Behaves s w g -> Prefix g l ->
  (iteration g (List.length l) = Done /\ List.length l < fuel) \/
  ((exists r, runReturn body l acc = inr r) /\ List.length l <= fuel) ->
  exists w', SeqFns.forOfReturn s fuel body 0%Z acc w = Some (runReturn body l acc, w').
Proof.
  intros (Inv & Hi & Hs) Hl Hc.
  destruct (forOfReturn_spec s Inv g Hs body l fuel 0 acc w Hi Hl Hc) as (w' & E & _).
  now exists w'.
Qed.

Lemma lists_loop {W T A R : Type} `{Nilable T} (s : Seq W T) (w : W) (l : list T)
  (body : A -> T -> A + R) (acc : A) (fuel : nat) :
  Lists s w l -> List.length l < fuel ->
  exists w', SeqFns.forOfReturn s fuel body 0%Z acc w = Some (runReturn body l acc, w').
Proof.
  intros (g & Hb & Hex) Hf. pose proof (exactly_enumerates g l Hex) as [Hp Hd].
  apply (loop_spec s w g l body acc fuel Hb Hp). left. now split.
Qed.

Lemma runReturn_fold {A T : Type} (body : A -> T -> A) (l : list T) : forall acc,
  runReturn (fun acc v => @inl A Empty_set (body acc v)) l acc = inl (fold_left body l acc).
Proof. induction l as [ | v l IH]; intros acc; cbn; [reflexivity | apply IH]. Qed.

Lemma forEachAcc_spec {W T A : Type} `{Nilable T} (s : Seq W T) (w : W) (l : list T)
  (body : A -> T -> A) (acc : A) (fuel : nat) :
  Lists s w l -> List.length l < fuel ->
  exists w', SeqFns.forEachAcc s fuel body acc w = Some (fold_left body l acc, w').
Proof.
  intros Hl Hf.
  destruct (lists_loop s w l (fun acc v => @inl A Empty_set (body acc v)) acc fuel Hl Hf)
    as (w' & E).
  exists w'. unfold SeqFns.forEachAcc. cbn [fresh iterator]. unfold bind, ret.
  now rewrite E, runReturn_fold.
Qed.

Lemma fold_left_count {T : Type} (l : list T) : forall c : Z,
  fold_left (fun c _ => (c + 1)%Z) l c = (c + Z.of_nat (List.length l))%Z.
Proof.
  induction l as [ | v l IH]; intros c; cbn [fold_left List.length]; [lia | ].
  rewrite IH. lia.
Qed.

Lemma fold_left_count_if {T : Type} (fn : T -> bool) (l : list T) : forall c : Z,
  fold_left (fun c v => if fn v then (c + 1)%Z else c) l c
  = (c + Z.of_nat (List.length (List.filter fn l)))%Z.
Proof.
  induction l as [ | v l IH]; intros c; cbn [fold_left List.filter]; [cbn; lia | ].
  rewrite IH. destruct (fn v); cbn [List.length]; lia.
Qed.

(** X7: on the finite sequence [l], [reduce(fn, init)] is the left fold of
    [fn] over [l] from [init]; [lengthUnsafe()] is the number of elements;
    [count(fn)] is the number of elements that satisfy [fn], and [count()]
    is [lengthUnsafe()]. *)
Theorem reduce_count_fold {W T U : Type} `{Nilable T} (s : Seq W T) (w : W) (l : list T)
  (fuel : nat) :
  Lists s w l -> List.length l < fuel ->
  (forall (fn : U -> T -> U) (init : U),
     exists w', SeqFns.reduce s fuel fn init w = Some (fold_left fn l init, w')) /\
  (exists w', SeqFns.lengthUnsafe s fuel w = Some (Z.of_nat (List.length l), w')) /\
  (forall fn, exists w', SeqFns.count s fuel (Some fn) w
                         = Some (Z.of_nat (List.length (List.filter fn l)), w')) /\
  (exists w', SeqFns.count s fuel None w = Some (Z.of_nat (List.length l), w')).
Proof.
  intros Hl Hf. split; [ | split; [ | split]].
  - intros fn init. exact (forEachAcc_spec s w l fn init fuel Hl Hf).
  - destruct (forEachAcc_spec s w l (fun c _ => (c + 1)%Z) 0%Z fuel Hl Hf) as (w' & E).
    exists w'. unfold SeqFns.lengthUnsafe. now rewrite E, fold_left_count.
  - intros fn.
    destruct (forEachAcc_spec s w l (fun c v => if fn v then (c + 1)%Z else c) 0%Z fuel Hl Hf)
      as (w' & E).
    exists w'. unfold SeqFns.count. now rewrite E, fold_left_count_if.
  - destruct (forEachAcc_spec s w l (fun c (_ : T) => if true then (c + 1)%Z else c) 0%Z fuel Hl Hf)
      as (w' & E).
    exists w'. unfold SeqFns.count. rewrite E. cbv match. now rewrite fold_left_count.
Qed.

Lemma reduce_count_fold_witness :
  (forall (fn : Z -> Z -> Z) (z : Z),
     exists w', SeqFns.reduce (fromArray [1; 2; 3]%Z) 4 fn z (init tt)
                = Some (fold_left fn [1; 2; 3]%Z z, w')) /\
  (exists w', SeqFns.lengthUnsafe (fromArray [1; 2; 3]%Z) 4 (init tt)
              = Some (Z.of_nat (List.length [1; 2; 3]%Z), w')) /\
  (forall fn, exists w', SeqFns.count (fromArray [1; 2; 3]%Z) 4 (Some fn) (init tt)
                         = Some (Z.of_nat (List.length (List.filter fn [1; 2; 3]%Z)), w')) /\
  (exists w', SeqFns.count (fromArray [1; 2; 3]%Z) 4 None (init tt)
              = Some (Z.of_nat (List.length [1; 2; 3]%Z), w')).
Proof.
  apply (reduce_count_fold (fromArray [1; 2; 3]%Z) (init tt) [1; 2; 3]%Z 4).
  - apply fromArray_lists. apply notNil_Z.
  - cbn. lia.
Defined.

Lemma some_notnil {T : Type} `{Nilable T} (v : T) :
  isNil v = false -> Option.some v = Normal (SOME v).
Proof. intros Hv. unfold Option.some. now rewrite Hv. Qed.

Lemma runReturn_find {T : Type} `{Nilable T} (fn : T -> bool) (l : list T) :
  notNil l ->
  runReturn (fun (_ : unit) v => if fn v then inr (Option.some v) else inl tt) l tt
  = match List.find fn l with
    | Some v => inr (Normal (SOME v))
    | None => inl tt
    end.
Proof.
  induction 1 as [ | v l Hv _ IH]; cbn [runReturn List.find]; [reflexivity | ].
  destruct (fn v); [now rewrite (some_notnil v Hv) | exact IH].
Qed.

(** X8: [find(fn)] never throws.  On a sequence, finite or not, whose first
    elements are [l], it returns the first element of [l] that satisfies
    [fn] as soon as there is one, without looking further; when the
    sequence ends after [l] and no element satisfies [fn], it returns
    [none]. *)
Theorem find_first_match {W T : Type} `{Nilable T} (s : Seq W T) (w : W) (g : Z -> Option T)
  (l : list T) (fn : T -> bool) (fuel : nat) :
  Behaves s w g -> Prefix g l ->
  (forall v, List.find fn l = Some v -> List.length l <= fuel ->
     exists w', SeqFns.find s fuel fn w = Some (Normal (SOME v), w')) /\
  (List.find fn l = None -> iteration g (List.length l) = Done -> List.length l < fuel ->
     exists w', SeqFns.find s fuel fn w = Some (Normal NONE, w')).
Proof.
  intros Hb Hl. pose proof (prefix_notnil s w g l Hb Hl) as Hn.
  pose proof (runReturn_find fn l Hn) as Hr. split.
  - intros v Hv Hf. rewrite Hv in Hr.
    destruct (loop_spec s w g l _ tt fuel Hb Hl
                (or_intror (conj (ex_intro _ _ Hr) Hf))) as (w' & E).
    exists w'. unfold SeqFns.find. cbn [fresh iterator]. unfold bind, ret.
    now rewrite E, Hr.
  - intros Hv Hd Hf. rewrite Hv in Hr.
    destruct (loop_spec s w g l
                (fun (_ : unit) v => if fn v then inr (Option.some v) else inl tt) tt fuel Hb Hl
                (or_introl (conj Hd Hf))) as (w' & E).
    exists w'. unfold SeqFns.find. cbn [fresh iterator]. unfold bind, ret.
    now rewrite E, Hr.
Qed.

Lemma find_first_match_witness :
  (exists w', SeqFns.find (fromArray [1; 2; 3; 4; 5]%Z) 3 Z.even (init tt)
              = Some (Normal (SOME 2%Z), w')) /\
  (exists w', SeqFns.find (fromArray [1; 3]%Z) 3 Z.even (init tt)
              = Some (Normal NONE, w')).
Proof.
  split.
  - destruct (find_first_match (fromArray [1; 2; 3; 4; 5]%Z) (init tt)
                (denote (ofList [1; 2; 3; 4; 5]%Z)) [1; 2; 3]%Z Z.even 3) as [Hfound _].
    + apply fromArray_behaves.
    + intros [ | [ | [ | p]]] v Hv; cbn in Hv; inv Hv; try reflexivity.
      destruct p; discriminate.
    + apply Hfound; [reflexivity | cbn; lia].
  - destruct (find_first_match (fromArray [1; 3]%Z) (init tt)
                (denote (ofList [1; 3]%Z)) [1; 3]%Z Z.even 3) as [_ Hnone].
    + apply fromArray_behaves.
    + intros [ | [ | p]] v Hv; cbn in Hv; inv Hv; try reflexivity.
      destruct p; discriminate.
    + apply Hnone; [reflexivity | reflexivity | cbn; lia].
Defined.

Lemma runReturn_exists {T : Type} (fn : T -> bool) (b : bool) (l : list T) :
  runReturn (fun (_ : unit) v => if fn v then inr b else inl tt) l tt
  = if existsb fn l then inr b else inl tt.
Proof.
  induction l as [ | v l IH]; cbn [runReturn existsb]; [reflexivity | ].
  destruct (fn v); [reflexivity | exact IH].
Qed.

Lemma runReturn_forall {T : Type} (fn : T -> bool) (l : list T) :
  runReturn (fun (_ : unit) v => if negb (fn v) then inr false else inl tt) l tt
  = if forallb fn l then inl tt else inr false.
Proof.
  induction l as [ | v l IH]; cbn [runReturn forallb]; [reflexivity | ].
  destruct (fn v); [exact IH | reflexivity].
Qed.

(** X9: on a sequence, finite or not, whose first elements are [l]:
    [some(fn)] is [true] and [none(fn)] is [false] as soon as an element of
    [l] satisfies [fn], and [every(fn)] is [false] as soon as one does not;
    when the sequence ends after [l], [some] is "some element of [l]
    satisfies [fn]", [every] is "all do" (so [true] on the empty sequence)
    and [none] is the negation of [some]. *)
Theorem some_every_none {W T : Type} `{Nilable T} (s : Seq W T) (w : W) (g : Z -> Option T)
  (l : list T) (fn : T -> bool) (fuel : nat) :
  Behaves s w g -> Prefix g l ->
  (existsb fn l = true -> List.length l <= fuel ->
     (exists w', SeqFns.some s fuel fn w = Some (true, w')) /\
     (exists w', SeqFns.none s fuel fn w = Some (false, w'))) /\
  (forallb fn l = false -> List.length l <= fuel ->
     exists w', SeqFns.every s fuel fn w = Some (false, w')) /\
  (iteration g (List.length l) = Done -> List.length l < fuel ->
     (exists w', SeqFns.some s fuel fn w = Some (existsb fn l, w')) /\
     (exists w', SeqFns.every s fuel fn w = Some (forallb fn l, w')) /\
     (exists w', SeqFns.none s fuel fn w = Some (negb (existsb fn l), w'))).
Proof.
  intros Hb Hl.
  pose proof (runReturn_exists fn true l) as Hsome.
  pose proof (runReturn_exists fn false l) as Hnone.
  pose proof (runReturn_forall fn l) as Hevery.
  split; [ | split].
  - intros He Hf. rewrite He in Hsome, Hnone. split.
    + destruct (loop_spec s w g l _ tt fuel Hb Hl
                  (or_intror (conj (ex_intro _ _ Hsome) Hf))) as (w' & E).
      exists w'. unfold SeqFns.some. cbn [fresh iterator]. unfold bind, ret.
      now rewrite E, Hsome.
    + destruct (loop_spec s w g l _ tt fuel Hb Hl
                  (or_intror (conj (ex_intro _ _ Hnone) Hf))) as (w' & E).
      exists w'. unfold SeqFns.none. cbn [fresh iterator]. unfold bind, ret.
      now rewrite E, Hnone.
  - intros He Hf. rewrite He in Hevery.
    destruct (loop_spec s w g l _ tt fuel Hb Hl
                (or_intror (conj (ex_intro _ _ Hevery) Hf))) as (w' & E).
    exists w'. unfold SeqFns.every. cbn [fresh iterator]. unfold bind, ret.
    now rewrite E, Hevery.
  - intros Hd Hf. split; [ | split].
    + destruct (loop_spec s w g l (fun (_ : unit) v => if fn v then inr true else inl tt)
                  tt fuel Hb Hl (or_introl (conj Hd Hf))) as (w' & E).
      exists w'. unfold SeqFns.some. cbn [fresh iterator]. unfold bind, ret.
      rewrite E, Hsome. now destruct (existsb fn l).
    + destruct (loop_spec s w g l
                  (fun (_ : unit) v => if negb (fn v) then inr false else inl tt)
                  tt fuel Hb Hl (or_introl (conj Hd Hf))) as (w' & E).
      exists w'. unfold SeqFns.every. cbn [fresh iterator]. unfold bind, ret.
      rewrite E, Hevery. now destruct (forallb fn l).
    + destruct (loop_spec s w g l (fun (_ : unit) v => if fn v then inr false else inl tt)
                  tt fuel Hb Hl (or_introl (conj Hd Hf))) as (w' & E).
      exists w'. unfold SeqFns.none. cbn [fresh iterator]. unfold bind, ret.
      rewrite E, Hnone. now destruct (existsb fn l).
Qed.

Lemma some_every_none_witness :
  ((exists w', SeqFns.some (fromArray [1; 2; 3]%Z) 2 Z.even (init tt) = Some (true, w')) /\
   (exists w', SeqFns.none (fromArray [1; 2; 3]%Z) 2 Z.even (init tt) = Some (false, w')) /\
   (exists w', SeqFns.every (fromArray [1; 2; 3]%Z) 2 Z.even (init tt) = Some (false, w'))) /\
  ((exists w', SeqFns.some (fromArray [2; 4]%Z) 3 Z.even (init tt)
               = Some (existsb Z.even [2; 4]%Z, w')) /\
   (exists w', SeqFns.every (fromArray [2; 4]%Z) 3 Z.even (init tt)
               = Some (forallb Z.even [2; 4]%Z, w')) /\
   (exists w', SeqFns.none (fromArray [2; 4]%Z) 3 Z.even (init tt)
               = Some (negb (existsb Z.even [2; 4]%Z), w'))).
Proof.
  split.
  - destruct (some_every_none (fromArray [1; 2; 3]%Z) (init tt) (denote (ofList [1; 2; 3]%Z))
                [1; 2]%Z Z.even 2) as (Hex & Hall & _).
    + apply fromArray_behaves.
    + intros [ | [ | p]] v Hv; cbn in Hv; inv Hv; try reflexivity. destruct p; discriminate.
    + destruct Hex as [Hsome Hnone]; [reflexivity | cbn; lia | ].
      split; [exact Hsome | split; [exact Hnone | ]].
      apply Hall; [reflexivity | cbn; lia].
  - destruct (some_every_none (fromArray [2; 4]%Z) (init tt) (denote (ofList [2; 4]%Z))
                [2; 4]%Z Z.even 3) as (_ & _ & Hend).
    + apply fromArray_behaves.
    + intros [ | [ | p]] v Hv; cbn in Hv; inv Hv; try reflexivity. destruct p; discriminate.
    + apply Hend; [reflexivity | cbn; lia].
Defined.

Lemma runReturn_last {T : Type} `{Nilable T} (l : list T) : forall acc : Option T,
  notNil l ->
  runReturn (fun (_ : Option T) value =>
               match Option.some value with
               | Normal o => @inl (Option T) Error o
               | Throws e => inr e
               end) l acc
  = inl (fold_left (fun _ v => SOME v) l acc).
Proof.
  induction l as [ | v l IH]; intros acc Hn; cbn [runReturn fold_left]; [reflexivity | ].
  inv Hn. rewrite (some_notnil v H2). now apply IH.
Qed.

Lemma fold_left_last {T : Type} (l : list T) :
  fold_left (fun (_ : Option T) v => SOME v) l NONE = lastOf l.
Proof.
  unfold lastOf. destruct l as [ | a l] using rev_ind; [reflexivity | ].
  rewrite fold_left_app, rev_app_distr. reflexivity.
Qed.

(** X10: on the finite sequence [l], [isEmpty()] tells whether [l] is
    empty, and [last()] never throws and returns the last element of [l],
    or [none] when [l] is empty. *)
Theorem isEmpty_last {W T : Type} `{Nilable T} (s : Seq W T) (w : W) (l : list T)
  (fuel : nat) :
  Lists s w l -> List.length l < fuel ->
  (exists w', SeqFns.isEmpty s w = Some (match l with [] => true | _ => false end, w')) /\
  (exists w', SeqFns.last s fuel w = Some (Normal (lastOf l), w')).
Proof.
  intros Hl Hf. split.
  - destruct Hl as (g & Hb & Hex). destruct (behaves_get s w g 0%Z Hb) as (w' & E & _).
    exists w'. unfold SeqFns.isEmpty, bind, ret. rewrite E.
    destruct l as [ | v l'].
    + pose proof (proj2 Hex 0 (Nat.le_refl 0)) as E0. cbn in E0. now rewrite E0.
    + pose proof (proj1 Hex 0 v eq_refl) as E0. cbn in E0. now rewrite E0.
  - pose proof (lists_notnil s w l Hl) as Hn.
    destruct (lists_loop s w l
                (fun (_ : Option T) value =>
                   match Option.some value with
                   | Normal o => @inl (Option T) Error o
                   | Throws e => inr e
                   end) Option.none fuel Hl Hf) as (w' & E).
    exists w'. unfold SeqFns.last. cbn [fresh iterator]. unfold bind, ret.
    rewrite E, (runReturn_last l _ Hn). unfold Option.none. now rewrite fold_left_last.
Qed.

Lemma isEmpty_last_witness :
  (exists w', SeqFns.isEmpty (fromArray [1; 2; 3]%Z) (init tt)
              = Some (match [1; 2; 3]%Z with [] => true | _ => false end, w')) /\
  (exists w', SeqFns.last (fromArray [1; 2; 3]%Z) 4 (init tt)
              = Some (Normal (lastOf [1; 2; 3]%Z), w')).
Proof.
  apply (isEmpty_last (fromArray [1; 2; 3]%Z) (init tt) [1; 2; 3]%Z 4).
  - apply fromArray_lists. apply notNil_Z.
  - cbn. lia.
Defined.

Lemma fold_left_push {T : Type} (l : list T) : forall acc : list T,
  fold_left (fun arr val => arr ++ [val]) l acc = acc ++ l.
Proof.
  induction l as [ | v l IH]; intros acc; cbn [fold_left]; [now rewrite app_nil_r | ].
  rewrite IH, <- app_assoc. reflexivity.
Qed.

Lemma fromArrayObj_lists {T : Type} `{Nilable T} (arr : list T) :
  notNil arr -> Lists (handle (fromArrayObj arr)) (state (fromArrayObj arr)) arr.
Proof. intros Hn. unfold fromArrayObj. cbn [handle state store]. now apply fromArray_lists. Qed.

Lemma reverseUnsafe_spec {W T : Type} `{Nilable T} (s : Seq W T) (w : W) (l : list T)
  (fuel : nat) :
  Lists s w l -> List.length l < fuel ->
  exists w', SeqFns.reverseUnsafe s fuel w = Some (fromArrayObj (rev l), w').
Proof.
  intros Hl Hf.
  destruct (forEachAcc_spec s w l (fun arr val => arr ++ [val]) [] fuel Hl Hf) as (w' & E).
  exists w'. unfold SeqFns.reverseUnsafe, bind, ret. now rewrite E, fold_left_push.
Qed.

(** X11: [reverseUnsafe()] of the finite sequence [l] is a sequence that
    lists [l] backwards, and reversing that one again gives a sequence that
    lists [l]: reversing twice is the identity on contents. *)
Theorem reverseUnsafe_involutive {W T : Type} `{Nilable T} (s : Seq W T) (w : W)
  (l : list T) (fuel : nat) :
  Lists s w l -> List.length l < fuel ->
  exists o w', SeqFns.reverseUnsafe s fuel w = Some (o, w') /\
    Lists (handle o) (state o) (rev l) /\
    exists o' st, SeqFns.reverseUnsafe (handle o) fuel (state o) = Some (o', st) /\
      Lists (handle o') (state o') l.
Proof.
  intros Hl Hf. pose proof (lists_notnil s w l Hl) as Hn.
  assert (Hr : notNil (rev l)) by (now apply Forall_rev).
  destruct (reverseUnsafe_spec s w l fuel Hl Hf) as (w' & E).
  exists (fromArrayObj (rev l)), w'. split; [exact E | ].
  pose proof (fromArrayObj_lists (rev l) Hr) as Hl'. split; [exact Hl' | ].
  destruct (reverseUnsafe_spec _ _ (rev l) fuel Hl') as (st & E');
    [now rewrite length_rev | ].
  rewrite rev_involutive in E'. exists (fromArrayObj l), st. split; [exact E' | ].
  now apply fromArrayObj_lists.
Qed.

Lemma reverseUnsafe_involutive_witness :
  exists o w', SeqFns.reverseUnsafe (fromArray [1; 2; 3]%Z) 4 (init tt) = Some (o, w') /\
    Lists (handle o) (state o) (rev [1; 2; 3]%Z) /\
    exists o' st, SeqFns.reverseUnsafe (handle o) 4 (state o) = Some (o', st) /\
      Lists (handle o') (state o') [1; 2; 3]%Z.
Proof.
  apply (reverseUnsafe_involutive (fromArray [1; 2; 3]%Z) (init tt) [1; 2; 3]%Z 4).
  - apply fromArray_lists. apply notNil_Z.
  - cbn. lia.
Defined.

Lemma fold_left_partition {T : Type} (predicate : T -> bool) (l : list T) :
  forall pass fail : list T,
  fold_left (fun '(pass, fail) value =>
               if predicate value then (pass ++ [value], fail) else (pass, fail ++ [value]))
    l (pass, fail)
  = (pass ++ List.filter predicate l, fail ++ List.filter (fun v => negb (predicate v)) l).
Proof.
  induction l as [ | v l IH]; intros pass fail; cbn [fold_left List.filter].
  - now rewrite !app_nil_r.
  - destruct (predicate v); cbn [negb]; rewrite IH, <- app_assoc; reflexivity.
Qed.

(** X12: [partition(predicate)] of the finite sequence [l] returns two
    sequences: the first lists the elements of [l] that satisfy the
    predicate, the second those that do not, both in the order of [l]; no
    element is lost or duplicated. *)
Theorem partition_splits {W T : Type} `{Nilable T} (s : Seq W T) (w : W) (l : list T)
  (predicate : T -> bool) (fuel : nat) :
  Lists s w l -> List.length l < fuel ->
  exists pass fail w', SeqFns.partition s fuel predicate w = Some ((pass, fail), w') /\
    Lists (handle pass) (state pass) (List.filter predicate l) /\
    Lists (handle fail) (state fail) (List.filter (fun v => negb (predicate v)) l) /\
    List.length (List.filter predicate l)
    + List.length (List.filter (fun v => negb (predicate v)) l) = List.length l.
Proof.
  intros Hl Hf. pose proof (lists_notnil s w l Hl) as Hn.
  destruct (forEachAcc_spec s w l
              (fun '(pass, fail) value =>
                 if predicate value then (pass ++ [value], fail) else (pass, fail ++ [value]))
              ([], []) fuel Hl Hf) as (w' & E).
  rewrite fold_left_partition in E. cbn [app] in E.
  exists (fromArrayObj (List.filter predicate l)),
         (fromArrayObj (List.filter (fun v => negb (predicate v)) l)), w'.
  split; [ | split; [ | split]].
  - unfold SeqFns.partition, bind, ret. now rewrite E.
  - apply fromArrayObj_lists. now apply notNil_filter.
  - apply fromArrayObj_lists. now apply notNil_filter.
  - clear. induction l as [ | v l IH]; [reflexivity | ].
    cbn [List.filter]. destruct (predicate v); cbn [negb List.length]; lia.
Qed.

Lemma partition_splits_witness :
  exists pass fail w',
    SeqFns.partition (fromArray [1; 2; 3; 4]%Z) 5 Z.even (init tt) = Some ((pass, fail), w') /\
    Lists (handle pass) (state pass) (List.filter Z.even [1; 2; 3; 4]%Z) /\
    Lists (handle fail) (state fail) (List.filter (fun v => negb (Z.even v)) [1; 2; 3; 4]%Z) /\
    List.length (List.filter Z.even [1; 2; 3; 4]%Z)
    + List.length (List.filter (fun v => negb (Z.even v)) [1; 2; 3; 4]%Z)
    = List.length [1; 2; 3; 4]%Z.
Proof.
  apply (partition_splits (fromArray [1; 2; 3; 4]%Z) (init tt) [1; 2; 3; 4]%Z Z.even 5).
  - apply fromArray_lists. apply notNil_Z.
  - cbn. lia.
Defined.

(** ** Running folds and positional edits *)

Lemma nth_error_running {T U : Type} (fn : U -> T -> U) (l : list T) :
  forall (acc : U) (p : nat),
  nth_error (running fn acc l) p
  = match nth_error l p with
    | Some v => Some (fn (fold_left fn (firstn p l) acc) v)
    | None => None
    end.
Proof.
  induction l as [ | a l IH]; intros acc p; [now destruct p | ].
  destruct p as [ | p]; [reflexivity | ]. cbn [running nth_error firstn fold_left]. apply IH.
Qed.

Lemma length_running {T U : Type} (fn : U -> T -> U) (l : list T) :
  forall acc : U, List.length (running fn acc l) = List.length l.
Proof. induction l as [ | a l IH]; intros acc; cbn; [reflexivity | now rewrite IH]. Qed.

Lemma firstn_S_fold {T U : Type} (fn : U -> T -> U) (l : list T) (p : nat) (v : T) (acc : U) :
  nth_error l p = Some v ->
  fold_left fn (firstn (S p) l) acc = fn (fold_left fn (firstn p l) acc) v.
Proof.
  intros Hv. rewrite <- (firstn_snoc l p v Hv), fold_left_app. reflexivity.
Qed.

Lemma nth_error_inserted {T : Type} (l : list T) (k p : nat) (v : T) :
  k <= List.length l ->
  nth_error (firstn k l ++ v :: skipn k l) p
  = if p <? k then nth_error l p
    else if p =? k then Some v else nth_error l (p - 1).
Proof.
  intros Hk. assert (Hlen : List.length (firstn k l) = k) by (rewrite length_firstn; lia).
  destruct (Nat.ltb_spec p k) as [Hlt | Hge].
  - rewrite nth_error_app1 by lia. now apply nth_error_firstn_lt || rewrite nth_error_firstn;
      destruct (Nat.ltb_spec p k); try lia; reflexivity.
  - rewrite nth_error_app2 by lia. rewrite Hlen.
    destruct (Nat.eqb_spec p k) as [-> | Hne]; [now rewrite Nat.sub_diag | ].
    replace (p - k) with (S (p - k - 1)) by lia. cbn [nth_error].
    rewrite nth_error_skipn. f_equal. lia.
Qed.

Lemma nth_error_removed {T : Type} (l : list T) (k p : nat) :
  k < List.length l ->
  nth_error (firstn k l ++ skipn (S k) l) p
  = if p <? k then nth_error l p else nth_error l (S p).
Proof.
  intros Hk. assert (Hlen : List.length (firstn k l) = k) by (rewrite length_firstn; lia).
  destruct (Nat.ltb_spec p k) as [Hlt | Hge].
  - rewrite nth_error_app1 by lia. rewrite nth_error_firstn.
    destruct (Nat.ltb_spec p k); try lia; reflexivity.
  - rewrite nth_error_app2 by lia. rewrite Hlen, nth_error_skipn. f_equal. lia.
Qed.

Lemma nth_error_replaced {T : Type} (l : list T) (k p : nat) (v : T) :
  k < List.length l ->
  nth_error (firstn k l ++ v :: skipn (S k) l) p
  = if p =? k then Some v else nth_error l p.
Proof.
  intros Hk. assert (Hlen : List.length (firstn k l) = k) by (rewrite length_firstn; lia).
  destruct (Nat.eqb_spec p k) as [-> | Hne].
  - rewrite nth_error_app2 by lia. now rewrite Hlen, Nat.sub_diag.
  - destruct (Nat.lt_ge_cases p k) as [Hlt | Hge].
    + rewrite nth_error_app1 by lia. rewrite nth_error_firstn.
      destruct (Nat.ltb_spec p k); try lia; reflexivity.
    + rewrite nth_error_app2 by lia. rewrite Hlen.
      replace (p - k) with (S (p - k - 1)) by lia. cbn [nth_error].
      rewrite nth_error_skipn. f_equal. lia.
Qed.

Section EditSpec.
Context {W T : Type} `{Nilable T}.
Variable s : Seq W T.
Variable Inv : W -> Prop.
Variable g : Z -> Option T.
Hypothesis Hs : SeqSpec s everywhere Inv g.
Variable l : list T.
Hypothesis Hex : Exactly g l.

Lemma scan_source_spec {U : Type} (fn : U -> T -> U) (initial : U) :
  SourceSpec (SeqFns.scan_source s fn initial) everywhere Inv
    (fun c p => p <= List.length l ->
                c = (Z.of_nat p, fold_left fn (firstn p l) initial))
    (ofList (running fn initial l)).
Proof.
  split.
  - intros w Hi. exists (0%Z, initial), w. split; [reflexivity | ]. split; [ | exact Hi].
    intros _. reflexivity.
  - intros [it acc] p w Hi Ha _ Hy. pose proof (no_done_le _ p Hy) as Hp.
    rewrite length_running in Hp. specialize (Ha Hp). inv Ha.
    cbn [next SeqFns.scan_source iterator]. unfold bind, ret.
    destruct (pull s Inv g Hs l Hex p w Hi) as (o & w' & E & Ho & Hi').
    rewrite E, Ho. unfold ofList. rewrite nth_error_running.
    destruct (nth_error l p) as [v | ] eqn:Ev.
    + eexists _, w'. split; [reflexivity | ]. split; [ | exact Hi']. intros _.
      rewrite (firstn_S_fold fn l p v initial Ev). f_equal. lia.
    + eexists _, w'. split; [reflexivity | ]. split; [ | exact Hi'].
      apply nth_error_None in Ev. intros Hsp. lia.
Qed.

Lemma insertAt_source_spec_in (k : nat) (value : T) :
  k <= List.length l ->
  SourceSpec (SeqFns.insertAt_source s (Z.of_nat k) value) everywhere Inv
    (fun c p =>
       (p <= k -> c = (Z.of_nat p, Z.of_nat p, false)) /\
       (k < p -> p <= S (List.length l) -> c = (Z.of_nat (p - 1), Z.of_nat (p - 1), true)))
    (ofList (firstn k l ++ value :: skipn k l)).
Proof.
  intros Hk. split.
  - intros w Hi. exists (0%Z, 0%Z, false), w. split; [reflexivity | ]. split; [ | exact Hi].
    split; [reflexivity | lia].
  - intros [[it i] inserted] p w Hi [Ha1 Ha2] _ Hy. pose proof (no_done_le _ p Hy) as Hp.
    rewrite length_app, length_firstn in Hp. cbn [List.length] in Hp.
    rewrite length_skipn in Hp.
    cbn [next SeqFns.insertAt_source iterator]. unfold bind, ret.
    unfold ofList at 1. rewrite (nth_error_inserted l k p value Hk).
    destruct (Nat.ltb_spec p k) as [Hlt | Hge].
    + specialize (Ha1 ltac:(lia)). inv Ha1.
      replace (Z.of_nat p =? Z.of_nat k)%Z with false by (symmetry; apply Z.eqb_neq; lia).
      cbn [andb]. destruct (pull s Inv g Hs l Hex p w Hi) as (o & w' & E & Ho & Hi').
      rewrite E, Ho. unfold ofList.
      destruct (nth_error l p) as [x | ] eqn:Ex; [ | apply nth_error_None in Ex; lia].
      eexists _, w'. split; [reflexivity | ]. split; [ | exact Hi'].
      split; [intros _; repeat f_equal; lia | lia].
    + destruct (Nat.eqb_spec p k) as [-> | Hne].
      * specialize (Ha1 (Nat.le_refl k)). inv Ha1. rewrite Z.eqb_refl. cbn [andb negb].
        eexists _, w. split; [reflexivity | ]. split; [ | exact Hi].
        split; [lia | ]. intros _ _. replace (S k - 1) with k by lia. reflexivity.
      * specialize (Ha2 ltac:(lia) ltac:(lia)). inv Ha2. rewrite andb_false_r.
        destruct (pull s Inv g Hs l Hex (p - 1) w Hi) as (o & w' & E & Ho & Hi').
        rewrite E, Ho. unfold ofList.
        destruct (nth_error l (p - 1)) as [x | ] eqn:Ex.
        -- eexists _, w'. split; [reflexivity | ]. split; [ | exact Hi'].
           split; [lia | ]. intros _ _. repeat f_equal; lia.
        -- eexists _, w'. split; [reflexivity | ]. split; [ | exact Hi'].
           apply nth_error_None in Ex. split; lia.
Qed.

Lemma insertAt_source_spec_out (index : Z) (value : T) :
  (index < 0 \/ Z.of_nat (List.length l) < index)%Z ->
  SourceSpec (SeqFns.insertAt_source s index value) everywhere Inv
    (fun c p => p <= List.length l -> c = (Z.of_nat p, Z.of_nat p, false))
    (ofList l).
Proof.
  intros Hk. split.
  - intros w Hi. exists (0%Z, 0%Z, false), w. split; [reflexivity | ]. split; [ | exact Hi].
    reflexivity.
  - intros [[it i] inserted] p w Hi Ha _ Hy. pose proof (no_done_le _ p Hy) as Hp.
    specialize (Ha Hp). inv Ha.
    cbn [next SeqFns.insertAt_source iterator]. unfold bind, ret.
    replace (Z.of_nat p =? index)%Z with false by (symmetry; apply Z.eqb_neq; lia).
    cbn [andb]. destruct (pull s Inv g Hs l Hex p w Hi) as (o & w' & E & Ho & Hi').
    rewrite E, Ho. unfold ofList.
    destruct (nth_error l p) as [x | ] eqn:Ex.
    + eexists _, w'. split; [reflexivity | ]. split; [ | exact Hi'].
      intros _. repeat f_equal; lia.
    + eexists _, w'. split; [reflexivity | ]. split; [ | exact Hi'].
      apply nth_error_None in Ex. lia.
Qed.

Lemma insertAt_source_spec (index : Z) (value : T) :
  exists At, SourceSpec (SeqFns.insertAt_source s index value) everywhere Inv At
               (ofList (insertedAt index value l)).
Proof.
  unfold insertedAt.
  destruct ((0 <=? index) && (index <=? Z.of_nat (List.length l)))%Z eqn:Hr.
  - apply andb_true_iff in Hr. destruct Hr as [H0 H1]. apply Z.leb_le in H0, H1.
    eexists. rewrite <- (Z2Nat.id index H0) at 1. apply insertAt_source_spec_in. lia.
  - apply andb_false_iff in Hr. eexists. apply insertAt_source_spec_out.
    destruct Hr as [Hr | Hr]; [apply Z.leb_gt in Hr | apply Z.leb_gt in Hr]; lia.
Qed.

Lemma replaceAt_source_spec (index : Z) (value : T) :
  SourceSpec (SeqFns.replaceAt_source s index value) everywhere Inv
    (fun c p => p <= List.length l -> c = (Z.of_nat p, Z.of_nat p))
    (ofList (replacedAt index value l)).
Proof.
  assert (Hlen : List.length (replacedAt index value l) = List.length l).
  { unfold replacedAt.
    destruct ((0 <=? index) && (index <? Z.of_nat (List.length l)))%Z eqn:Hr; [ | reflexivity].
    apply andb_true_iff in Hr. destruct Hr as [H0 H1]. apply Z.leb_le in H0.
    apply Z.ltb_lt in H1. rewrite length_app, length_firstn. cbn [List.length].
    rewrite length_skipn. lia. }
  split.
  - intros w Hi. exists (0%Z, 0%Z), w. split; [reflexivity | ]. split; [ | exact Hi].
    reflexivity.
  - intros [it i] p w Hi Ha _ Hy. pose proof (no_done_le _ p Hy) as Hp.
    rewrite Hlen in Hp. specialize (Ha Hp). inv Ha.
    cbn [next SeqFns.replaceAt_source iterator]. unfold bind, ret.
    destruct (pull s Inv g Hs l Hex p w Hi) as (o & w' & E & Ho & Hi').
    rewrite E, Ho. unfold ofList, replacedAt.
    destruct (nth_error l p) as [x | ] eqn:Ex.
    + exists ((Z.of_nat p + 1)%Z, (Z.of_nat p + 1)%Z), w'.
      split; [ | split; [intros _; repeat f_equal; lia | exact Hi']].
      match goal with
      | |- Some (Yield ?a, _, _) = Some (match ?b with _ => _ end, _, _) =>
          replace b with (Some a); [reflexivity | ]
      end.
      symmetry.
      destruct ((0 <=? index) && (index <? Z.of_nat (List.length l)))%Z eqn:Hr.
      * apply andb_true_iff in Hr. destruct Hr as [H0 H1]. apply Z.leb_le in H0.
        apply Z.ltb_lt in H1. rewrite nth_error_replaced by lia.
        destruct (Nat.eqb_spec p (Z.to_nat index)) as [Heq | Hne].
        -- now replace (Z.of_nat p =? index)%Z with true by (symmetry; apply Z.eqb_eq; lia).
        -- replace (Z.of_nat p =? index)%Z with false by (symmetry; apply Z.eqb_neq; lia).
           now rewrite Ex.
      * rewrite Ex. assert (Hlt : p < List.length l) by (apply nth_error_Some; congruence).
        apply andb_false_iff in Hr.
        replace (Z.of_nat p =? index)%Z with false; [reflexivity | ].
        symmetry. apply Z.eqb_neq.
        destruct Hr as [Hr | Hr]; [apply Z.leb_gt in Hr | apply Z.ltb_ge in Hr]; lia.
    + assert (Hge : List.length l <= p) by (now apply nth_error_None).
      replace (nth_error _ p) with (@None T)
        by (symmetry; apply nth_error_None; fold (replacedAt index value l); lia).
      eexists _, w'. split; [reflexivity | ]. split; [ | exact Hi']. lia.
Qed.

Lemma removeAt_source_spec_in (k fuel : nat) :
  k < List.length l -> 2 <= fuel ->
  SourceSpec (SeqFns.removeAt_source s fuel (Z.of_nat k)) everywhere Inv
    (fun c p =>
       (p <= k -> c = (Z.of_nat p, Z.of_nat p)) /\
       (k < p -> p < List.length l -> c = ((Z.of_nat p + 1)%Z, (Z.of_nat p + 1)%Z)))
    (ofList (firstn k l ++ skipn (S k) l)).
Proof.
  intros Hk Hf. split.
  - intros w Hi. exists (0%Z, 0%Z), w. split; [reflexivity | ]. split; [ | exact Hi].
    split; [reflexivity | lia].
  - intros [it i] p w Hi [Ha1 Ha2] _ Hy. pose proof (no_done_le _ p Hy) as Hp.
    rewrite length_app, length_firstn, length_skipn in Hp.
    cbn [next SeqFns.removeAt_source].
    destruct fuel as [ | [ | fuel']]; [lia | lia | ].
    unfold ofList at 1. rewrite (nth_error_removed l k p Hk).
    destruct (Nat.ltb_spec p k) as [Hlt | Hge].
    + specialize (Ha1 ltac:(lia)). inv Ha1.
      cbn [SeqFns.removeAt_next next iterator]. unfold bind, ret.
      destruct (pull s Inv g Hs l Hex p w Hi) as (o & w' & E & Ho & Hi').
      rewrite E, Ho. unfold ofList.
      destruct (nth_error l p) as [x | ] eqn:Ex; [ | apply nth_error_None in Ex; lia].
      replace (Z.of_nat p =? Z.of_nat k)%Z with false by (symmetry; apply Z.eqb_neq; lia).
      eexists _, w'. split; [reflexivity | ]. split; [ | exact Hi'].
      split; [intros _; repeat f_equal; lia | lia].
    + destruct (Nat.eq_dec p k) as [-> | Hne].
      * specialize (Ha1 (Nat.le_refl k)). inv Ha1.
        cbn [SeqFns.removeAt_next next iterator]. unfold bind, ret.
        destruct (pull s Inv g Hs l Hex k w Hi) as (o & w' & E & Ho & Hi').
        rewrite E, Ho. unfold ofList.
        destruct (nth_error l k) as [x | ] eqn:Ex; [ | apply nth_error_None in Ex; lia].
        rewrite Z.eqb_refl.
        destruct (pull s Inv g Hs l Hex (S k) w' Hi') as (o2 & w2 & E2 & Ho2 & Hi2).
        replace (Z.of_nat k + 1)%Z with (Z.of_nat (S k)) by lia.
        rewrite E2, Ho2. unfold ofList.
        destruct (nth_error l (S k)) as [y | ] eqn:Ey.
        -- replace (Z.of_nat (S k) =? Z.of_nat k)%Z with false
             by (symmetry; apply Z.eqb_neq; lia).
           eexists _, w2. split; [reflexivity | ]. split; [ | exact Hi2].
           split; [lia | ]. intros _ _. repeat f_equal; lia.
        -- eexists _, w2. split; [reflexivity | ]. split; [ | exact Hi2].
           apply nth_error_None in Ey. split; lia.
      * specialize (Ha2 ltac:(lia) ltac:(lia)). inv Ha2.
        cbn [SeqFns.removeAt_next next iterator]. unfold bind, ret.
        destruct (pull s Inv g Hs l Hex (S p) w Hi) as (o & w' & E & Ho & Hi').
        replace (Z.of_nat (S p)) with (Z.of_nat p + 1)%Z in E by lia.
        rewrite E, Ho. unfold ofList.
        destruct (nth_error l (S p)) as [x | ] eqn:Ex.
        -- replace (Z.of_nat p + 1 =? Z.of_nat k)%Z with false
             by (symmetry; apply Z.eqb_neq; lia).
           eexists _, w'. split; [reflexivity | ]. split; [ | exact Hi'].
           split; [lia | ]. intros _ _. repeat f_equal; lia.
        -- eexists _, w'. split; [reflexivity | ]. split; [ | exact Hi'].
           apply nth_error_None in Ex. split; lia.
Qed.

Lemma removeAt_source_spec_out (index : Z) (fuel : nat) :
  (index < 0 \/ Z.of_nat (List.length l) <= index)%Z -> 2 <= fuel ->
  SourceSpec (SeqFns.removeAt_source s fuel index) everywhere Inv
    (fun c p => p <= List.length l -> c = (Z.of_nat p, Z.of_nat p))
    (ofList l).
Proof.
  intros Hk Hf. split.
  - intros w Hi. exists (0%Z, 0%Z), w. split; [reflexivity | ]. split; [ | exact Hi].
    reflexivity.
  - intros [it i] p w Hi Ha _ Hy. pose proof (no_done_le _ p Hy) as Hp.
    specialize (Ha Hp). inv Ha. cbn [next SeqFns.removeAt_source].
    destruct fuel as [ | fuel']; [lia | ].
    cbn [SeqFns.removeAt_next next iterator]. unfold bind, ret.
    destruct (pull s Inv g Hs l Hex p w Hi) as (o & w' & E & Ho & Hi').
    rewrite E, Ho. unfold ofList.
    destruct (nth_error l p) as [x | ] eqn:Ex.
    + assert (Hlt : p < List.length l) by (apply nth_error_Some; congruence).
      replace (Z.of_nat p =? index)%Z with false by (symmetry; apply Z.eqb_neq; lia).
      eexists _, w'. split; [reflexivity | ]. split; [ | exact Hi'].
      intros _. repeat f_equal; lia.
    + eexists _, w'. split; [reflexivity | ]. split; [ | exact Hi'].
      apply nth_error_None in Ex. lia.
Qed.

Lemma removeAt_source_spec (index : Z) (fuel : nat) :
  2 <= fuel ->
  exists At, SourceSpec (SeqFns.removeAt_source s fuel index) everywhere Inv At
               (ofList (removedAt index l)).
Proof.
  intros Hf. unfold removedAt.
  destruct ((0 <=? index) && (index <? Z.of_nat (List.length l)))%Z eqn:Hr.
  - apply andb_true_iff in Hr. destruct Hr as [H0 H1]. apply Z.leb_le in H0.
    apply Z.ltb_lt in H1.
    eexists. rewrite <- (Z2Nat.id index H0) at 1. apply removeAt_source_spec_in; lia.
  - apply andb_false_iff in Hr. eexists. apply removeAt_source_spec_out; [ | exact Hf].
    destruct Hr as [Hr | Hr]; [apply Z.leb_gt in Hr | apply Z.ltb_ge in Hr]; lia.
Qed.

End EditSpec.

Lemma notNil_firstn_skipn {T : Type} `{Nilable T} (l : list T) (k : nat) :
  notNil l -> notNil (firstn k l) /\ notNil (skipn k l).
Proof.
  intros Hn. unfold notNil in *. rewrite <- (firstn_skipn k l) in Hn.
  now apply Forall_app in Hn.
Qed.

Lemma notNil_insertedAt {T : Type} `{Nilable T} (index : Z) (v : T) (l : list T) :
  notNil l -> isNil v = false -> notNil (insertedAt index v l).
Proof.
  intros Hn Hv. unfold insertedAt. destruct (_ && _)%bool; [ | exact Hn].
  destruct (notNil_firstn_skipn l (Z.to_nat index) Hn) as [Ha Hb].
  apply Forall_app. split; [exact Ha | now constructor].
Qed.

Lemma notNil_removedAt {T : Type} `{Nilable T} (index : Z) (l : list T) :
  notNil l -> notNil (removedAt index l).
Proof.
  intros Hn. unfold removedAt. destruct (_ && _)%bool; [ | exact Hn].
  apply Forall_app. split.
  - exact (proj1 (notNil_firstn_skipn l _ Hn)).
  - exact (proj2 (notNil_firstn_skipn l _ Hn)).
Qed.

Lemma notNil_replacedAt {T : Type} `{Nilable T} (index : Z) (v : T) (l : list T) :
  notNil l -> isNil v = false -> notNil (replacedAt index v l).
Proof.
  intros Hn Hv. unfold replacedAt. destruct (_ && _)%bool; [ | exact Hn].
  apply Forall_app. split.
  - exact (proj1 (notNil_firstn_skipn l _ Hn)).
  - constructor; [exact Hv | exact (proj2 (notNil_firstn_skipn l _ Hn))].
Qed.

Lemma length_insertedAt {T : Type} (index : Z) (v : T) (l : list T) :
  List.length (insertedAt index v l) <= S (List.length l).
Proof.
  unfold insertedAt. destruct (_ && _)%bool; [ | lia].
  rewrite length_app, length_firstn. cbn [List.length]. rewrite length_skipn. lia.
Qed.

Lemma length_removedAt {T : Type} (index : Z) (l : list T) :
  List.length (removedAt index l) <= List.length l.
Proof.
  unfold removedAt. destruct (_ && _)%bool; [ | lia].
  rewrite length_app, length_firstn, length_skipn. lia.
Qed.

Lemma length_replacedAt {T : Type} (index : Z) (v : T) (l : list T) :
  List.length (replacedAt index v l) = List.length l.
Proof.
  unfold replacedAt.
  destruct ((0 <=? index) && (index <? Z.of_nat (List.length l)))%Z eqn:Hr; [ | reflexivity].
  apply andb_true_iff in Hr. destruct Hr as [H0 H1]. apply Z.leb_le in H0.
  apply Z.ltb_lt in H1. rewrite length_app, length_firstn. cbn [List.length].
  rewrite length_skipn. lia.
Qed.

Lemma insertAt_lists_aux {W T : Type} `{Nilable T} (s : Seq W T) (w : W) (l : list T)
  (index : Z) (value : T) :
  Lists s w l ->
  (notNil (insertedAt index value l) ->
   Lists (SeqFns.insertAt s index value) (init w) (insertedAt index value l)) /\
  (forall fuel, List.length (insertedAt index value l) < fuel ->
     exists st, toArrayUnsafe fuel (SeqFns.insertAt s index value) (init w)
                = Some (visible (insertedAt index value l), st)).
Proof.
  intros (g & (Inv & Hi & Hs) & Hex).
  destruct (insertAt_source_spec s Inv g Hs l Hex index value) as (At & Hsrc).
  exact (create_lists _ Inv At _ w Hsrc Hi).
Qed.

Lemma removeAt_lists_aux {W T : Type} `{Nilable T} (s : Seq W T) (w : W) (l : list T)
  (index : Z) (fuel : nat) :
  Lists s w l -> 2 <= fuel ->
  Lists (SeqFns.removeAt s fuel index) (init w) (removedAt index l).
Proof.
  intros Hl Hf. pose proof (lists_notnil s w l Hl) as Hn.
  destruct Hl as (g & (Inv & Hi & Hs) & Hex).
  destruct (removeAt_source_spec s Inv g Hs l Hex index fuel Hf) as (At & Hsrc).
  apply (proj1 (create_lists _ Inv At _ w Hsrc Hi)). now apply notNil_removedAt.
Qed.

Lemma last_lists {W T : Type} `{Nilable T} (s : Seq W T) (w : W) (l : list T) (fuel : nat) :
  Lists s w l -> List.length l < fuel ->
  exists w', SeqFns.last s fuel w = Some (Normal (lastOf l), w').
Proof.
  intros Hl Hf. pose proof (lists_notnil s w l Hl) as Hn.
  destruct (lists_loop s w l
              (fun (_ : Option T) value =>
                 match Option.some value with
                 | Normal o => @inl (Option T) Error o
                 | Throws e => inr e
                 end) Option.none fuel Hl Hf) as (w' & E).
  exists w'. unfold SeqFns.last. cbn [fresh iterator]. unfold bind, ret.
  rewrite E, (runReturn_last l _ Hn). unfold Option.none. now rewrite fold_left_last.
Qed.

Lemma lastOf_running {T U : Type} (fn : U -> T -> U) (initial : U) (l : list T) :
  lastOf (running fn initial l)
  = match l with [] => NONE | _ => SOME (fold_left fn l initial) end.
Proof.
  revert initial. induction l as [ | a l IH]; intros initial; [reflexivity | ].
  specialize (IH (fn initial a)). cbn [running fold_left].
  unfold lastOf in *. cbn [rev]. destruct l as [ | b l'].
  - reflexivity.
  - cbn [running rev] in *.
    destruct (rev (running fn (fn (fn initial a) b) l') ++ [fn (fn initial a) b])
      as [ | x r] eqn:Er; [now destruct (rev (running fn (fn (fn initial a) b) l')) | ].
    cbn [app]. exact IH.
Qed.

(** X14: [scan(fn, initial)] over the finite sequence [l] lists the
    running results of the fold: as many elements as [l] has, element [p]
    being the fold of the first [p + 1] elements of [l] (spreading stops at
    the first nil result, like any sequence).  When no result is nil, the
    last element of the scan is what [reduce(fn, initial)] returns, for a
    non-empty [l]. *)
Theorem scan_running {W T U : Type} `{Nilable T} `{Nilable U} (s : Seq W T) (w : W)
  (l : list T) (fn : U -> T -> U) (initial : U) :
  Lists s w l ->
  (forall fuel, List.length l < fuel ->
     exists st, toArrayUnsafe fuel (SeqFns.scan s fn initial) (init w)
                = Some (visible (running fn initial l), st)) /\
  List.length (running fn initial l) = List.length l /\
  (forall p v, nth_error l p = Some v ->
     nth_error (running fn initial l) p = Some (fold_left fn (firstn (S p) l) initial)) /\
  (notNil (running fn initial l) ->
   Lists (SeqFns.scan s fn initial) (init w) (running fn initial l) /\
   forall fuel, List.length l < fuel ->
     exists r w1 w2,
       SeqFns.reduce s fuel fn initial w = Some (r, w1) /\
       SeqFns.last (SeqFns.scan s fn initial) fuel (init w)
       = Some (Normal (match l with [] => NONE | _ => SOME r end), w2)).
Proof.
  intros Hl. pose proof Hl as (g & (Inv & Hi & Hs) & Hex).
  destruct (create_lists _ Inv _ _ w (scan_source_spec s Inv g Hs l Hex fn initial) Hi)
    as [Hsl Hsp].
  split; [ | split; [ | split]].
  - intros fuel Hf. apply Hsp. now rewrite length_running.
  - apply length_running.
  - intros p v Hv. rewrite nth_error_running, Hv. f_equal. symmetry.
    now apply firstn_S_fold.
  - intros Hn. specialize (Hsl Hn). split; [exact Hsl | ]. intros fuel Hf.
    destruct (forEachAcc_spec s w l fn initial fuel Hl Hf) as (w1 & E1).
    destruct (last_lists _ _ _ fuel Hsl) as (w2 & E2); [now rewrite length_running | ].
    exists (fold_left fn l initial), w1, w2. split; [exact E1 | ].
    unfold SeqFns.scan. now rewrite E2, lastOf_running.
Qed.

Lemma scan_running_witness :
  (forall fuel, List.length [1; 2; 3]%Z < fuel ->
     exists st, toArrayUnsafe fuel (SeqFns.scan (fromArray [1; 2; 3]%Z) Z.add 0%Z) (init (init tt))
                = Some (visible (running Z.add 0%Z [1; 2; 3]%Z), st)) /\
  List.length (running Z.add 0%Z [1; 2; 3]%Z) = List.length [1; 2; 3]%Z /\
  (forall p v, nth_error [1; 2; 3]%Z p = Some v ->
     nth_error (running Z.add 0%Z [1; 2; 3]%Z) p
     = Some (fold_left Z.add (firstn (S p) [1; 2; 3]%Z) 0%Z)) /\
  (notNil (running Z.add 0%Z [1; 2; 3]%Z) ->
   Lists (SeqFns.scan (fromArray [1; 2; 3]%Z) Z.add 0%Z) (init (init tt))
     (running Z.add 0%Z [1; 2; 3]%Z) /\
   forall fuel, List.length [1; 2; 3]%Z < fuel ->
     exists r w1 w2,
       SeqFns.reduce (fromArray [1; 2; 3]%Z) fuel Z.add 0%Z (init tt) = Some (r, w1) /\
       SeqFns.last (SeqFns.scan (fromArray [1; 2; 3]%Z) Z.add 0%Z) fuel (init (init tt))
       = Some (Normal (match [1; 2; 3]%Z with [] => NONE | _ => SOME r end), w2)).
Proof.
  apply (scan_running (fromArray [1; 2; 3]%Z) (init tt) [1; 2; 3]%Z Z.add 0%Z).
  apply fromArray_lists. apply notNil_Z.
Defined.

(** X15: [insertAt(index, value)] on the finite sequence [l] puts a non-nil
    [value] before position [index] when [0 <= index <= length l] (so
    [index = length l] appends it), and changes nothing for any other
    index; a nil [value] cuts the spread at the insertion point. *)
Theorem insertAt_lists {W T : Type} `{Nilable T} (s : Seq W T) (w : W) (l : list T)
  (index : Z) (value : T) :
  Lists s w l ->
  (isNil value = false ->
   Lists (SeqFns.insertAt s index value) (init w) (insertedAt index value l)) /\
  (forall fuel, List.length l + 1 < fuel ->
     exists st, toArrayUnsafe fuel (SeqFns.insertAt s index value) (init w)
                = Some (visible (insertedAt index value l), st)) /\
  ((index < 0 \/ Z.of_nat (List.length l) < index)%Z -> insertedAt index value l = l).
Proof.
  intros Hl. pose proof (lists_notnil s w l Hl) as Hn.
  destruct (insertAt_lists_aux s w l index value Hl) as [Ha Hb].
  split; [ | split].
  - intros Hv. apply Ha. now apply notNil_insertedAt.
  - intros fuel Hf. apply Hb. pose proof (length_insertedAt index value l). lia.
  - intros Hr. unfold insertedAt.
    destruct ((0 <=? index) && (index <=? Z.of_nat (List.length l)))%Z eqn:E; [ | reflexivity].
    apply andb_true_iff in E. destruct E as [E0 E1]. apply Z.leb_le in E0, E1. lia.
Qed.

Lemma insertAt_lists_witness :
  (isNil 9%Z = false ->
   Lists (SeqFns.insertAt (fromArray [1; 2; 3]%Z) 1%Z 9%Z) (init (init tt))
     (insertedAt 1%Z 9%Z [1; 2; 3]%Z)) /\
  (forall fuel, List.length [1; 2; 3]%Z + 1 < fuel ->
     exists st, toArrayUnsafe fuel (SeqFns.insertAt (fromArray [1; 2; 3]%Z) 1%Z 9%Z)
                  (init (init tt))
                = Some (visible (insertedAt 1%Z 9%Z [1; 2; 3]%Z), st)) /\
  ((1 < 0 \/ Z.of_nat (List.length [1; 2; 3]%Z) < 1)%Z ->
   insertedAt 1%Z 9%Z [1; 2; 3]%Z = [1; 2; 3]%Z).
Proof.
  apply (insertAt_lists (fromArray [1; 2; 3]%Z) (init tt) [1; 2; 3]%Z 1%Z 9%Z).
  apply fromArray_lists. apply notNil_Z.
Defined.

(** X16: [removeAt(index)] on the finite sequence [l] is [l] without its
    element at [index] when [0 <= index < length l], and [l] itself for any
    other index. *)
Theorem removeAt_lists {W T : Type} `{Nilable T} (s : Seq W T) (w : W) (l : list T)
  (index : Z) (fuel : nat) :
  Lists s w l -> 2 <= fuel ->
  Lists (SeqFns.removeAt s fuel index) (init w) (removedAt index l) /\
  ((index < 0 \/ Z.of_nat (List.length l) <= index)%Z -> removedAt index l = l) /\
  ((0 <= index < Z.of_nat (List.length l))%Z ->
   List.length (removedAt index l) = List.length l - 1).
Proof.
  intros Hl Hf. split; [now apply removeAt_lists_aux | split].
  - intros Hr. unfold removedAt.
    destruct ((0 <=? index) && (index <? Z.of_nat (List.length l)))%Z eqn:E; [ | reflexivity].
    apply andb_true_iff in E. destruct E as [E0 E1]. apply Z.leb_le in E0.
    apply Z.ltb_lt in E1. lia.
  - intros [H0 H1]. unfold removedAt.
    replace ((0 <=? index) && (index <? Z.of_nat (List.length l)))%Z with true.
    + rewrite length_app, length_firstn, length_skipn. lia.
    + symmetry. apply andb_true_iff. split; [now apply Z.leb_le | now apply Z.ltb_lt].
Qed.

Lemma removeAt_lists_witness :
  Lists (SeqFns.removeAt (fromArray [1; 2; 3]%Z) 2 1%Z) (init (init tt))
    (removedAt 1%Z [1; 2; 3]%Z) /\
  ((1 < 0 \/ Z.of_nat (List.length [1; 2; 3]%Z) <= 1)%Z ->
   removedAt 1%Z [1; 2; 3]%Z = [1; 2; 3]%Z) /\
  ((0 <= 1 < Z.of_nat (List.length [1; 2; 3]%Z))%Z ->
   List.length (removedAt 1%Z [1; 2; 3]%Z) = List.length [1; 2; 3]%Z - 1).
Proof.
  apply (removeAt_lists (fromArray [1; 2; 3]%Z) (init tt) [1; 2; 3]%Z 1%Z 2).
  - apply fromArray_lists. apply notNil_Z.
  - lia.
Defined.

(** X17: [replaceAt(index, newValue)] on the finite sequence [l] has the
    length of [l]; with a non-nil [newValue] it lists [l] with [newValue]
    at position [index] and every other position unchanged, and is [l]
    itself when [index] is not a position of [l]. *)
Theorem replaceAt_lists {W T : Type} `{Nilable T} (s : Seq W T) (w : W) (l : list T)
  (index : Z) (newValue : T) :
  Lists s w l ->
  (isNil newValue = false ->
   Lists (SeqFns.replaceAt s index newValue) (init w) (replacedAt index newValue l)) /\
  (forall fuel, List.length l < fuel ->
     exists st, toArrayUnsafe fuel (SeqFns.replaceAt s index newValue) (init w)
                = Some (visible (replacedAt index newValue l), st)) /\
  (forall p v, nth_error l p = Some v ->
     nth_error (replacedAt index newValue l) p
     = Some (if (Z.of_nat p =? index)%Z then newValue else v)).
Proof.
  intros Hl. pose proof (lists_notnil s w l Hl) as Hn.
  destruct Hl as (g & (Inv & Hi & Hs) & Hex).
  destruct (create_lists _ Inv _ _ w (replaceAt_source_spec s Inv g Hs l Hex index newValue) Hi)
    as [Ha Hb].
  split; [ | split].
  - intros Hv. apply Ha. now apply notNil_replacedAt.
  - intros fuel Hf. apply Hb. now rewrite length_replacedAt.
  - intros p v Hv. assert (Hlt : p < List.length l) by (apply nth_error_Some; congruence).
    unfold replacedAt.
    destruct ((0 <=? index) && (index <? Z.of_nat (List.length l)))%Z eqn:Hr.
    + apply andb_true_iff in Hr. destruct Hr as [H0 H1]. apply Z.leb_le in H0.
      apply Z.ltb_lt in H1. rewrite nth_error_replaced by lia.
      destruct (Nat.eqb_spec p (Z.to_nat index)) as [Heq | Hne].
      * now replace (Z.of_nat p =? index)%Z with true by (symmetry; apply Z.eqb_eq; lia).
      * now replace (Z.of_nat p =? index)%Z with false by (symmetry; apply Z.eqb_neq; lia).
    + rewrite Hv. apply andb_false_iff in Hr.
      replace (Z.of_nat p =? index)%Z with false; [reflexivity | ].
      symmetry. apply Z.eqb_neq.
      destruct Hr as [Hr | Hr]; [apply Z.leb_gt in Hr | apply Z.ltb_ge in Hr]; lia.
Qed.

Lemma replaceAt_lists_witness :
  (isNil 9%Z = false ->
   Lists (SeqFns.replaceAt (fromArray [1; 2; 3]%Z) 1%Z 9%Z) (init (init tt))
     (replacedAt 1%Z 9%Z [1; 2; 3]%Z)) /\
  (forall fuel, List.length [1; 2; 3]%Z < fuel ->
     exists st, toArrayUnsafe fuel (SeqFns.replaceAt (fromArray [1; 2; 3]%Z) 1%Z 9%Z)
                  (init (init tt))
                = Some (visible (replacedAt 1%Z 9%Z [1; 2; 3]%Z), st)) /\
  (forall p v, nth_error [1; 2; 3]%Z p = Some v ->
     nth_error (replacedAt 1%Z 9%Z [1; 2; 3]%Z) p
     = Some (if (Z.of_nat p =? 1)%Z then 9%Z else v)).
Proof.
  apply (replaceAt_lists (fromArray [1; 2; 3]%Z) (init tt) [1; 2; 3]%Z 1%Z 9%Z).
  apply fromArray_lists. apply notNil_Z.
Defined.

Lemma remove_inserted {T : Type} (a b : list T) (v : T) (k : nat) :
  List.length a = k ->
  firstn k (a ++ v :: b) ++ skipn (S k) (a ++ v :: b) = a ++ b.
Proof.
  intros <-. induction a as [ | x a IH]; [reflexivity | ].
  cbn [List.length app firstn skipn]. f_equal. exact IH.
Qed.

Lemma removedAt_insertedAt {T : Type} (index : Z) (v : T) (l : list T) :
  (0 <= index <= Z.of_nat (List.length l))%Z ->
  removedAt index (insertedAt index v l) = l.
Proof.
  intros [H0 H1]. unfold insertedAt.
  replace ((0 <=? index) && (index <=? Z.of_nat (List.length l)))%Z with true
    by (symmetry; apply andb_true_iff; split; now apply Z.leb_le).
  assert (Hk : List.length (firstn (Z.to_nat index) l) = Z.to_nat index)
    by (rewrite length_firstn; lia).
  unfold removedAt. rewrite length_app. cbn [List.length]. rewrite Hk, length_skipn.
  replace ((0 <=? index)
           && (index <? Z.of_nat (Z.to_nat index + S (List.length l - Z.to_nat index))))%Z
    with true
    by (symmetry; apply andb_true_iff; split; [apply Z.leb_le | apply Z.ltb_lt]; lia).
  rewrite (remove_inserted _ _ v _ Hk). apply firstn_skipn.
Qed.

(** X18: removing at [index] what [insertAt(index, value)] has just put
    there gives back the original sequence: for [0 <= index <= length l]
    and a non-nil [value], [insertAt(index, value).removeAt(index)] lists
    [l]. *)
Theorem removeAt_insertAt {W T : Type} `{Nilable T} (s : Seq W T) (w : W) (l : list T)
  (index : Z) (value : T) (fuel : nat) :
  Lists s w l -> isNil value = false -> (0 <= index <= Z.of_nat (List.length l))%Z ->
  2 <= fuel ->
  Lists (SeqFns.removeAt (SeqFns.insertAt s index value) fuel index) (init (init w)) l.
Proof.
  intros Hl Hv Hr Hf. pose proof (lists_notnil s w l Hl) as Hn.
  pose proof (proj1 (insertAt_lists_aux s w l index value Hl)
                (notNil_insertedAt index value l Hn Hv)) as Hins.
  pose proof (removeAt_lists_aux _ _ _ index fuel Hins Hf) as Hrem.
  now rewrite removedAt_insertedAt in Hrem.
Qed.

Lemma removeAt_insertAt_witness :
  Lists (SeqFns.removeAt (SeqFns.insertAt (fromArray [1; 2; 3]%Z) 3%Z 9%Z) 2 3%Z)
    (init (init (init tt))) [1; 2; 3]%Z.
Proof.
  apply (removeAt_insertAt (fromArray [1; 2; 3]%Z) (init tt) [1; 2; 3]%Z 3%Z 9%Z 2).
  - apply fromArray_lists. apply notNil_Z.
  - reflexivity.
  - cbn. lia.
  - lia.
Defined.

(** ** Contents of [chunk] and [window] *)

Lemma nth_error_chunksOf {T : Type} (n : nat) : forall (fuel : nat) (l : list T) (p : nat),
  0 < n -> List.length l <= fuel ->
  nth_error (chunksOf fuel n l) p
  = if p * n <? List.length l then Some (firstn n (skipn (p * n) l)) else None.
Proof.
  induction fuel as [ | fuel IH]; intros l p Hn Hf.
  - destruct l; [ | cbn in Hf; lia]. cbn [chunksOf List.length].
    destruct (Nat.ltb_spec (p * n) 0); [lia | now destruct p].
  - destruct l as [ | a l'].
    + cbn [chunksOf List.length]. destruct (Nat.ltb_spec (p * n) 0); [lia | now destruct p].
    + cbn [chunksOf]. destruct p as [ | p].
      * cbn [nth_error Nat.mul skipn]. reflexivity.
      * cbn [nth_error]. rewrite IH by (try rewrite length_skipn; cbn [List.length] in *; lia).
        rewrite length_skipn, skipn_skipn.
        replace (S p * n) with (p * n + n) by lia.
        destruct (Nat.ltb_spec (p * n) (List.length (a :: l') - n));
          destruct (Nat.ltb_spec (p * n + n) (List.length (a :: l'))); try lia; reflexivity.
Qed.

Lemma concat_chunksOf {T : Type} (n : nat) : forall (fuel : nat) (l : list T),
  0 < n -> List.length l <= fuel -> List.concat (chunksOf fuel n l) = l.
Proof.
  induction fuel as [ | fuel IH]; intros l Hn Hf.
  - destruct l; [reflexivity | cbn in Hf; lia].
  - destruct l as [ | a l']; [reflexivity | ]. cbn [chunksOf List.concat].
    rewrite IH by (try rewrite length_skipn; cbn [List.length] in *; lia).
    apply firstn_skipn.
Qed.

Lemma length_chunksOf {T : Type} (n : nat) : forall (fuel : nat) (l : list T),
  List.length (chunksOf fuel n l) <= fuel.
Proof.
  induction fuel as [ | fuel IH]; intros l; [now destruct l | ].
  destruct l as [ | a l']; cbn [chunksOf List.length]; [lia | ].
  specialize (IH (skipn n (a :: l'))). lia.
Qed.

Section ChunkSpec.
Context {W T : Type} `{Nilable T}.
Variable s : Seq W T.
Variable Inv : W -> Prop.
Variable g : Z -> Option T.
Hypothesis Hs : SeqSpec s everywhere Inv g.
Variable l : list T.
Hypothesis Hex : Exactly g l.

Lemma chunk_next_spec : forall (turns q : nat) (chunk : list T) (w : W),
  Inv w ->
  exists w', Inv w' /\
    ((turns <= List.length (skipn q l) /\
      chunk_next s turns (Z.of_nat q) chunk w
      = Some (Some (chunk ++ firstn turns (skipn q l)), Z.of_nat (q + turns), w')) \/
     (List.length (skipn q l) < turns /\
      exists q', List.length l <= q' /\
        chunk_next s turns (Z.of_nat q) chunk w
        = Some (if (List.length (chunk ++ skipn q l) =? 0)%nat then None
                else Some (chunk ++ skipn q l), Z.of_nat q', w'))).
Proof.
  induction turns as [ | turns IH]; intros q chunk w Hi.
  - exists w. split; [exact Hi | ]. left. split; [lia | ].
    cbn [chunk_next firstn]. unfold ret. now rewrite app_nil_r, Nat.add_0_r.
  - cbn [chunk_next next iterator]. unfold bind, ret.
    destruct (pull s Inv g Hs l Hex q w Hi) as (o & w1 & E & Ho & Hi1).
    rewrite E, Ho. unfold ofList. destruct (nth_error l q) as [v | ] eqn:Ev.
    + assert (Hsk : skipn q l = v :: skipn (S q) l).
      { clear -Ev. revert q Ev. induction l as [ | a l' IH']; intros [ | q] Ev; try discriminate.
        - cbn in Ev. now inv Ev.
        - cbn [skipn]. apply IH'. exact Ev. }
      replace (Z.of_nat q + 1)%Z with (Z.of_nat (S q)) by lia.
      destruct (IH (S q) (chunk ++ [v]) w1 Hi1) as (w' & Hi' & [[Hle E'] | (Hgt & q' & Hq' & E')]).
      * exists w'. split; [exact Hi' | ]. left. rewrite Hsk. cbn [List.length firstn].
        split; [lia | ]. rewrite E', <- app_assoc. cbn [app].
        now replace (S q + turns) with (q + S turns) by lia.
      * exists w'. split; [exact Hi' | ]. right. rewrite Hsk at 1. cbn [List.length].
        split; [lia | ]. exists q'. split; [exact Hq' | ].
        rewrite E', Hsk, <- !app_assoc. reflexivity.
    + apply nth_error_None in Ev. exists w1. split; [exact Hi1 | ]. right.
      rewrite skipn_all2 by exact Ev. cbn [List.length]. split; [lia | ].
      exists (S q). split; [lia | ]. rewrite app_nil_r.
      replace (Z.of_nat q + 1)%Z with (Z.of_nat (S q)) by lia.
      now destruct (List.length chunk =? 0)%nat.
Qed.

Lemma chunk_source_spec (n : nat) :
  0 < n ->
  SourceSpec (chunk_source s (Z.of_nat n)) everywhere Inv
    (fun c p =>
       (p * n < List.length l -> c = (Z.of_nat (p * n), [])) /\
       (List.length l <= p * n -> exists q, List.length l <= q /\ c = (Z.of_nat q, [])))
    (ofList (List.map fromArrayObj (chunksOf (List.length l) n l))).
Proof.
  intros Hn. split.
  - intros w Hi. exists (0%Z, []), w. split; [reflexivity | ]. split; [ | exact Hi].
    split; [reflexivity | ]. intros Hl. exists 0. split; [lia | reflexivity].
  - intros [it chunk] p w Hi [Ha1 Ha2] _ _.
    cbn [next chunk_source]. unfold bind, ret.
    unfold ofList. rewrite nth_error_map, nth_error_chunksOf by lia.
    destruct (Nat.ltb_spec (p * n) (List.length l)) as [Hlt | Hge].
    + specialize (Ha1 Hlt). inv Ha1. cbn [List.length].
      replace (Z.to_nat (Z.of_nat n - Z.of_nat 0)) with n by lia.
      destruct (chunk_next_spec n (p * n) [] w Hi)
        as (w' & Hi' & [[Hle E] | (Hgt & q' & Hq' & E)]); rewrite E; cbn [app option_map].
      * eexists _, w'. split; [reflexivity | ]. split; [ | exact Hi'].
        split.
        -- intros _. f_equal. f_equal. lia.
        -- intros Hl. exists (p * n + n). split; [lia | reflexivity].
      * assert (Hshort : List.length l - p * n < n) by (now rewrite length_skipn in Hgt).
        rewrite (firstn_all2 (n := n) (skipn (p * n) l)) by lia.
        destruct (skipn (p * n) l) as [ | a r] eqn:Hsk.
        -- exfalso. assert (Hlen : List.length (skipn (p * n) l) = 0) by now rewrite Hsk.
           rewrite length_skipn in Hlen. lia.
        -- cbn [List.length Nat.eqb]. eexists _, w'. split; [reflexivity | ].
           split; [ | exact Hi']. split; [lia | ].
           intros _. exists q'. split; [exact Hq' | reflexivity].
    + destruct (Ha2 Hge) as (q & Hq & Hc). inv Hc. cbn [List.length option_map].
      replace (Z.to_nat (Z.of_nat n - Z.of_nat 0)) with n by lia.
      destruct (chunk_next_spec n q [] w Hi)
        as (w' & Hi' & [[Hle E] | (Hgt & q' & Hq' & E)]).
      * rewrite length_skipn in Hle. lia.
      * rewrite E, skipn_all2 by exact Hq. cbn [app List.length Nat.eqb].
        eexists _, w'. split; [reflexivity | ]. split; [ | exact Hi'].
        split; [lia | ]. intros _. exists q'. split; [exact Hq' | reflexivity].
Qed.

End ChunkSpec.

Lemma visible_objs {T : Type} (objs : list (SeqObj T)) : visible objs = objs.
Proof. apply visible_notnil. apply Forall_forall. intros o _. reflexivity. Qed.

Lemma materialize_all {T : Type} `{Nilable T} (fuel : nat) (ls : list (list T)) :
  Forall (fun c => notNil c /\ List.length c < fuel) ls ->
  List.map (materialize fuel) (List.map fromArrayObj ls) = List.map Some ls.
Proof.
  induction 1 as [ | c ls [Hn Hf] _ IH]; [reflexivity | ].
  cbn [List.map]. now rewrite IH, (materialize_fromArrayObj c fuel Hn Hf).
Qed.

(** X19: for [size > 0], [chunk(size)] of the finite sequence [l] is the
    sequence of the consecutive pieces of [l]: piece [p] holds the elements
    [p * size .. p * size + size - 1] of [l] (fewer in the last piece when
    [size] does not divide the length), no piece is empty, and the pieces
    together are [l]. *)
Theorem chunk_contents {W T : Type} `{Nilable T} (s : Seq W T) (w : W) (l : list T)
  (size : Z) (fuel : nat) :
  Lists s w l -> (0 < size)%Z -> List.length l < fuel ->
  exists c objs st,
    chunk s size = Normal c /\
    toArrayUnsafe fuel c (init w) = Some (objs, st) /\
    List.map (materialize fuel) objs
    = List.map Some (chunksOf (List.length l) (Z.to_nat size) l) /\
    List.concat (chunksOf (List.length l) (Z.to_nat size) l) = l /\
    (forall p c, nth_error (chunksOf (List.length l) (Z.to_nat size) l) p = Some c ->
       c = firstn (Z.to_nat size) (skipn (p * Z.to_nat size) l) /\ c <> []).
Proof.
  intros Hl Hsz Hf. pose proof (lists_notnil s w l Hl) as Hn.
  destruct Hl as (g & (Inv & Hi & Hs) & Hex).
  set (n := Z.to_nat size). assert (Hn0 : 0 < n) by lia.
  assert (Hnth : forall p c, nth_error (chunksOf (List.length l) n l) p = Some c ->
            c = firstn n (skipn (p * n) l) /\ c <> []).
  { intros p c Hc. rewrite nth_error_chunksOf in Hc by lia.
    destruct (Nat.ltb_spec (p * n) (List.length l)) as [Hlt | Hge]; [ | discriminate].
    inv Hc. split; [reflexivity | ]. intros Hnil.
    assert (Hlen : List.length (firstn n (skipn (p * n) l)) = 0) by now rewrite Hnil.
    rewrite length_firstn, length_skipn in Hlen. lia. }
  pose proof (chunk_source_spec s Inv g Hs l Hex n Hn0) as Hsrc.
  replace (Z.of_nat n) with size in Hsrc by (subst n; lia).
  destruct (create_lists _ Inv _ _ w Hsrc Hi) as [_ Hsp].
  destruct (Hsp fuel) as (st & E).
  { rewrite length_map. pose proof (length_chunksOf n (List.length l) l). lia. }
  rewrite visible_objs in E.
  exists (create (chunk_source s size)), (List.map fromArrayObj (chunksOf (List.length l) n l)), st.
  split; [ | split; [ | split; [ | split]]].
  - unfold chunk. destruct (Z.leb_spec size 0); [lia | reflexivity].
  - exact E.
  - apply materialize_all. apply Forall_forall. intros c Hc.
    apply In_nth_error in Hc. destruct Hc as (p & Hp). destruct (Hnth p c Hp) as [-> _].
    split.
    + apply (proj1 (notNil_firstn_skipn _ n (proj2 (notNil_firstn_skipn l (p * n) Hn)))).
    + rewrite length_firstn, length_skipn. lia.
  - apply concat_chunksOf; lia.
  - exact Hnth.
Qed.

Lemma chunk_contents_witness :
  exists c objs st,
    chunk (fromArray [1; 2; 3; 4; 5]%Z) 2%Z = Normal c /\
    toArrayUnsafe 6 c (init (init tt)) = Some (objs, st) /\
    List.map (materialize 6) objs
    = List.map Some (chunksOf (List.length [1; 2; 3; 4; 5]%Z) (Z.to_nat 2) [1; 2; 3; 4; 5]%Z) /\
    List.concat (chunksOf (List.length [1; 2; 3; 4; 5]%Z) (Z.to_nat 2) [1; 2; 3; 4; 5]%Z)
    = [1; 2; 3; 4; 5]%Z /\
    (forall p c,
       nth_error (chunksOf (List.length [1; 2; 3; 4; 5]%Z) (Z.to_nat 2) [1; 2; 3; 4; 5]%Z) p
       = Some c ->
       c = firstn (Z.to_nat 2) (skipn (p * Z.to_nat 2) [1; 2; 3; 4; 5]%Z) /\ c <> []).
Proof.
  apply (chunk_contents (fromArray [1; 2; 3; 4; 5]%Z) (init tt) [1; 2; 3; 4; 5]%Z 2%Z 6).
  - apply fromArray_lists. apply notNil_Z.
  - lia.
  - cbn. lia.
Defined.

Lemma nth_error_windowsOf {T : Type} (n : nat) (l : list T) (p : nat) :
  nth_error (windowsOf n l) p
  = if p <? List.length l + 1 - n then Some (firstn n (skipn p l)) else None.
Proof.
  unfold windowsOf. rewrite nth_error_map.
  destruct (Nat.ltb_spec p (List.length l + 1 - n)) as [Hlt | Hge].
  - rewrite (nth_error_nth' _ 0) by (now rewrite length_seq).
    rewrite seq_nth by exact Hlt. reflexivity.
  - replace (nth_error (seq 0 (List.length l + 1 - n)) p) with (@None nat); [reflexivity | ].
    symmetry. apply nth_error_None. now rewrite length_seq.
Qed.

Lemma firstn_app_skipn {T : Type} (b : nat) : forall (a : nat) (x : list T),
  firstn a x ++ firstn b (skipn a x) = firstn (a + b) x.
Proof.
  induction a as [ | a IH]; intros x; [reflexivity | ].
  destruct x as [ | v x]; [now rewrite !firstn_nil | ].
  cbn [firstn skipn app Nat.add]. now rewrite IH.
Qed.

Lemma skipn_S_tl {T : Type} (l : list T) : forall p, skipn (S p) l = List.tl (skipn p l).
Proof.
  induction l as [ | a l IH]; intros [ | p]; try reflexivity.
  cbn [skipn] in *. apply IH.
Qed.

Lemma tl_firstn {T : Type} (n : nat) (x : list T) :
  List.tl (firstn n x) = firstn (n - 1) (List.tl x).
Proof.
  destruct n as [ | n]; [reflexivity | ].
  destruct x as [ | v x]; [cbn [List.tl]; now rewrite !firstn_nil | ].
  cbn [firstn List.tl]. now replace (S n - 1) with n by lia.
Qed.

Section WindowSpec.
Context {W T : Type} `{Nilable T}.
Variable s : Seq W T.
Variable Inv : W -> Prop.
Variable g : Z -> Option T.
Hypothesis Hs : SeqSpec s everywhere Inv g.
Variable l : list T.
Hypothesis Hex : Exactly g l.

Lemma window_next_spec : forall (turns q : nat) (buffer : list T) (w : W),
  Inv w ->
  exists w', Inv w' /\
    ((turns <= List.length (skipn q l) /\
      window_next s turns (Z.of_nat q) buffer w
      = Some (false, buffer ++ firstn turns (skipn q l), Z.of_nat (q + turns), w')) \/
     (List.length (skipn q l) < turns /\
      exists b' q', window_next s turns (Z.of_nat q) buffer w = Some (true, b', q', w'))).
Proof.
  induction turns as [ | turns IH]; intros q buffer w Hi.
  - exists w. split; [exact Hi | ]. left. split; [lia | ].
    cbn [window_next firstn]. unfold ret. now rewrite app_nil_r, Nat.add_0_r.
  - cbn [window_next next iterator]. unfold bind, ret.
    destruct (pull s Inv g Hs l Hex q w Hi) as (o & w1 & E & Ho & Hi1).
    rewrite E, Ho. unfold ofList. destruct (nth_error l q) as [v | ] eqn:Ev.
    + assert (Hsk : skipn q l = v :: skipn (S q) l).
      { clear -Ev. revert q Ev. induction l as [ | a l' IH']; intros [ | q] Ev; try discriminate.
        - cbn in Ev. now inv Ev.
        - cbn [skipn]. apply IH'. exact Ev. }
      replace (Z.of_nat q + 1)%Z with (Z.of_nat (S q)) by lia.
      destruct (IH (S q) (buffer ++ [v]) w1 Hi1)
        as (w' & Hi' & [[Hle E'] | (Hgt & b' & q' & E')]).
      * exists w'. split; [exact Hi' | ]. left. rewrite Hsk. cbn [List.length firstn].
        split; [lia | ]. rewrite E', <- app_assoc. cbn [app].
        now replace (S q + turns) with (q + S turns) by lia.
      * exists w'. split; [exact Hi' | ]. right. rewrite Hsk. cbn [List.length].
        split; [lia | ]. now exists b', q'.
    + apply nth_error_None in Ev. exists w1. split; [exact Hi1 | ]. right.
      rewrite skipn_all2 by exact Ev. cbn [List.length]. split; [lia | ].
      now exists buffer, (Z.of_nat q + 1)%Z.
Qed.

Lemma window_source_spec (n : nat) :
  0 < n ->
  SourceSpec (window_source s (Z.of_nat n)) everywhere Inv
    (fun c p =>
       (p = 0 -> c = (0%Z, [])) /\
       (0 < p -> p <= List.length l + 1 - n ->
        c = (Z.of_nat (p - 1 + n), firstn (n - 1) (skipn p l))))
    (ofList (List.map fromArrayObj (windowsOf n l))).
Proof.
  intros Hn. split.
  - intros w Hi. exists (0%Z, []), w. split; [reflexivity | ]. split; [ | exact Hi].
    split; [reflexivity | lia].
  - intros [it buffer] p w Hi [Ha1 Ha2] _ Hy. pose proof (no_done_le _ p Hy) as Hp.
    rewrite length_map in Hp. unfold windowsOf in Hp. rewrite length_map, length_seq in Hp.
    cbn [next window_source]. unfold bind, ret.
    unfold ofList. rewrite nth_error_map, nth_error_windowsOf.
    destruct p as [ | p].
    + specialize (Ha1 eq_refl). inv Ha1. cbn [List.length].
      replace (Z.to_nat (Z.of_nat n - Z.of_nat 0)) with n by lia.
      destruct (window_next_spec n 0 [] w Hi)
        as (w' & Hi' & [[Hle E] | (Hgt & b' & q' & E)]);
        change (Z.of_nat 0) with 0%Z in E; rewrite E.
      * change (skipn 0 l) with l in Hle |- *. cbn [app].
        destruct (Nat.ltb_spec 0 (List.length l + 1 - n)); [ | lia]. cbn [option_map].
        eexists _, w'. split; [reflexivity | ]. split; [ | exact Hi'].
        split; [lia | ]. intros _ _. rewrite tl_firstn, skipn_S_tl. reflexivity.
      * change (skipn 0 l) with l in Hgt.
        destruct (Nat.ltb_spec 0 (List.length l + 1 - n)); [lia | ]. cbn [option_map].
        eexists _, w'. split; [reflexivity | ]. split; [ | exact Hi']. split; lia.
    + specialize (Ha2 ltac:(lia) Hp).
      pose proof (f_equal fst Ha2) as Hit. pose proof (f_equal snd Ha2) as Hbuf.
      cbn [fst snd] in Hit, Hbuf. subst it buffer. clear Ha1 Ha2.
      rewrite length_firstn, length_skipn.
      replace (Z.to_nat (Z.of_nat n - Z.of_nat (Init.Nat.min (n - 1) (List.length l - S p))))
        with 1 by lia.
      destruct (window_next_spec 1 (S p - 1 + n) (firstn (n - 1) (skipn (S p) l)) w Hi)
        as (w' & Hi' & [[Hle E] | (Hgt & b' & q' & E)]); rewrite E.
      * rewrite length_skipn in Hle.
        destruct (Nat.ltb_spec (S p) (List.length l + 1 - n)); [ | lia]. cbn [option_map].
        assert (Hb : firstn (n - 1) (skipn (S p) l) ++ firstn 1 (skipn (S p - 1 + n) l)
                     = firstn n (skipn (S p) l)).
        { replace (S p - 1 + n) with (n - 1 + S p) by lia.
          rewrite <- skipn_skipn, firstn_app_skipn. f_equal. lia. }
        rewrite Hb. eexists _, w'. split; [reflexivity | ]. split; [ | exact Hi'].
        split; [lia | ]. intros _ _. rewrite tl_firstn, <- skipn_S_tl.
        f_equal. lia.
      * rewrite length_skipn in Hgt.
        destruct (Nat.ltb_spec (S p) (List.length l + 1 - n)); [lia | ]. cbn [option_map].
        eexists _, w'. split; [reflexivity | ]. split; [ | exact Hi']. split; lia.
Qed.

End WindowSpec.

(** X20: for [size > 0], [window(size)] of the finite sequence [l] is the
    sequence of all runs of [size] consecutive elements of [l]: window [p]
    holds the elements [p .. p + size - 1], every window has exactly [size]
    elements, and there are [length l - size + 1] of them (none when [l] is
    shorter than [size]). *)
Theorem window_contents {W T : Type} `{Nilable T} (s : Seq W T) (w : W) (l : list T)
  (size : Z) (fuel : nat) :
  Lists s w l -> (0 < size)%Z -> List.length l < fuel ->
  exists c objs st,
    window s size = Normal c /\
    toArrayUnsafe fuel c (init w) = Some (objs, st) /\
    List.map (materialize fuel) objs = List.map Some (windowsOf (Z.to_nat size) l) /\
    List.length (windowsOf (Z.to_nat size) l) = List.length l + 1 - Z.to_nat size /\
    (forall p c, nth_error (windowsOf (Z.to_nat size) l) p = Some c ->
       c = firstn (Z.to_nat size) (skipn p l) /\ List.length c = Z.to_nat size).
Proof.
  intros Hl Hsz Hf. pose proof (lists_notnil s w l Hl) as Hn.
  destruct Hl as (g & (Inv & Hi & Hs) & Hex).
  set (n := Z.to_nat size). assert (Hn0 : 0 < n) by lia.
  assert (Hlen : List.length (windowsOf n l) = List.length l + 1 - n)
    by (unfold windowsOf; now rewrite length_map, length_seq).
  assert (Hnth : forall p c, nth_error (windowsOf n l) p = Some c ->
            c = firstn n (skipn p l) /\ List.length c = n).
  { intros p c Hc. rewrite nth_error_windowsOf in Hc.
    destruct (Nat.ltb_spec p (List.length l + 1 - n)) as [Hlt | Hge]; [ | discriminate].
    inv Hc. split; [reflexivity | ]. rewrite length_firstn, length_skipn. lia. }
  pose proof (window_source_spec s Inv g Hs l Hex n Hn0) as Hsrc.
  replace (Z.of_nat n) with size in Hsrc by (subst n; lia).
  destruct (create_lists _ Inv _ _ w Hsrc Hi) as [_ Hsp].
  destruct (Hsp fuel) as (st & E); [rewrite length_map; lia | ].
  rewrite visible_objs in E.
  exists (create (window_source s size)), (List.map fromArrayObj (windowsOf n l)), st.
  split; [ | split; [ | split; [ | split]]].
  - unfold window. destruct (Z.leb_spec size 0); [lia | reflexivity].
  - exact E.
  - apply materialize_all. apply Forall_forall. intros c Hc.
    apply In_nth_error in Hc. destruct Hc as (p & Hp). destruct (Hnth p c Hp) as [-> Hc].
    split.
    + apply (proj1 (notNil_firstn_skipn _ n (proj2 (notNil_firstn_skipn l p Hn)))).
    + rewrite length_firstn, length_skipn. lia.
  - exact Hlen.
  - exact Hnth.
Qed.

Lemma window_contents_witness :
  exists c objs st,
    window (fromArray [1; 2; 3; 4]%Z) 2%Z = Normal c /\
    toArrayUnsafe 5 c (init (init tt)) = Some (objs, st) /\
    List.map (materialize 5) objs = List.map Some (windowsOf (Z.to_nat 2) [1; 2; 3; 4]%Z) /\
    List.length (windowsOf (Z.to_nat 2) [1; 2; 3; 4]%Z)
    = List.length [1; 2; 3; 4]%Z + 1 - Z.to_nat 2 /\
    (forall p c, nth_error (windowsOf (Z.to_nat 2) [1; 2; 3; 4]%Z) p = Some c ->
       c = firstn (Z.to_nat 2) (skipn p [1; 2; 3; 4]%Z) /\ List.length c = Z.to_nat 2).
Proof.
  apply (window_contents (fromArray [1; 2; 3; 4]%Z) (init tt) [1; 2; 3; 4]%Z 2%Z 5).
  - apply fromArray_lists. apply notNil_Z.
  - lia.
  - cbn. lia.
Defined.

(** ** Generators: [unfold], [range], [repeat], [cycleN], [cycle] and
    [enumerate] *)

Lemma unfold_source_spec {T U : Type} (fn : U -> Option (T * U)) (seed : U) :
  SourceSpec (SeqFns.unfold_source fn seed) everywhere (fun _ : unit => True)
    (fun c p => c = unfold_state fn seed p) (unfold_stream fn seed).
Proof.
  split.
  - intros w _. exists (fn seed), w. now repeat split.
  - intros c p w _ -> _ _. cbn [next SeqFns.unfold_source]. unfold unfold_stream, ret.
    cbn [unfold_state]. destruct (unfold_state fn seed p) as [[v s'] | ]; cbn [isNone].
    + exists (fn s'), w. now repeat split.
    + exists NONE, w. now repeat split.
Qed.

Lemma range_state (e : option Z) (start : Z) (p : nat) :
  unfold_state (SeqFns.range_step e) start p
  = if match e with Some e => (start + Z.of_nat p <? e)%Z | None => true end
    then SOME ((start + Z.of_nat p)%Z, (start + Z.of_nat p + 1)%Z)
    else NONE.
Proof.
  induction p as [ | p IH].
  - cbn [unfold_state]. unfold SeqFns.range_step. rewrite Z.add_0_r.
    destruct e as [e | ]; [ | reflexivity].
    destruct (Z.ltb_spec start e), (Z.geb_spec start e); try lia; reflexivity.
  - cbn [unfold_state]. rewrite IH.
    replace (start + Z.of_nat (S p))%Z with (start + Z.of_nat p + 1)%Z by lia.
    destruct e as [e | ].
    + destruct (Z.ltb_spec (start + Z.of_nat p) e).
      * unfold SeqFns.range_step.
        destruct (Z.ltb_spec (start + Z.of_nat p + 1) e),
                 (Z.geb_spec (start + Z.of_nat p + 1) e); try lia; reflexivity.
      * destruct (Z.ltb_spec (start + Z.of_nat p + 1) e); [lia | reflexivity].
    + reflexivity.
Qed.

Lemma nth_error_rangeList (start : Z) (n p : nat) :
  nth_error (rangeList start n) p
  = if p <? n then Some (start + Z.of_nat p)%Z else None.
Proof.
  unfold rangeList. rewrite nth_error_map.
  destruct (Nat.ltb_spec p n) as [Hlt | Hge].
  - rewrite (nth_error_nth' _ 0) by (now rewrite length_seq).
    rewrite seq_nth by exact Hlt. reflexivity.
  - replace (nth_error (seq 0 n) p) with (@None nat); [reflexivity | ].
    symmetry. apply nth_error_None. now rewrite length_seq.
Qed.

Lemma length_rangeList (start : Z) (n : nat) : List.length (rangeList start n) = n.
Proof. unfold rangeList. now rewrite length_map, length_seq. Qed.

Lemma range_enum (start e : Z) :
  Enum (unfold_stream (SeqFns.range_step (Some e)) start)
       (rangeList start (Z.to_nat (e - start))).
Proof.
  split.
  - intros p v Hv. rewrite nth_error_rangeList in Hv.
    destruct (Nat.ltb_spec p (Z.to_nat (e - start))) as [Hlt | ]; [ | discriminate].
    inv Hv. unfold unfold_stream. rewrite range_state.
    destruct (Z.ltb_spec (start + Z.of_nat p) e); [reflexivity | lia].
  - rewrite length_rangeList. unfold unfold_stream. rewrite range_state.
    destruct (Z.ltb_spec (start + Z.of_nat (Z.to_nat (e - start))) e); [lia | reflexivity].
Qed.

Lemma range_lists_aux (start e : Z) :
  Lists (SeqFns.range start (Some e)) (init tt) (rangeList start (Z.to_nat (e - start))).
Proof.
  unfold SeqFns.range, SeqFns.unfold.
  apply (create_lists _ (fun _ => True) _ _ tt
           (SourceSpec_enum _ _ _ _ _ (unfold_source_spec _ start) (range_enum start e)) I).
  apply notNil_Z.
Qed.

Lemma range_infinite (start : Z) :
  Behaves (SeqFns.range start None) (init tt)
    (denote (unfold_stream (SeqFns.range_step None) start)) /\
  forall i, (0 <= i)%Z ->
    denote (unfold_stream (SeqFns.range_step None) start) i = SOME (start + i)%Z.
Proof.
  split.
  - unfold SeqFns.range, SeqFns.unfold.
    exact (create_behaves _ (fun _ => True) _ _ tt (unfold_source_spec _ start) I).
  - intros i Hi. rewrite <- (Z2Nat.id i Hi) at 1.
    rewrite (denote_yield _ (Z.to_nat i) (start + i)%Z).
    + reflexivity.
    + intros j _. unfold unfold_stream. now rewrite range_state.
    + unfold unfold_stream. rewrite range_state. f_equal. lia.
Qed.

(** X21: for integers in the exact range of JavaScript numbers,
    [range(start, end)] lists [start, start + 1, ..., end - 1] (nothing when
    [end <= start]), and [range(start, Infinity)] never ends: its [get(i)]
    is [start + i], stated here as long as [start + i <= end]. *)
Theorem range_lists (start e : Z) :
  isSafeInteger start -> isSafeInteger e ->
  Lists (SeqFns.range start (Some e)) (init tt) (rangeList start (Z.to_nat (e - start))) /\
  List.length (rangeList start (Z.to_nat (e - start))) = Z.to_nat (e - start) /\
  (forall p, p < Z.to_nat (e - start) ->
     nth_error (rangeList start (Z.to_nat (e - start))) p = Some (start + Z.of_nat p)%Z) /\
  exists g, Behaves (SeqFns.range start None) (init tt) g /\
            forall i, (0 <= i)%Z -> (start + i <= e)%Z -> g i = SOME (start + i)%Z.
Proof.
  intros _ _. split; [apply range_lists_aux | ]. split; [apply length_rangeList | ].
  split.
  - intros p Hp. rewrite nth_error_rangeList.
    destruct (Nat.ltb_spec p (Z.to_nat (e - start))); [reflexivity | lia].
  - destruct (range_infinite start) as [Hb Hg].
    exists (denote (unfold_stream (SeqFns.range_step None) start)).
    split; [exact Hb | ]. intros i Hi _. now apply Hg.
Qed.

Lemma range_lists_witness :
  Lists (SeqFns.range 2%Z (Some 5%Z)) (init tt) (rangeList 2%Z (Z.to_nat (5 - 2))) /\
  List.length (rangeList 2%Z (Z.to_nat (5 - 2))) = Z.to_nat (5 - 2) /\
  (forall p, p < Z.to_nat (5 - 2) ->
     nth_error (rangeList 2%Z (Z.to_nat (5 - 2))) p = Some (2 + Z.of_nat p)%Z) /\
  exists g, Behaves (SeqFns.range 2%Z None) (init tt) g /\
            forall i, (0 <= i)%Z -> (2 + i <= 5)%Z -> g i = SOME (2 + i)%Z.
Proof.
  apply (range_lists 2%Z 5%Z); unfold isSafeInteger; lia.
Defined.

Lemma mapi_const {T U : Type} (value : U) (l : list T) : forall i,
  mapi (fun _ _ => value) i l = List.repeat value (List.length l).
Proof. induction l as [ | v l IH]; intros i; cbn; [reflexivity | now rewrite IH]. Qed.

Lemma visible_repeat {T : Type} `{Nilable T} (value : T) (n : nat) :
  visible (List.repeat value n) = if isNil value then [] else List.repeat value n.
Proof.
  destruct (isNil value) eqn:Ev.
  - destruct n; cbn [List.repeat visible]; [reflexivity | now rewrite Ev].
  - apply visible_notnil. apply Forall_forall. intros x Hx.
    apply repeat_spec in Hx. now subst x.
Qed.

(** X22: [repeat(value, times)] with a non-nil [value] lists [value]
    exactly [times] times (nothing for [times <= 0]); with a [null] or
    [undefined] [value] it spreads to nothing. *)
Theorem repeat_lists {T : Type} `{Nilable T} (value : T) (times : Z) :
  isSafeInteger times ->
  (forall fuel, Z.to_nat times < fuel ->
     exists st, toArrayUnsafe fuel (SeqFns.repeat value (Some times)) (init (init tt))
                = Some (if isNil value then [] else List.repeat value (Z.to_nat times), st)) /\
  (isNil value = false ->
   Lists (SeqFns.repeat value (Some times)) (init (init tt))
     (List.repeat value (Z.to_nat times))).
Proof.
  intros _. pose proof (range_lists_aux 0%Z times) as (g & (Inv & Hi & Hs) & Hex).
  rewrite Z.sub_0_r in Hex.
  destruct (create_lists _ Inv _ _ (init tt)
              (map_source_spec _ Inv g Hs _ Hex (fun (_ : Z) (_ : Z) => value)) Hi)
    as [Hl Hsp].
  rewrite mapi_const, length_rangeList in Hl, Hsp. split.
  - intros fuel Hf. destruct (Hsp fuel) as (st & E); [now rewrite repeat_length | ].
    exists st. unfold SeqFns.repeat, SeqFns.map. now rewrite E, visible_repeat.
  - intros Hv. apply Hl. apply Forall_forall. intros x Hx.
    apply repeat_spec in Hx. now subst x.
Qed.

Lemma repeat_lists_witness :
  (forall fuel, Z.to_nat 3 < fuel ->
     exists st, toArrayUnsafe fuel (SeqFns.repeat 7%Z (Some 3%Z)) (init (init tt))
                = Some (if isNil 7%Z then [] else List.repeat 7%Z (Z.to_nat 3), st)) /\
  (isNil 7%Z = false ->
   Lists (SeqFns.repeat 7%Z (Some 3%Z)) (init (init tt)) (List.repeat 7%Z (Z.to_nat 3))).
Proof.
  apply (repeat_lists 7%Z 3%Z). unfold isSafeInteger. lia.
Defined.

Lemma nth_error_concat_repeat {T : Type} (l : list T) :
  l <> [] -> forall n p,
  nth_error (List.concat (List.repeat l n)) p
  = if p <? List.length l * n then nth_error l (p mod List.length l) else None.
Proof.
  intros Hne. assert (Hlen : 0 < List.length l) by (destruct l; [contradiction | cbn; lia]).
  induction n as [ | n IH]; intros p.
  - rewrite Nat.mul_0_r. cbn [List.repeat List.concat]. now destruct p.
  - cbn [List.repeat List.concat]. destruct (Nat.lt_ge_cases p (List.length l)) as [Hlt | Hge].
    + rewrite nth_error_app1 by exact Hlt. rewrite Nat.mod_small by exact Hlt.
      destruct (Nat.ltb_spec p (List.length l * S n)); [reflexivity | nia].
    + rewrite nth_error_app2 by exact Hge. rewrite IH.
      replace (p mod List.length l) with ((p - List.length l) mod List.length l).
      * destruct (Nat.ltb_spec (p - List.length l) (List.length l * n)),
                 (Nat.ltb_spec p (List.length l * S n)); try nia; reflexivity.
      * rewrite <- (Nat.Div0.mod_add (p - List.length l) 1 (List.length l)).
        f_equal. lia.
Qed.

Lemma index_of_nat {T : Type} (values : list T) (q : nat) :
  index values (Z.of_nat q) = nth_error values q.
Proof.
  unfold index. destruct (Z.ltb_spec (Z.of_nat q) 0); [lia | ]. now rewrite Nat2Z.id.
Qed.

Lemma rem_of_nat (p n : nat) :
  0 < n -> Z.rem (Z.of_nat p) (Z.of_nat n) = Z.of_nat (p mod n).
Proof.
  intros Hn. rewrite Z.rem_mod_nonneg by lia. now rewrite Nat2Z.inj_mod.
Qed.

(** X23: [cycleN(values, n)] over an array without [null] or [undefined]
    lists the whole array [n] times over: [values.length * n] elements,
    element [p] being [values[p % values.length]]. *)
Theorem cycleN_lists {T : Type} `{Nilable T} (undefined : T) (values : list T) (n : Z) :
  notNil values -> (0 <= n)%Z -> isSafeInteger (Z.of_nat (List.length values) * n) ->
  Lists (SeqFns.cycleN undefined values n) (init (init tt))
    (List.concat (List.repeat values (Z.to_nat n))) /\
  List.length (List.concat (List.repeat values (Z.to_nat n)))
  = List.length values * Z.to_nat n.
Proof.
  intros Hn H0 _.
  set (fn := fun (i : Z) (_ : Z) =>
               match index values (Z.rem i (Z.of_nat (List.length values))) with
               | Some v => v
               | None => undefined
               end).
  assert (HN : Z.to_nat (Z.of_nat (List.length values) * n - 0)
               = List.length values * Z.to_nat n).
  { rewrite Z.sub_0_r, Z2Nat.inj_mul, Nat2Z.id by lia. reflexivity. }
  assert (Heq : mapi fn 0%Z (rangeList 0%Z (List.length values * Z.to_nat n))
                = List.concat (List.repeat values (Z.to_nat n))).
  { assert (Hcase : values = [] \/ values <> [])
      by (destruct values; [now left | right; discriminate]).
    destruct Hcase as [Hnil | Hne].
    - rewrite Hnil. cbn [List.length Nat.mul rangeList seq List.map mapi].
      clear. induction (Z.to_nat n) as [ | k IH]; [reflexivity | exact IH].
    - assert (Hlen : 0 < List.length values) by (destruct values; [contradiction | cbn; lia]).
      apply nth_error_ext. intros p.
      rewrite nth_error_mapi, nth_error_rangeList, (nth_error_concat_repeat values Hne).
      destruct (Nat.ltb_spec p (List.length values * Z.to_nat n)); [ | reflexivity].
      cbn [option_map]. unfold fn. rewrite !Z.add_0_l, rem_of_nat, index_of_nat by exact Hlen.
      destruct (nth_error values (p mod List.length values)) as [v | ] eqn:Ev; [reflexivity | ].
      apply nth_error_None in Ev.
      pose proof (Nat.mod_upper_bound p (List.length values)). lia. }
  split.
  - pose proof (range_lists_aux 0%Z (Z.of_nat (List.length values) * n)%Z)
      as (g & (Inv & Hi & Hs) & Hex).
    rewrite HN in Hex.
    destruct (create_lists _ Inv _ _ (init tt) (map_source_spec _ Inv g Hs _ Hex fn) Hi)
      as [Hl _].
    rewrite Heq in Hl. apply Hl. apply Forall_concat.
    apply Forall_forall. intros x Hx. apply repeat_spec in Hx. now subst x.
  - rewrite <- Heq, length_mapi, length_rangeList. reflexivity.
Qed.

Lemma cycleN_lists_witness :
  Lists (SeqFns.cycleN Undefined [Num 1; Num 2] 2%Z) (init (init tt))
    (List.concat (List.repeat [Num 1; Num 2] (Z.to_nat 2))) /\
  List.length (List.concat (List.repeat [Num 1; Num 2] (Z.to_nat 2)))
  = List.length [Num 1; Num 2] * Z.to_nat 2.
Proof.
  apply (cycleN_lists Undefined [Num 1; Num 2] 2%Z).
  - repeat constructor.
  - lia.
  - unfold isSafeInteger. cbn. lia.
Defined.

Lemma cycle_state {T : Type} `{Nilable T} (values : list T) :
  notNil values -> values <> [] -> forall p,
  exists v, nth_error values (p mod List.length values) = Some v /\
            unfold_state (SeqFns.cycle_step values) 0%Z p
            = SOME (v, Z.of_nat (S p mod List.length values)).
Proof.
  intros Hn Hne.
  assert (Hlen : 0 < List.length values) by (destruct values; [contradiction | cbn; lia]).
  assert (Hstep : forall q, q < List.length values ->
            exists v, nth_error values q = Some v /\
                      SeqFns.cycle_step values (Z.of_nat q)
                      = SOME (v, Z.of_nat (S q mod List.length values))).
  { intros q Hq. destruct (nth_error values q) as [v | ] eqn:Ev;
      [ | apply nth_error_None in Ev; lia].
    exists v. split; [reflexivity | ]. unfold SeqFns.cycle_step.
    destruct (Z.eqb_spec (Z.of_nat (List.length values)) 0); [lia | ].
    rewrite index_of_nat, Ev. cbn [optional].
    assert (Hv : isNil v = false).
    { unfold notNil in Hn. rewrite Forall_forall in Hn. apply Hn.
      eapply nth_error_In. exact Ev. }
    rewrite Hv. replace (Z.of_nat q + 1)%Z with (Z.of_nat (S q)) by lia.
    now rewrite rem_of_nat by exact Hlen. }
  induction p as [ | p IH].
  - cbn [unfold_state]. rewrite Nat.Div0.mod_0_l. exact (Hstep 0 Hlen).
  - destruct IH as (v & _ & E). cbn [unfold_state]. rewrite E.
    destruct (Hstep (S p mod List.length values)) as (v' & Ev' & E').
    + now apply Nat.mod_upper_bound; lia.
    + exists v'. split; [exact Ev' | ]. rewrite E'. do 3 f_equal.
      replace (S (S p mod List.length values)) with (S p mod List.length values + 1) by lia.
      rewrite Nat.Div0.add_mod_idemp_l. f_equal. lia.
Qed.

(** X24: [cycle(values)] over a non-empty array without [null] or
    [undefined] never ends: [get(i)] is [values[i % values.length]] for
    every [i >= 0]; [cycle([])] is the empty sequence. *)
Theorem cycle_repeats {T : Type} `{Nilable T} (values : list T) :
  notNil values -> values <> [] ->
  (exists g, Behaves (SeqFns.cycle values) (init tt) g /\
     forall i v, nth_error values (i mod List.length values) = Some v ->
                 g (Z.of_nat i) = SOME v) /\
  Lists (SeqFns.cycle (@nil T)) (init tt) [].
Proof.
  intros Hn Hne. split.
  - exists (denote (unfold_stream (SeqFns.cycle_step values) 0%Z)). split.
    + unfold SeqFns.cycle, SeqFns.unfold.
      exact (create_behaves _ (fun _ => True) _ _ tt (unfold_source_spec _ 0%Z) I).
    + intros i v Hv. rewrite (denote_yield _ i v).
      * replace (isNil v) with false; [reflexivity | ]. symmetry.
        unfold notNil in Hn. rewrite Forall_forall in Hn. apply Hn.
        eapply nth_error_In. exact Hv.
      * intros j _. unfold unfold_stream.
        destruct (cycle_state values Hn Hne j) as (x & _ & E). now rewrite E.
      * unfold unfold_stream. destruct (cycle_state values Hn Hne i) as (x & Ex & E).
        rewrite E. congruence.
  - unfold SeqFns.cycle, SeqFns.unfold.
    assert (He : Enum (unfold_stream (SeqFns.cycle_step (@nil T)) 0%Z) []).
    { split; [ | reflexivity]. intros p v Hv. now destruct p. }
    apply (create_lists _ (fun _ => True) _ _ tt
             (SourceSpec_enum _ _ _ _ _ (unfold_source_spec _ 0%Z) He) I).
    constructor.
Qed.

Lemma cycle_repeats_witness :
  (exists g, Behaves (SeqFns.cycle [1; 2; 3]%Z) (init tt) g /\
     forall i v, nth_error [1; 2; 3]%Z (i mod List.length [1; 2; 3]%Z) = Some v ->
                 g (Z.of_nat i) = SOME v) /\
  Lists (SeqFns.cycle (@nil Z)) (init tt) [].
Proof.
  apply (cycle_repeats [1; 2; 3]%Z).
  - apply notNil_Z.
  - discriminate.
Defined.

(** ** [zip] and [enumerate] on whole sequences *)

Lemma zip_lists_aux {Wa Wb T U : Type} `{Nilable T} `{Nilable U} (a : Seq Wa T) (b : Seq Wb U)
  (wa : Wa) (wb : Wb) (ga : Z -> Option T) (gb : Z -> Option U) (L : list (T * U)) :
  Behaves a wa ga -> Behaves b wb gb -> Enum (zip_stream ga gb) L ->
  Lists (zip a b) (init (wa, wb)) L.
Proof.
  intros (InvA & Hia & Ha) (InvB & Hib & Hb) He.
  pose proof (zip_source_spec a b everywhere everywhere InvA InvB ga gb Ha Hb
                (fun p _ => conj I I)) as Hsrc.
  unfold zip.
  apply (create_lists _ _ _ _ (wa, wb) (SourceSpec_enum _ _ _ _ _ Hsrc He)).
  - now split.
  - apply Forall_forall. intros x _. reflexivity.
Qed.

(** X25: [a.zip(b)] of the finite sequences [xs] and [ys] is the sequence
    of the pairs [(xs[i], ys[i])], as long as the shorter of the two. *)
Theorem zip_lists {Wa Wb T U : Type} `{Nilable T} `{Nilable U} (a : Seq Wa T) (b : Seq Wb U)
  (wa : Wa) (wb : Wb) (xs : list T) (ys : list U) :
  Lists a wa xs -> Lists b wb ys ->
  Lists (zip a b) (init (wa, wb)) (combine xs ys) /\
  List.length (combine xs ys) = Nat.min (List.length xs) (List.length ys).
Proof.
  intros (ga & Hba & Hxa) (gb & Hbb & Hxb). split; [ | apply length_combine].
  apply (zip_lists_aux a b wa wb ga gb _ Hba Hbb). split.
  - intros p [x y] Hp. apply nth_error_combine in Hp. destruct Hp as [Hx Hy].
    unfold zip_stream, iteration. now rewrite (proj1 Hxa p x Hx), (proj1 Hxb p y Hy).
  - rewrite length_combine. unfold zip_stream, iteration.
    destruct (Nat.min_spec (List.length xs) (List.length ys)) as [[Hlt ->] | [Hge ->]].
    + now rewrite (proj2 Hxa (List.length xs) (Nat.le_refl _)).
    + rewrite (proj2 Hxb (List.length ys) (Nat.le_refl _)).
      now destruct (ga (Z.of_nat (List.length ys))).
Qed.

Lemma zip_lists_witness :
  Lists (zip (fromArray [1; 2; 3]%Z) (fromArray [Num 7; Num 8])) (init (init tt, init tt))
    (combine [1; 2; 3]%Z [Num 7; Num 8]) /\
  List.length (combine [1; 2; 3]%Z [Num 7; Num 8])
  = Nat.min (List.length [1; 2; 3]%Z) (List.length [Num 7; Num 8]).
Proof.
  apply (zip_lists (fromArray [1; 2; 3]%Z) (fromArray [Num 7; Num 8]) (init tt) (init tt)).
  - apply fromArray_lists. apply notNil_Z.
  - apply fromArray_lists. repeat constructor.
Defined.

(** X26: [enumerate(seq)] of the finite sequence [l] pairs every element
    with its position: it lists [(0, l[0]), (1, l[1]), ...], as many pairs
    as [l] has elements. *)
Theorem enumerate_lists {W T : Type} `{Nilable T} (s : Seq W T) (w : W) (l : list T) :
  Lists s w l ->
  Lists (SeqFns.enumerate s) (init (init tt, w)) (combine (rangeList 0%Z (List.length l)) l) /\
  List.length (combine (rangeList 0%Z (List.length l)) l) = List.length l /\
  (forall p v, nth_error l p = Some v ->
     nth_error (combine (rangeList 0%Z (List.length l)) l) p = Some (Z.of_nat p, v)).
Proof.
  intros (g & Hb & Hex).
  assert (Hnth : forall p v, nth_error l p = Some v ->
            nth_error (combine (rangeList 0%Z (List.length l)) l) p = Some (Z.of_nat p, v)).
  { intros p v Hv. assert (Hp : p < List.length l) by (apply nth_error_Some; congruence).
    destruct (nth_error (combine (rangeList 0%Z (List.length l)) l) p) as [[i x] | ] eqn:E.
    - apply nth_error_combine in E. destruct E as [Ei Ex].
      rewrite nth_error_rangeList in Ei.
      destruct (Nat.ltb_spec p (List.length l)); [ | discriminate].
      inv Ei. rewrite Hv in Ex. inv Ex. reflexivity.
    - apply nth_error_None in E. rewrite length_combine, length_rangeList in E. lia. }
  split; [ | split; [ | exact Hnth]].
  - destruct (range_infinite 0%Z) as [Hr Hg]. unfold SeqFns.enumerate.
    apply (zip_lists_aux _ s (init tt) w _ g _ Hr Hb). split.
    + intros p [i v] Hp. apply nth_error_combine in Hp. destruct Hp as [Hi Hv].
      rewrite nth_error_rangeList in Hi.
      destruct (Nat.ltb_spec p (List.length l)); [ | discriminate]. inv Hi.
      unfold zip_stream, iteration.
      rewrite (Hg (Z.of_nat p)) by lia. now rewrite (proj1 Hex p v Hv).
    + rewrite length_combine, length_rangeList, Nat.min_id. unfold zip_stream, iteration.
      rewrite (proj2 Hex (List.length l) (Nat.le_refl _)).
      now destruct (denote _ _).
  - rewrite length_combine, length_rangeList. apply Nat.min_id.
Qed.

Lemma enumerate_lists_witness :
  Lists (SeqFns.enumerate (fromArray [Num 7; Num 8])) (init (init tt, init tt))
    (combine (rangeList 0%Z (List.length [Num 7; Num 8])) [Num 7; Num 8]) /\
  List.length (combine (rangeList 0%Z (List.length [Num 7; Num 8])) [Num 7; Num 8])
  = List.length [Num 7; Num 8] /\
  (forall p v, nth_error [Num 7; Num 8] p = Some v ->
     nth_error (combine (rangeList 0%Z (List.length [Num 7; Num 8])) [Num 7; Num 8]) p
     = Some (Z.of_nat p, v)).
Proof.
  apply (enumerate_lists (fromArray [Num 7; Num 8]) (init tt) [Num 7; Num 8]).
  apply fromArray_lists. repeat constructor.
Defined.

(** ** [distinct] and [distinctBy] *)

Lemma skipn_nth_cons {T : Type} (l : list T) : forall (q : nat) (v : T),
  nth_error l q = Some v -> skipn q l = v :: skipn (S q) l.
Proof.
  induction l as [ | a l IH]; intros [ | q] v Hv; try discriminate.
  - cbn in Hv. now inv Hv.
  - cbn [nth_error] in Hv. exact (IH q v Hv).
Qed.

Lemma ofList_skipn {T : Type} (l : list T) (p : nat) : ofList (skipn p l) 0 = ofList l p.
Proof.
  unfold ofList. destruct (nth_error l p) as [v | ] eqn:Ev.
  - now rewrite (skipn_nth_cons l p v Ev).
  - apply nth_error_None in Ev. now rewrite skipn_all2.
Qed.

Section DistinctSpec.
Context {W T K : Type} `{Nilable T}.
Variable s : Seq W T.
Variable Inv : W -> Prop.
Variable g : Z -> Option T.
Hypothesis Hs : SeqSpec s everywhere Inv g.
Variable l : list T.
Hypothesis Hex : Exactly g l.
Variable same : K -> K -> bool.
Variable fn : T -> K.

Lemma distinctBy_next_spec : forall (fuel q : nat) (seen : list K) (w : W),
  Inv w -> List.length (skipn q l) < fuel ->
  exists q' seen' w',
    SeqFns.distinctBy_next s fuel same fn (Z.of_nat q) seen w
    = Some (ofList (dedupBy same fn seen (skipn q l)) 0, (Z.of_nat q', seen'), w') /\
    dedupBy same fn seen' (skipn q' l) = List.tl (dedupBy same fn seen (skipn q l)) /\
    Inv w'.
Proof.
  induction fuel as [ | fuel IH]; intros q seen w Hi Hf; [lia | ].
  cbn [SeqFns.distinctBy_next next iterator]. unfold bind, ret.
  destruct (pull s Inv g Hs l Hex q w Hi) as (o & w1 & E & Ho & Hi1).
  rewrite E, Ho. unfold ofList at 1. destruct (nth_error l q) as [v | ] eqn:Ev.
  - rewrite (skipn_nth_cons l q v Ev) in Hf |- *. cbn [dedupBy List.length] in Hf |- *.
    replace (Z.of_nat q + 1)%Z with (Z.of_nat (S q)) by lia.
    destruct (existsb (same (fn v)) seen); cbn [negb].
    + apply IH; [exact Hi1 | lia].
    + exists (S q), (seen ++ [fn v]), w1. now repeat split.
  - apply nth_error_None in Ev. rewrite skipn_all2 by exact Ev. cbn [dedupBy].
    replace (Z.of_nat q + 1)%Z with (Z.of_nat (S q)) by lia.
    exists (S q), seen, w1. split; [reflexivity | ]. split; [ | exact Hi1].
    rewrite skipn_all2 by lia. reflexivity.
Qed.

Lemma distinctBy_source_spec (fuel : nat) :
  List.length l < fuel ->
  SourceSpec (SeqFns.distinctBy_source s fuel same fn) everywhere Inv
    (fun c p => (exists q, fst c = Z.of_nat q /\
                           dedupBy same fn (snd c) (skipn q l)
                           = skipn p (dedupBy same fn [] l)))
    (ofList (dedupBy same fn [] l)).
Proof.
  intros Hf. split.
  - intros w Hi. exists (0%Z, []), w. split; [reflexivity | ]. split; [ | exact Hi].
    exists 0. now split.
  - intros [it seen] p w Hi (q & Hq & Ha) _ _. cbn [fst snd] in Hq, Ha. subst it.
    cbn [next SeqFns.distinctBy_source].
    destruct (distinctBy_next_spec fuel q seen w Hi) as (q' & seen' & w' & E & Ht & Hi').
    + rewrite length_skipn. lia.
    + exists (Z.of_nat q', seen'), w'. split; [ | split; [ | exact Hi']].
      * now rewrite E, Ha, ofList_skipn.
      * exists q'. split; [reflexivity | ]. cbn [snd]. now rewrite Ht, Ha, skipn_S_tl.
Qed.

End DistinctSpec.

Lemma distinct_next_eq {W T : Type} `{Nilable T} (s : Seq W T) (same : T -> T -> bool) :
  forall (fuel : nat) (it : Z) (seen : list T) (w : W),
  SeqFns.distinct_next s fuel same it seen w
  = SeqFns.distinctBy_next s fuel same (fun v => v) it seen w.
Proof.
  induction fuel as [ | fuel IH]; intros it seen w; [reflexivity | ].
  cbn [SeqFns.distinct_next SeqFns.distinctBy_next]. unfold bind.
  destruct (next (iterator s) it w) as [[[[v | ] it'] w'] | ]; try reflexivity.
  destruct (negb (existsb (same v) seen)); [reflexivity | apply IH].
Qed.

Lemma distinct_source_spec {W T : Type} `{Nilable T} (s : Seq W T) (Inv : W -> Prop)
  (g : Z -> Option T) (l : list T) (same : T -> T -> bool) (fuel : nat) :
  SeqSpec s everywhere Inv g -> Exactly g l -> List.length l < fuel ->
  exists At, SourceSpec (SeqFns.distinct_source s fuel same) everywhere Inv At
               (ofList (dedupBy same (fun v => v) [] l)).
Proof.
  intros Hs Hex Hf.
  pose proof (distinctBy_source_spec s Inv g Hs l Hex same (fun v => v) fuel Hf) as Hsrc.
  eexists. split.
  - exact (spec_fresh Hsrc).
  - intros [it seen] p w Hi Ha Hd Hy.
    destruct (spec_next Hsrc (it, seen) p w Hi Ha Hd Hy) as (c' & w' & E & Ha' & Hi').
    exists c', w'. split; [ | now split].
    cbn [next SeqFns.distinct_source]. rewrite distinct_next_eq. exact E.
Qed.

Section DedupFacts.
Context {T K : Type}.
Variable same : K -> K -> bool.
Hypothesis same_eq : forall a b, same a b = true <-> a = b.
Variable fn : T -> K.

Lemma seen_iff (k : K) (seen : list K) : existsb (same k) seen = true <-> In k seen.
Proof.
  rewrite existsb_exists. split.
  - intros (x & Hx & Hk). apply same_eq in Hk. now subst x.
  - intros Hk. exists k. split; [exact Hk | now apply same_eq].
Qed.

Lemma dedupBy_in : forall (l : list T) (seen : list K) (v : T),
  In v (dedupBy same fn seen l) -> In v l /\ ~ In (fn v) seen.
Proof.
  induction l as [ | a l IH]; intros seen v Hv; [contradiction | ].
  cbn [dedupBy] in Hv. destruct (existsb (same (fn a)) seen) eqn:E.
  - destruct (IH seen v Hv) as [Hin Hn]. split; [now right | exact Hn].
  - destruct Hv as [-> | Hv].
    + split; [now left | ]. intros Hin. apply seen_iff in Hin. congruence.
    + destruct (IH _ v Hv) as [Hin Hn]. split; [now right | ].
      intros Hs. apply Hn. apply in_or_app. now left.
Qed.

Lemma dedupBy_nodup : forall (l : list T) (seen : list K),
  NoDup (List.map fn (dedupBy same fn seen l)).
Proof.
  induction l as [ | a l IH]; intros seen; [constructor | ].
  cbn [dedupBy]. destruct (existsb (same (fn a)) seen); [apply IH | ].
  cbn [List.map]. constructor; [ | apply IH].
  intros Hin. apply in_map_iff in Hin. destruct Hin as (x & Hx & Hin).
  apply dedupBy_in in Hin. apply (proj2 Hin). rewrite Hx. apply in_or_app. right. now left.
Qed.

Lemma dedupBy_covers : forall (l : list T) (seen : list K) (v : T),
  In v l -> In (fn v) seen \/ In (fn v) (List.map fn (dedupBy same fn seen l)).
Proof.
  induction l as [ | a l IH]; intros seen v Hv; [contradiction | ].
  cbn [dedupBy]. destruct (existsb (same (fn a)) seen) eqn:E.
  - destruct Hv as [-> | Hv]; [left; now apply seen_iff | now apply IH].
  - cbn [List.map]. destruct Hv as [-> | Hv]; [right; now left | ].
    destruct (IH (seen ++ [fn a]) v Hv) as [Hs | Hr]; [ | right; now right].
    apply in_app_or in Hs. destruct Hs as [Hs | [Hs | []]]; [now left | right; now left].
Qed.

Lemma dedupBy_fixed : forall (R : list T) (seen : list K),
  NoDup (List.map fn R) -> (forall v, In v R -> ~ In (fn v) seen) ->
  dedupBy same fn seen R = R.
Proof.
  induction R as [ | a R IH]; intros seen Hnd Hdis; [reflexivity | ].
  cbn [dedupBy]. cbn [List.map] in Hnd. inv Hnd.
  destruct (existsb (same (fn a)) seen) eqn:E.
  - apply seen_iff in E. exfalso. exact (Hdis a (or_introl eq_refl) E).
  - f_equal. apply IH; [assumption | ]. intros v Hv Hin. apply in_app_or in Hin.
    destruct Hin as [Hin | [Hin | []]].
    + exact (Hdis v (or_intror Hv) Hin).
    + match goal with Hn : ~ In (fn a) _ |- _ => apply Hn end.
      rewrite Hin. now apply in_map.
Qed.

End DedupFacts.

Lemma notNil_dedupBy {T K : Type} `{Nilable T} (same : K -> K -> bool) (fn : T -> K)
  (l : list T) : forall seen, notNil l -> notNil (dedupBy same fn seen l).
Proof.
  induction l as [ | a l IH]; intros seen Hn; [constructor | ].
  inv Hn. cbn [dedupBy]. destruct (existsb _ seen); [now apply IH | ].
  constructor; [assumption | now apply IH].
Qed.

Lemma length_dedupBy {T K : Type} (same : K -> K -> bool) (fn : T -> K) (l : list T) :
  forall seen, List.length (dedupBy same fn seen l) <= List.length l.
Proof.
  induction l as [ | a l IH]; intros seen; [cbn; lia | ].
  cbn [dedupBy]. destruct (existsb _ seen); cbn [List.length].
  - specialize (IH seen). lia.
  - specialize (IH (seen ++ [fn a])). lia.
Qed.

Lemma distinctBy_lists_aux {W T K : Type} `{Nilable T} (s : Seq W T) (w : W) (l : list T)
  (same : K -> K -> bool) (fn : T -> K) (fuel : nat) :
  Lists s w l -> List.length l < fuel ->
  Lists (SeqFns.distinctBy s fuel same fn) (init w) (dedupBy same fn [] l).
Proof.
  intros Hl Hf. pose proof (lists_notnil s w l Hl) as Hn.
  destruct Hl as (g & (Inv & Hi & Hs) & Hex).
  apply (create_lists _ Inv _ _ w
           (distinctBy_source_spec s Inv g Hs l Hex same fn fuel Hf) Hi).
  now apply notNil_dedupBy.
Qed.

(** X27: when [same] is the equality of the keys, [distinctBy(fn)] of the
    finite sequence [l] keeps, in the order of [l], the first element of
    every key: the keys of the result are pairwise different, every key of
    [l] is the key of a result, and every result is an element of [l];
    [distinct()] is the same with the elements as their own keys, and
    applying [distinctBy(fn)] twice gives what applying it once gives. *)
Theorem distinct_lists {W T K : Type} `{Nilable T} (s : Seq W T) (w : W) (l : list T)
  (same : K -> K -> bool) (sameT : T -> T -> bool) (fn : T -> K) (fuel : nat) :
  (forall a b, same a b = true <-> a = b) ->
  (forall a b, sameT a b = true <-> a = b) ->
  Lists s w l -> List.length l < fuel ->
  Lists (SeqFns.distinctBy s fuel same fn) (init w) (dedupBy same fn [] l) /\
  Lists (SeqFns.distinct s fuel sameT) (init w) (dedupBy sameT (fun v => v) [] l) /\
  Lists (SeqFns.distinctBy (SeqFns.distinctBy s fuel same fn) fuel same fn) (init (init w))
    (dedupBy same fn [] l) /\
  NoDup (List.map fn (dedupBy same fn [] l)) /\
  NoDup (dedupBy sameT (fun v => v) [] l) /\
  (forall v, In v l -> In (fn v) (List.map fn (dedupBy same fn [] l))) /\
  (forall v, In v (dedupBy same fn [] l) -> In v l).
Proof.
  intros Hsame HsameT Hl Hf. pose proof (lists_notnil s w l Hl) as Hn.
  pose proof (distinctBy_lists_aux s w l same fn fuel Hl Hf) as Hd.
  split; [exact Hd | ]. split; [ | split; [ | split; [ | split; [ | split]]]].
  - destruct Hl as (g & (Inv & Hi & Hs) & Hex).
    destruct (distinct_source_spec s Inv g l sameT fuel Hs Hex Hf) as (At & Hsrc).
    apply (create_lists _ Inv At _ w Hsrc Hi). now apply notNil_dedupBy.
  - pose proof (distinctBy_lists_aux _ _ _ same fn fuel Hd) as Hdd.
    rewrite (dedupBy_fixed same Hsame fn (dedupBy same fn [] l) []) in Hdd.
    + apply Hdd. pose proof (length_dedupBy same fn l []). lia.
    + apply dedupBy_nodup. exact Hsame.
    + intros v _ [].
  - apply dedupBy_nodup. exact Hsame.
  - rewrite <- (map_id (dedupBy sameT (fun v => v) [] l)). apply dedupBy_nodup. exact HsameT.
  - intros v Hv. destruct (dedupBy_covers same Hsame fn l [] v Hv) as [[] | Hr]. exact Hr.
  - intros v Hv. exact (proj1 (dedupBy_in same Hsame fn l [] v Hv)).
Qed.

Lemma distinct_lists_witness :
  Lists (SeqFns.distinctBy (fromArray [1; 3; 2; 5]%Z) 5 Bool.eqb Z.even) (init (init tt))
    (dedupBy Bool.eqb Z.even [] [1; 3; 2; 5]%Z) /\
  Lists (SeqFns.distinct (fromArray [1; 3; 2; 5]%Z) 5 Z.eqb) (init (init tt))
    (dedupBy Z.eqb (fun v => v) [] [1; 3; 2; 5]%Z) /\
  Lists (SeqFns.distinctBy (SeqFns.distinctBy (fromArray [1; 3; 2; 5]%Z) 5 Bool.eqb Z.even)
           5 Bool.eqb Z.even) (init (init (init tt)))
    (dedupBy Bool.eqb Z.even [] [1; 3; 2; 5]%Z) /\
  NoDup (List.map Z.even (dedupBy Bool.eqb Z.even [] [1; 3; 2; 5]%Z)) /\
  NoDup (dedupBy Z.eqb (fun v => v) [] [1; 3; 2; 5]%Z) /\
  (forall v, In v [1; 3; 2; 5]%Z ->
             In (Z.even v) (List.map Z.even (dedupBy Bool.eqb Z.even [] [1; 3; 2; 5]%Z))) /\
  (forall v, In v (dedupBy Bool.eqb Z.even [] [1; 3; 2; 5]%Z) -> In v [1; 3; 2; 5]%Z).
Proof.
  apply (distinct_lists (fromArray [1; 3; 2; 5]%Z) (init tt) [1; 3; 2; 5]%Z
           Bool.eqb Z.eqb Z.even 5).
  - intros a b. apply Bool.eqb_true_iff.
  - intros a b. apply Z.eqb_eq.
  - apply fromArray_lists. apply notNil_Z.
  - cbn. lia.
Defined.

(** ** [intersperse] and [pairwise] *)

Lemma nth_error_interspersed {T : Type} (sep : T) (l : list T) : forall p,
  nth_error (interspersed sep l) p
  = if Nat.even p then nth_error l (Nat.div2 p)
    else if Nat.div2 p + 1 <? List.length l then Some sep else None.
Proof.
  induction l as [ | a l IH]; intros p.
  - cbn [interspersed List.length]. destruct (Nat.even p); [now destruct p, (Nat.div2 _) | ].
    destruct (Nat.ltb_spec (Nat.div2 p + 1) 0) as [Hlt | Hge];
      [now apply Nat.nlt_0_r in Hlt | now destruct p].
  - destruct l as [ | b l'].
    + destruct p as [ | [ | p]]; [reflexivity | reflexivity | ].
      cbn [interspersed Nat.even Nat.div2 List.length nth_error].
      generalize (Nat.div2 p) as d. intros d.
      destruct (Nat.even p); [now destruct d | ].
      destruct (Nat.ltb_spec (S d + 1) 1); [lia | now destruct p].
    + destruct p as [ | [ | p]]; [reflexivity | reflexivity | ].
      change (interspersed sep (a :: b :: l')) with (a :: sep :: interspersed sep (b :: l')).
      cbn [Nat.even Nat.div2 nth_error]. rewrite IH.
      generalize (Nat.div2 p) as d. intros d.
      destruct (Nat.even p); [reflexivity | ].
      change (List.length (a :: b :: l')) with (S (List.length (b :: l'))).
      destruct (Nat.ltb_spec (d + 1) (List.length (b :: l'))),
               (Nat.ltb_spec (S d + 1) (S (List.length (b :: l'))));
        try lia; reflexivity.
Qed.

Lemma length_interspersed {T : Type} (sep : T) (l : list T) :
  List.length (interspersed sep l) = 2 * List.length l - 1.
Proof.
  induction l as [ | a l IH]; [reflexivity | ].
  destruct l as [ | b l']; [reflexivity | ].
  change (interspersed sep (a :: b :: l')) with (a :: sep :: interspersed sep (b :: l')).
  cbn [List.length] in *. lia.
Qed.

Lemma even_double (i : nat) : Nat.even (2 * i) = true /\ Nat.div2 (2 * i) = i.
Proof.
  split.
  - apply Nat.even_spec. now exists i.
  - apply Nat.div2_double.
Qed.

Lemma odd_double (i : nat) : Nat.even (2 * i + 1) = false /\ Nat.div2 (2 * i + 1) = i.
Proof.
  split.
  - rewrite <- Nat.negb_odd. replace (Nat.odd (2 * i + 1)) with true; [reflexivity | ].
    symmetry. apply Nat.odd_spec. now exists i.
  - replace (2 * i + 1) with (S (2 * i)) by lia. apply Nat.div2_succ_double.
Qed.

Lemma nth_error_combine_both {T U : Type} (xs : list T) : forall (ys : list U) (p : nat),
  nth_error (combine xs ys) p
  = match nth_error xs p, nth_error ys p with
    | Some x, Some y => Some (x, y)
    | _, _ => None
    end.
Proof.
  induction xs as [ | x xs IH]; intros ys p.
  - cbn [combine]. now destruct p.
  - destruct ys as [ | y ys].
    + cbn [combine]. destruct p as [ | p]; [reflexivity | ].
      cbn [nth_error]. now destruct (nth_error xs p).
    + destruct p as [ | p]; [reflexivity | ]. cbn [combine nth_error]. apply IH.
Qed.

Lemma nth_error_tl {T : Type} (l : list T) (p : nat) :
  nth_error (List.tl l) p = nth_error l (S p).
Proof. destruct l; [now destruct p | reflexivity]. Qed.

Section NeighbourSpec.
Context {W T : Type} `{Nilable T}.
Variable s : Seq W T.
Variable Inv : W -> Prop.
Variable g : Z -> Option T.
Hypothesis Hs : SeqSpec s everywhere Inv g.
Variable l : list T.
Hypothesis Hex : Exactly g l.

Lemma intersperse_source_spec (undefined sep : T) :
  SourceSpec (SeqFns.intersperse_source s undefined sep) everywhere Inv
    (fun c p =>
       p <= List.length (interspersed sep l) ->
       (p = 0 -> c = (0%Z, true, false, undefined)) /\
       (0 < p ->
        if Nat.even p
        then exists v, nth_error l (Nat.div2 p) = Some v /\
                       c = (Z.of_nat (Nat.div2 p + 1), false, true, v)
        else exists nv, c = (Z.of_nat (Nat.div2 p + 1), false, false, nv)))
    (ofList (interspersed sep l)).
Proof.
  split.
  - intros w Hi. exists (0%Z, true, false, undefined), w. split; [reflexivity | ].
    split; [ | exact Hi]. intros _. split; [reflexivity | lia].
  - intros [[[it first] pending] nextVal] p w Hi Ha _ Hy.
    pose proof (no_done_le _ p Hy) as Hp. destruct (Ha Hp) as [Ha0 Ha1]. clear Ha.
    cbn [next SeqFns.intersperse_source iterator]. unfold bind, ret.
    unfold ofList at 1. rewrite nth_error_interspersed.
    destruct (Nat.eq_dec p 0) as [Hz | Hnz].
    + specialize (Ha0 Hz). inv Ha0.
      destruct (pull s Inv g Hs l Hex 0 w Hi) as (o & w' & E & Ho & Hi').
      change (Z.of_nat 0) with 0%Z in E. rewrite E, Ho. cbn [Nat.even Nat.div2].
      unfold ofList. destruct (nth_error l 0) as [v | ] eqn:Ev.
      * eexists _, w'. split; [reflexivity | ]. split; [ | exact Hi'].
        intros _. split; [discriminate | ]. intros _. cbn [Nat.even Nat.div2].
        now exists undefined.
      * eexists _, w'. split; [reflexivity | ]. split; [ | exact Hi'].
        apply nth_error_None in Ev. intros Hsp. exfalso.
        destruct l; [cbn in Hsp; lia | cbn in Ev; lia].
    + specialize (Ha1 ltac:(lia)). clear Ha0. destruct (Nat.even p) eqn:Ep.
      * destruct Ha1 as (v & Ev & Hc). inv Hc.
        rewrite Ev. eexists _, w. split; [reflexivity | ]. split; [ | exact Hi].
        intros _. split; [discriminate | ]. intros _.
        rewrite Nat.even_succ, <- Nat.negb_even, Ep. cbn [negb]. exists v. do 3 f_equal.
        destruct (proj1 (Nat.even_spec p) Ep) as (i & Hi2). rewrite Hi2.
        now rewrite Nat.div2_succ_double, Nat.div2_double.
      * destruct Ha1 as (nv & Hc). inv Hc.
        assert (Hodd : exists i, p = 2 * i + 1).
        { apply Nat.odd_spec. now rewrite <- Nat.negb_even, Ep. }
        destruct Hodd as (i & Hi2). subst p. rewrite (proj2 (odd_double i)).
        destruct (pull s Inv g Hs l Hex (i + 1) w Hi) as (o & w' & E & Ho & Hi').
        rewrite E, Ho. unfold ofList.
        destruct (nth_error l (i + 1)) as [v | ] eqn:Ev.
        -- assert (Hlt : i + 1 < List.length l) by (apply nth_error_Some; congruence).
           destruct (Nat.ltb_spec (i + 1) (List.length l)); [ | lia].
           eexists _, w'. split; [reflexivity | ]. split; [ | exact Hi'].
           intros _. split; [discriminate | ]. intros _.
           replace (S (2 * i + 1)) with (2 * (i + 1)) by lia.
           destruct (even_double (i + 1)) as [He Hd]. rewrite He, Hd.
           exists v. split; [exact Ev | ]. repeat f_equal. lia.
        -- apply nth_error_None in Ev.
           destruct (Nat.ltb_spec (i + 1) (List.length l)); [lia | ].
           eexists _, w'. split; [reflexivity | ]. split; [ | exact Hi'].
           rewrite length_interspersed. intros Hsp. exfalso. lia.
Qed.

Lemma pairwise_source_spec :
  SourceSpec (SeqFns.pairwise_source s) everywhere Inv
    (fun c p => p <= List.length (combine l (List.tl l)) ->
                c = (Z.of_nat p + 1, ofList l p)%Z)
    (ofList (combine l (List.tl l))).
Proof.
  split.
  - intros w Hi. cbn [fresh SeqFns.pairwise_source iterator next]. unfold bind, ret.
    destruct (pull s Inv g Hs l Hex 0 w Hi) as (o & w' & E & Ho & Hi').
    change (Z.of_nat 0) with 0%Z in E. rewrite E, Ho.
    eexists _, w'. split; [reflexivity | ]. split; [ | exact Hi']. intros _. reflexivity.
  - intros [it prev] p w Hi Ha _ Hy. pose proof (no_done_le _ p Hy) as Hp.
    specialize (Ha Hp). inv Ha.
    cbn [next SeqFns.pairwise_source iterator]. unfold bind, ret.
    replace (ofList (combine l (List.tl l)) p)
      with (match nth_error l p, nth_error l (S p) with
            | Some a, Some b => Yield (a, b)
            | _, _ => Done
            end)
      by (unfold ofList; rewrite nth_error_combine_both, nth_error_tl;
          now destruct (nth_error l p), (nth_error l (S p))).
    unfold ofList at 1. destruct (nth_error l p) as [a | ] eqn:Ea.
    + destruct (pull s Inv g Hs l Hex (S p) w Hi) as (o & w' & E & Ho & Hi').
      replace (Z.of_nat (S p)) with (Z.of_nat p + 1)%Z in E by lia.
      rewrite E, Ho. unfold ofList. destruct (nth_error l (S p)) as [b | ] eqn:Eb.
      * eexists _, w'. split; [reflexivity | ]. split; [ | exact Hi'].
        intros _. f_equal. lia.
      * eexists _, w'. split; [reflexivity | ]. split; [ | exact Hi'].
        apply nth_error_None in Eb. rewrite length_combine. intros Hsp.
        destruct l; cbn [List.tl List.length] in *; lia.
    + eexists _, w. split; [reflexivity | ]. split; [ | exact Hi].
      apply nth_error_None in Ea. rewrite length_combine. intros Hsp.
      destruct l; cbn [List.tl List.length] in *; lia.
Qed.

End NeighbourSpec.

(** X28: [intersperse(sep)] of the finite sequence [l] puts [sep] between
    every two neighbours of [l] and nowhere else: the elements of [l] are
    at the even positions, a non-nil [sep] at the odd ones, [2 * length l -
    1] elements in all; a [null] or [undefined] [sep] cuts the spread after
    the first element. *)
Theorem intersperse_lists {W T : Type} `{Nilable T} (s : Seq W T) (w : W) (l : list T)
  (undefined sep : T) :
  Lists s w l ->
  (forall fuel, 2 * List.length l < fuel ->
     exists st, toArrayUnsafe fuel (SeqFns.intersperse s undefined sep) (init w)
                = Some (if isNil sep then firstn 1 l else interspersed sep l, st)) /\
  (isNil sep = false ->
   Lists (SeqFns.intersperse s undefined sep) (init w) (interspersed sep l)) /\
  List.length (interspersed sep l) = 2 * List.length l - 1 /\
  (forall i v, nth_error l i = Some v -> nth_error (interspersed sep l) (2 * i) = Some v) /\
  (forall i, i + 1 < List.length l -> nth_error (interspersed sep l) (2 * i + 1) = Some sep).
Proof.
  intros Hl. pose proof (lists_notnil s w l Hl) as Hn.
  destruct Hl as (g & (Inv & Hi & Hs) & Hex).
  destruct (create_lists _ Inv _ _ w (intersperse_source_spec s Inv g Hs l Hex undefined sep) Hi)
    as [Hl Hsp].
  assert (Hnn : isNil sep = false -> notNil (interspersed sep l)).
  { intros Hsep. clear -Hn Hsep. induction Hn as [ | a l Ha Hn IH]; [constructor | ].
    destruct l as [ | b l']; [now repeat constructor | ].
    change (interspersed sep (a :: b :: l')) with (a :: sep :: interspersed sep (b :: l')).
    now repeat constructor. }
  split; [ | split; [ | split; [ | split]]].
  - intros fuel Hf. destruct (Hsp fuel) as (st & E); [rewrite length_interspersed; lia | ].
    exists st. unfold SeqFns.intersperse. rewrite E. do 2 f_equal.
    destruct (isNil sep) eqn:Hsep.
    + destruct Hn as [ | a l Ha Hn]; [reflexivity | ].
      destruct l as [ | b l']; cbn [interspersed visible firstn]; rewrite Ha; [reflexivity | ].
      cbn [visible]. now rewrite Hsep.
    + apply visible_notnil. now apply Hnn.
  - intros Hsep. apply Hl. now apply Hnn.
  - apply length_interspersed.
  - intros i v Hv. rewrite nth_error_interspersed.
    destruct (even_double i) as [He Hd]. now rewrite He, Hd.
  - intros i Hlt. rewrite nth_error_interspersed.
    destruct (odd_double i) as [He Hd]. rewrite He, Hd.
    destruct (Nat.ltb_spec (i + 1) (List.length l)); [reflexivity | lia].
Qed.

Lemma intersperse_lists_witness :
  (forall fuel, 2 * List.length [Num 1; Num 2; Num 3] < fuel ->
     exists st, toArrayUnsafe fuel (SeqFns.intersperse (fromArray [Num 1; Num 2; Num 3])
                                      Undefined (Num 0)) (init (init tt))
                = Some (if isNil (Num 0) then firstn 1 [Num 1; Num 2; Num 3]
                        else interspersed (Num 0) [Num 1; Num 2; Num 3], st)) /\
  (isNil (Num 0) = false ->
   Lists (SeqFns.intersperse (fromArray [Num 1; Num 2; Num 3]) Undefined (Num 0))
     (init (init tt)) (interspersed (Num 0) [Num 1; Num 2; Num 3])) /\
  List.length (interspersed (Num 0) [Num 1; Num 2; Num 3])
  = 2 * List.length [Num 1; Num 2; Num 3] - 1 /\
  (forall i v, nth_error [Num 1; Num 2; Num 3] i = Some v ->
     nth_error (interspersed (Num 0) [Num 1; Num 2; Num 3]) (2 * i) = Some v) /\
  (forall i, i + 1 < List.length [Num 1; Num 2; Num 3] ->
     nth_error (interspersed (Num 0) [Num 1; Num 2; Num 3]) (2 * i + 1) = Some (Num 0)).
Proof.
  apply (intersperse_lists (fromArray [Num 1; Num 2; Num 3]) (init tt) [Num 1; Num 2; Num 3]
           Undefined (Num 0)).
  apply fromArray_lists. repeat constructor.
Defined.

(** X29: [pairwise(seq)] of the finite sequence [l] lists the pairs of
    neighbours [(l[p], l[p + 1])], [length l - 1] pairs in all, and nothing
    for a sequence of fewer than two elements. *)
Theorem pairwise_lists {W T : Type} `{Nilable T} (s : Seq W T) (w : W) (l : list T) :
  Lists s w l ->
  Lists (SeqFns.pairwise s) (init w) (combine l (List.tl l)) /\
  List.length (combine l (List.tl l)) = List.length l - 1 /\
  (forall p a b, nth_error l p = Some a -> nth_error l (S p) = Some b ->
     nth_error (combine l (List.tl l)) p = Some (a, b)).
Proof.
  intros (g & (Inv & Hi & Hs) & Hex). split; [ | split].
  - apply (create_lists _ Inv _ _ w (pairwise_source_spec s Inv g Hs l Hex) Hi).
    apply Forall_forall. intros x _. reflexivity.
  - rewrite length_combine. destruct l; cbn [List.tl List.length]; lia.
  - intros p a b Ha Hb. now rewrite nth_error_combine_both, nth_error_tl, Ha, Hb.
Qed.

Lemma pairwise_lists_witness :
  Lists (SeqFns.pairwise (fromArray [1; 2; 3]%Z)) (init (init tt))
    (combine [1; 2; 3]%Z (List.tl [1; 2; 3]%Z)) /\
  List.length (combine [1; 2; 3]%Z (List.tl [1; 2; 3]%Z)) = List.length [1; 2; 3]%Z - 1 /\
  (forall p a b, nth_error [1; 2; 3]%Z p = Some a -> nth_error [1; 2; 3]%Z (S p) = Some b ->
     nth_error (combine [1; 2; 3]%Z (List.tl [1; 2; 3]%Z)) p = Some (a, b)).
Proof.
  apply (pairwise_lists (fromArray [1; 2; 3]%Z) (init tt) [1; 2; 3]%Z).
  apply fromArray_lists. apply notNil_Z.
Defined.

(** ** src/monads/option.ts: the combinators *)

Lemma compact_payloads {T : Type} (options : list (Option T)) :
  OptionFns.compact options = Normal (payloads options).
Proof.
  unfold OptionFns.compact. induction options as [ | [v | ] rest IH]; [reflexivity | | exact IH].
  cbn [List.filter isSome OptionFns.compact_map OptionFns.unwrap payloads]. now rewrite IH.
Qed.

(** X30: on an option built by [some] or [optional] (its payload is not
    nil): [map] obeys the functor laws as long as the first function never
    returns [null] or [undefined] (a nil result turns the option into
    [none]); [flatMap(some)] and [flatten(some(o))] give the option back;
    [filter] never throws and keeps the option exactly when the predicate
    holds; [unwrap] throws exactly on [none] and otherwise agrees with
    [getOrElse]; and [compact] never throws: it returns the payloads of the
    present options. *)
Theorem option_laws {T U V : Type} `{Nilable T} `{Nilable U} `{Nilable V}
  (o : Option T) (f : T -> U) (g : U -> V) (p : T -> bool) (d : T)
  (options : list (Option T)) :
  wellFormed o -> (forall v, isNil (f v) = false) ->
  (exists o', OptionFns.map f o = Normal o' /\ wellFormed o' /\
              isSome o' = isSome o /\
              OptionFns.map g o' = OptionFns.map (fun v => g (f v)) o) /\
  OptionFns.map (fun v => v) o = Normal o /\
  OptionFns.flatMap some o = Normal o /\
  OptionFns.flatten (SOME o) = Normal o /\
  OptionFns.filter p o
  = Normal (match o with SOME v => if p v then o else NONE | NONE => NONE end) /\
  (isNone o = true ->
   OptionFns.unwrap o None = Throws (mkError "Cannot unwrap None") /\
   OptionFns.getOrElse d o = d) /\
  (isNone o = false -> OptionFns.unwrap o None = Normal (OptionFns.getOrElse d o)) /\
  OptionFns.compact options = Normal (payloads options) /\
  List.length (payloads options) = List.length (List.filter isSome options).
Proof.
  intros Hwf Hf. split; [ | split; [ | split; [ | split; [ | split; [ | split; [ | split; [ | split]]]]]]].
  - destruct o as [v | ].
    + exists (SOME (f v)). unfold OptionFns.map, OptionFns.flatMap, optional.
      rewrite (Hf v). repeat split. exact (Hf v).
    + exists NONE. now repeat split.
  - destruct o as [v | ]; [ | reflexivity].
    unfold OptionFns.map, OptionFns.flatMap, optional. cbn in Hwf. now rewrite Hwf.
  - destruct o as [v | ]; [ | reflexivity]. cbn [OptionFns.flatMap]. now apply some_notnil.
  - reflexivity.
  - destruct o as [v | ]; [ | reflexivity]. unfold OptionFns.filter, OptionFns.flatMap.
    destruct (p v); [now apply some_notnil | reflexivity].
  - destruct o; [discriminate | ]. now split.
  - destruct o; [reflexivity | discriminate].
  - apply compact_payloads.
  - induction options as [ | [v | ] rest IH]; cbn; [reflexivity | now rewrite IH | exact IH].
Qed.

Lemma option_laws_witness :
  ((exists o', OptionFns.map (fun x => Num (x + 1)) (SOME 1%Z) = Normal o' /\ wellFormed o' /\
               isSome o' = isSome (SOME 1%Z) /\
               OptionFns.map (fun _ => true :: nil) o'
               = OptionFns.map (fun v => (fun _ => true :: nil) ((fun x => Num (x + 1)) v))
                   (SOME 1%Z)) /\
   OptionFns.map (fun v => v) (SOME 1%Z) = Normal (SOME 1%Z) /\
   OptionFns.flatMap some (SOME 1%Z) = Normal (SOME 1%Z) /\
   OptionFns.flatten (SOME (SOME 1%Z)) = Normal (SOME 1%Z) /\
   OptionFns.filter Z.even (SOME 1%Z)
   = Normal (match SOME 1%Z with
             | SOME v => if Z.even v then SOME 1%Z else NONE
             | NONE => NONE
             end) /\
   (isNone (SOME 1%Z) = true ->
    OptionFns.unwrap (SOME 1%Z) None = Throws (mkError "Cannot unwrap None") /\
    OptionFns.getOrElse 0%Z (SOME 1%Z) = 0%Z) /\
   (isNone (SOME 1%Z) = false ->
    OptionFns.unwrap (SOME 1%Z) None = Normal (OptionFns.getOrElse 0%Z (SOME 1%Z))) /\
   OptionFns.compact [SOME 1%Z; NONE; SOME 3%Z] = Normal (payloads [SOME 1%Z; NONE; SOME 3%Z]) /\
   List.length (payloads [SOME 1%Z; NONE; SOME 3%Z])
   = List.length (List.filter isSome [SOME 1%Z; NONE; SOME 3%Z])) /\
  (OptionFns.unwrap (@NONE Z) None = Throws (mkError "Cannot unwrap None") /\
   OptionFns.getOrElse 0%Z NONE = 0%Z).
Proof.
  split.
  - apply (option_laws (SOME 1%Z) (fun x => Num (x + 1)) (fun _ => true :: nil) Z.even 0%Z
             [SOME 1%Z; NONE; SOME 3%Z]).
    + reflexivity.
    + intros v. reflexivity.
  - destruct (option_laws (@NONE Z) (fun x => Num (x + 1)) (fun _ => true :: nil) Z.even 0%Z [])
      as (_ & _ & _ & _ & _ & Hnone & _).
    + exact I.
    + intros v. reflexivity.
    + apply Hnone. reflexivity.
Defined.

(** ** [startsWith] and [endsWith] *)

Lemma prefixb_spec {T : Type} (same : T -> T -> bool) :
  (forall a b, same a b = true <-> a = b) ->
  forall ys xs, prefixb same ys xs = true <-> exists rest, xs = ys ++ rest.
Proof.
  intros Hsame. induction ys as [ | y ys IH]; intros xs.
  - split; [intros _; now exists xs | reflexivity].
  - destruct xs as [ | x xs]; cbn [prefixb].
    + split; [discriminate | intros (rest & Hr); discriminate].
    + destruct (same x y) eqn:E; cbn [negb].
      * apply Hsame in E. subst y. rewrite IH. split.
        -- intros (rest & ->). now exists rest.
        -- intros (rest & Hr). inv Hr. now exists rest.
      * split; [discriminate | ]. intros (rest & Hr).
        assert (Hxy : x = y) by (cbn [app] in Hr; congruence).
        apply Hsame in Hxy. congruence.
Qed.

Lemma every_from_spec {T : Type} (same : T -> T -> bool) (full : list T) (off : nat) :
  (forall a b, same a b = true <-> a = b) ->
  forall (ys : list T) (j : nat),
  SeqFns.every_from
    (fun val i => match index full (Z.of_nat off + i) with
                  | Some x => same val x
                  | None => false
                  end) (Z.of_nat j) ys = true
  <-> firstn (List.length ys) (skipn (off + j) full) = ys.
Proof.
  intros Hsame. induction ys as [ | y ys IH]; intros j.
  - split; reflexivity.
  - cbn [SeqFns.every_from List.length].
    replace (Z.of_nat off + Z.of_nat j)%Z with (Z.of_nat (off + j)) by lia.
    rewrite index_of_nat. replace (Z.of_nat j + 1)%Z with (Z.of_nat (S j)) by lia.
    destruct (nth_error full (off + j)) as [x | ] eqn:Ex.
    + rewrite (skipn_nth_cons full (off + j) x Ex). cbn [firstn].
      replace (S (off + j)) with (off + S j) by lia.
      destruct (same y x) eqn:E.
      * apply Hsame in E. subst x. rewrite IH. split; [now intros -> | ].
        intros Hq. congruence.
      * split; [discriminate | ]. intros Hq.
        assert (Hyx : y = x) by congruence.
        apply Hsame in Hyx. congruence.
    + apply nth_error_None in Ex. rewrite skipn_all2 by exact Ex.
      split; [discriminate | ]. now rewrite firstn_nil.
Qed.

Section AffixSpec.
Context {Wa Wb T : Type} `{Nilable T}.
Variable a : Seq Wa T.
Variable b : Seq Wb T.
Variable same : T -> T -> bool.
Variable InvA : Wa -> Prop.
Variable InvB : Wb -> Prop.
Variable ga gb : Z -> Option T.
Hypothesis Ha : SeqSpec a everywhere InvA ga.
Hypothesis Hb : SeqSpec b everywhere InvB gb.
Variable xs ys : list T.
Hypothesis Hxa : Exactly ga xs.
Hypothesis Hxb : Exactly gb ys.

Lemma startsWith_loop_spec : forall (fuel q : nat) (wa : Wa) (wb : Wb),
  InvA wa -> InvB wb -> List.length (skipn q ys) < fuel ->
  exists st, SeqFns.startsWith_loop a b same fuel (Z.of_nat q) (Z.of_nat q) (wa, wb)
             = Some (prefixb same (skipn q ys) (skipn q xs), st).
Proof.
  induction fuel as [ | fuel IH]; intros q wa wb Hia Hib Hf; [lia | ].
  cbn [SeqFns.startsWith_loop]. unfold bind, onFst, onSnd. cbn [next iterator].
  unfold bind, ret.
  destruct (pull a InvA ga Ha xs Hxa q wa Hia) as (oa & wa' & Ea & Hoa & Hia').
  destruct (pull b InvB gb Hb ys Hxb q wb Hib) as (ob & wb' & Eb & Hob & Hib').
  rewrite Ea, Eb, Hoa, Hob. unfold ofList.
  destruct (nth_error ys q) as [y | ] eqn:Ey.
  - rewrite (skipn_nth_cons ys q y Ey) in Hf |- *. cbn [List.length] in Hf.
    destruct (nth_error xs q) as [x | ] eqn:Ex.
    + rewrite (skipn_nth_cons xs q x Ex). cbn [prefixb].
      destruct (negb (same x y)); [now eexists | ].
      replace (Z.of_nat q + 1)%Z with (Z.of_nat (S q)) by lia.
      apply IH; [exact Hia' | exact Hib' | lia].
    + apply nth_error_None in Ex. rewrite (skipn_all2 xs) by exact Ex. now eexists.
  - apply nth_error_None in Ey. rewrite (skipn_all2 ys) by exact Ey. now eexists.
Qed.

End AffixSpec.

(** X13: when [same] is the equality of the elements, [startsWith(prefix)]
    on the finite sequences [xs] and [ys] answers whether [xs] begins with
    [ys], and [endsWith(suffix)] whether [xs] ends with [ys]; both are
    [true] for an empty [ys]. *)
Theorem startsWith_endsWith {Wa Wb T : Type} `{Nilable T} (a : Seq Wa T) (b : Seq Wb T)
  (same : T -> T -> bool) (wa : Wa) (wb : Wb) (xs ys : list T) (fuel : nat) :
  (forall x y, same x y = true <-> x = y) ->
  Lists a wa xs -> Lists b wb ys -> List.length xs < fuel -> List.length ys < fuel ->
  (exists r st, SeqFns.startsWith a b same fuel (wa, wb) = Some (r, st) /\
                (r = true <-> exists rest, xs = ys ++ rest)) /\
  (exists r st, SeqFns.endsWith a b same fuel (wa, wb) = Some (r, st) /\
                (r = true <-> exists front, xs = front ++ ys)).
Proof.
  intros Hsame Hla Hlb Hfa Hfb. split.
  - destruct Hla as (ga & (InvA & Hia & Ha) & Hxa).
    destruct Hlb as (gb & (InvB & Hib & Hb) & Hxb).
    destruct (startsWith_loop_spec a b same InvA InvB ga gb Ha Hb xs ys Hxa Hxb
                fuel 0 wa wb Hia Hib) as (st & E); [cbn [skipn]; lia | ].
    exists (prefixb same ys xs), st. split; [exact E | ]. now apply prefixb_spec.
  - destruct (lists_toArrayUnsafe a wa xs fuel Hla Hfa) as (wa' & Ea).
    destruct (lists_toArrayUnsafe b wb ys fuel Hlb Hfb) as (wb' & Eb).
    unfold SeqFns.endsWith, bind, onFst, onSnd, ret. rewrite Ea, Eb.
    destruct (Z.gtb_spec (Z.of_nat (List.length ys)) (Z.of_nat (List.length xs))) as [Hgt | Hle].
    + eexists _, _. split; [reflexivity | ]. split; [discriminate | ].
      intros (front & Hx). apply (f_equal (@List.length T)) in Hx.
      rewrite length_app in Hx. lia.
    + eexists _, _. split; [reflexivity | ].
      replace (Z.of_nat (List.length xs) - Z.of_nat (List.length ys))%Z
        with (Z.of_nat (List.length xs - List.length ys)) by lia.
      change 0%Z with (Z.of_nat 0).
      rewrite (every_from_spec same xs (List.length xs - List.length ys) Hsame ys 0).
      rewrite Nat.add_0_r, firstn_all2 by (rewrite length_skipn; lia). split.
      * intros Hsk. exists (firstn (List.length xs - List.length ys) xs).
        pose proof (firstn_skipn (List.length xs - List.length ys) xs) as Hfs.
        rewrite Hsk in Hfs. now symmetry.
      * intros (front & Hx). rewrite Hx, length_app.
        replace (List.length front + List.length ys - List.length ys)
          with (List.length front) by lia.
        rewrite skipn_app, Nat.sub_diag, skipn_all. reflexivity.
Qed.

Lemma startsWith_endsWith_witness :
  (exists r st, SeqFns.startsWith (fromArray [1; 2; 3]%Z) (fromArray [1; 2]%Z) Z.eqb 4
                  (init tt, init tt) = Some (r, st) /\
                (r = true <-> exists rest, [1; 2; 3]%Z = [1; 2]%Z ++ rest)) /\
  (exists r st, SeqFns.endsWith (fromArray [1; 2; 3]%Z) (fromArray [1; 2]%Z) Z.eqb 4
                  (init tt, init tt) = Some (r, st) /\
                (r = true <-> exists front, [1; 2; 3]%Z = front ++ [1; 2]%Z)).
Proof.
  apply (startsWith_endsWith (fromArray [1; 2; 3]%Z) (fromArray [1; 2]%Z) Z.eqb
           (init tt) (init tt) [1; 2; 3]%Z [1; 2]%Z 4).
  - intros x y. apply Z.eqb_eq.
  - apply fromArray_lists. apply notNil_Z.
  - apply fromArray_lists. apply notNil_Z.
  - cbn. lia.
  - cbn. lia.
Defined.

(** * Bounded operations, with sources that throw *)

Section LiftSpec.
Context {W C T : Type} `{Nilable T}.
Variable src : Source W C T.

Lemma fastForwardT_lift : forall (n : nat) (it : C) (w : W),
  fastForwardT (liftSource src) n it w
  = match fastForward src n it w with
    | Some (c, w') => Some (Normal c, w')
    | None => None
    end.
Proof.
  induction n as [ | n IH]; intros it w; [reflexivity | ].
  cbn [fastForwardT fastForward liftSource nextT]. unfold bind, ret.
  destruct (next src it w) as [[[x it'] w'] | ]; [apply IH | reflexivity].
Qed.

Lemma fillT_lift : forall (fuel : nat) (idx : Z) (it : C) (cache : list T) (w : W),
  fillT (liftSource src) fuel idx it cache w
  = match fill src fuel idx it cache w with
    | Some ((o, cache'), w') => Some ((Normal o, cache'), w')
    | None => None
    end.
Proof.
  induction fuel as [ | fuel IH]; intros idx it cache w.
  - cbn [fillT fill]. destruct (Z.of_nat (List.length cache) <=? idx)%Z; reflexivity.
  - cbn [fillT fill]. destruct (Z.of_nat (List.length cache) <=? idx)%Z; [ | reflexivity].
    cbn [liftSource nextT]. unfold bind, ret.
    destruct (next src it w) as [[[[v | ] it'] w'] | ]; [apply IH | reflexivity | reflexivity].
Qed.

(** On a source that does not throw, [get] of the throwing model is [get]
    of the plain one. *)
Lemma createT_get_lift (idx : Z) (st : list T * W) :
  getT (createT (liftSource src)) idx st
  = match get (create src) idx st with
    | Some (o, st') => Some (Normal o, st')
    | None => None
    end.
Proof.
  destruct st as [cache w]. cbn [getT createT createT_get get create create_get].
  destruct (idx <? Z.of_nat (List.length cache))%Z; [reflexivity | ].
  cbn [liftSource freshT]. unfold bind, ret.
  destruct (fresh src w) as [[it w0] | ]; [ | reflexivity].
  rewrite fastForwardT_lift.
  destruct (fastForward src (List.length cache) it w0) as [[it1 w1] | ]; [ | reflexivity].
  rewrite fillT_lift.
  now destruct (fill src _ idx it1 cache w1) as [[[o cache'] w2] | ].
Qed.

End LiftSpec.

Section WalkAgree.
Context {W T : Type} `{Nilable T}.
Variable a : ThrowingSeq W T.
Variable s : Seq W T.
Hypothesis Hget : forall idx st,
  getT a idx st = match get s idx st with
                  | Some (o, st') => Some (Normal o, st')
                  | None => None
                  end.

Lemma forOfT_agree {A : Type} (body : A -> T -> Completion A) :
  forall (fuel : nat) (it : Z) (acc : A) (st : W),
  forOfT a fuel body it acc st = forOf s fuel body it acc st.
Proof.
  induction fuel as [ | fuel IH]; intros it acc st; [reflexivity | ].
  cbn [forOfT forOf next iterator]. unfold iterator_nextT, bind, ret. rewrite Hget.
  destruct (get s it st) as [[[v | ] st'] | ]; try reflexivity.
  cbn [fold isNone]. destruct (body acc v); [apply IH | reflexivity].
Qed.

Lemma walks_agree (fuel : nat) (max : option Z) (st : W) :
  lengthT a fuel max st = length s fuel max st /\
  reverseT a fuel max st = reverse s fuel max st /\
  toArrayT a fuel max st = toArray s fuel max st.
Proof.
  unfold lengthT, reverseT, toArrayT, length, reverse, toArray.
  cbn [fresh iterator]. unfold bind, ret. now rewrite !forOfT_agree.
Qed.

End WalkAgree.

(** A throw at the first pull comes back as the failure of every walk. *)
Lemma walks_throw {W C T : Type} `{Nilable T} (src : ThrowingSource W C T) (w w0 w1 : W)
  (c : C) (e : Error) (fuel : nat) (max : option Z) :
  freshT src w = Some (Normal c, w0) -> nextT src c w0 = Some (Throws e, w1) -> 0 < fuel ->
  lengthT (createT src) fuel max (init w) = Some (FAILURE e, ([], w1)) /\
  reverseT (createT src) fuel max (init w) = Some (FAILURE e, ([], w1)) /\
  toArrayT (createT src) fuel max (init w) = Some (FAILURE e, ([], w1)).
Proof.
  intros Hf Hn Hfuel. destruct fuel as [ | fuel]; [lia | ].
  assert (Hg : getT (createT src) 0%Z (init w) = Some (Throws e, ([], w1))).
  { cbn [getT createT createT_get init List.length Z.of_nat Z.ltb Z.compare]. rewrite Hf.
    cbn [fastForwardT]. unfold ret.
    change (Z.to_nat (0 + 1 - 0)) with 1.
    cbn [fillT List.length Z.of_nat Z.leb Z.compare]. unfold bind, ret. now rewrite Hn. }
  unfold lengthT, reverseT, toArrayT. cbn [forOfT]. unfold iterator_nextT, bind, ret.
  rewrite Hg. now repeat split.
Qed.

Lemma reversed_lists {W T : Type} `{Nilable T} (s : Seq W T) (w : W) (g : Z -> Option T)
  (l : list T) :
  Behaves s w g -> Prefix g l ->
  Lists (handle (fromArrayObj (rev l))) (state (fromArrayObj (rev l))) (rev l).
Proof.
  intros Hb Hl. apply fromArrayObj_lists. apply Forall_rev.
  exact (prefix_notnil s w g l Hb Hl).
Qed.

Section ThrowAfter.
Context {T : Type} `{Nilable T}.
Variable l : list T.
Variable e : Error.
Hypothesis Hn : notNil l.

Lemma fastForwardT_throwAfter : forall n i,
  i + n <= List.length l ->
  fastForwardT (throwAfter l e) n i tt = Some (Normal (i + n), tt).
Proof.
  induction n as [ | n IH]; intros i Hi.
  - cbn [fastForwardT]. unfold ret. now rewrite Nat.add_0_r.
  - cbn [fastForwardT throwAfter nextT]. unfold bind.
    destruct (nth_error l i) as [v | ] eqn:Ev; [ | apply nth_error_None in Ev; lia].
    unfold ret. fold (throwAfter l e). rewrite IH by lia. do 3 f_equal. lia.
Qed.

Lemma getT_throwAfter (p : nat) :
  p <= List.length l ->
  getT (createT (throwAfter l e)) (Z.of_nat p) (firstn p l, tt)
  = Some (match nth_error l p with
          | Some v => Normal (SOME v)
          | None => Throws e
          end, (firstn (S p) l, tt)).
Proof.
  intros Hp. assert (Hlen : List.length (firstn p l) = p) by (rewrite length_firstn; lia).
  cbn [getT createT createT_get]. rewrite Hlen.
  destruct (Z.ltb_spec (Z.of_nat p) (Z.of_nat p)); [lia | ].
  cbn [freshT throwAfter]. unfold ret. fold (throwAfter l e).
  rewrite (fastForwardT_throwAfter p 0) by lia. cbn [Nat.add].
  replace (Z.to_nat (Z.of_nat p + 1 - Z.of_nat p)) with 1 by lia.
  cbn [fillT]. rewrite Hlen.
  destruct (Z.leb_spec (Z.of_nat p) (Z.of_nat p)); [ | lia].
  cbn [nextT throwAfter]. unfold bind.
  destruct (nth_error l p) as [v | ] eqn:Ev.
  - unfold ret. rewrite length_app, Hlen. cbn [List.length].
    destruct (Z.leb_spec (Z.of_nat (p + 1)) (Z.of_nat p)); [lia | ].
    rewrite (firstn_snoc l p v Ev), index_of_nat.
    assert (Hv' : nth_error (firstn (S p) l) p = Some v).
    { rewrite nth_error_firstn. destruct (Nat.ltb_spec p (S p)); [exact Ev | lia]. }
    rewrite Hv'. cbn [optional].
    assert (Hnil : isNil v = false).
    { unfold notNil in Hn. rewrite Forall_forall in Hn. apply Hn.
      eapply nth_error_In. exact Ev. }
    now rewrite Hnil.
  - unfold ret. apply nth_error_None in Ev.
    now rewrite !firstn_all2 by lia.
Qed.

Lemma forOfT_throwAfter {A : Type} (body : A -> T -> Completion A) :
  forall (fuel p : nat) (acc : A),
  p <= List.length l -> List.length l - p < fuel ->
  (exists v, runBody body (skipn p l) acc = Normal v) ->
  forOfT (createT (throwAfter l e)) fuel body (Z.of_nat p) acc (firstn p l, tt)
  = Some (Throws e, (l, tt)).
Proof.
  induction fuel as [ | fuel IH]; intros p acc Hp Hf (v & Hr); [lia | ].
  cbn [forOfT]. unfold iterator_nextT, bind. rewrite (getT_throwAfter p Hp).
  destruct (nth_error l p) as [x | ] eqn:Ex.
  - unfold ret. cbn [fold isNone].
    rewrite (skipn_nth_cons l p x Ex) in Hr. cbn [runBody] in Hr.
    destruct (body acc x) as [acc' | e']; [ | discriminate].
    replace (Z.of_nat p + 1)%Z with (Z.of_nat (S p)) by lia.
    assert (Hlt : p < List.length l) by (apply nth_error_Some; congruence).
    apply IH; [lia | lia | now exists v].
  - unfold ret. apply nth_error_None in Ex. now rewrite firstn_all2 by lia.
Qed.

(** A source that throws after the elements [l], with [l] within the cap:
    every walk returns the failure of that exception. *)
Lemma walks_throwAfter (fuel : nat) (max : option Z) :
  (Z.of_nat (List.length l) <= cap max)%Z -> List.length l < fuel ->
  lengthT (createT (throwAfter l e)) fuel max (init tt) = Some (FAILURE e, (l, tt)) /\
  reverseT (createT (throwAfter l e)) fuel max (init tt) = Some (FAILURE e, (l, tt)) /\
  toArrayT (createT (throwAfter l e)) fuel max (init tt) = Some (FAILURE e, (l, tt)).
Proof.
  intros Hc Hf. unfold lengthT, reverseT, toArrayT, bind, ret.
  change (match max with Some m => m | None => default_max end) with (cap max).
  change (@init unit T tt) with (firstn 0 l, tt). change 0%Z with (Z.of_nat 0) at 1 3 5.
  rewrite !forOfT_throwAfter; try lia.
  - now repeat split.
  - cbn [skipn]. rewrite (runBody_collect (cap max) _ l [] 0%Z).
    destruct l as [ | a l']; [now eexists | ].
    destruct (Z.gtb_spec (0 + Z.of_nat (List.length (a :: l'))) (cap max)); [lia | now eexists].
  - cbn [skipn]. rewrite (runBody_collect (cap max) _ l [] 0%Z).
    destruct l as [ | a l']; [now eexists | ].
    destruct (Z.gtb_spec (0 + Z.of_nat (List.length (a :: l'))) (cap max)); [lia | now eexists].
  - cbn [skipn]. rewrite (runBody_count (cap max) _ l 0%Z).
    destruct l as [ | a l']; [now eexists | ].
    destruct (Z.gtb_spec (0 + Z.of_nat (List.length (a :: l'))) (cap max)); [lia | now eexists].
Qed.

End ThrowAfter.



